(** * Saga orchestrator (orchestrator/main.go): transaction store, step ledger
    and saga executor, embedded shallowly.

    Go values are modelled as the program has them: strings as [string], the
    [int] counter [nextID] as a 64-bit two's-complement integer in [Z], the
    [float64] amounts as IEEE-754 binary64 floats, the map [transactions] as a
    [gmap], and the [[]Step] slices as slice headers (pointer, length,
    capacity) into a heap of backing arrays, because the program copies
    [Transaction] structs by value while their [Steps] headers keep pointing to
    shared arrays. *)

From Stdlib Require Import ZArith Floats.
From stdpp Require Import gmap strings list fin_maps pretty.

Local Open Scope string_scope.
Local Open Scope list_scope.
Local Open Scope nat_scope.

(** ** Constants *)

Definition OrderServiceURL : string := "http://localhost:8081".
Definition PaymentServiceURL : string := "http://localhost:8082".
Definition ShippingServiceURL : string := "http://localhost:8083".

Definition TransactionStatusPending : string := "PENDING".
Definition TransactionStatusCompleted : string := "COMPLETED".
Definition TransactionStatusFailed : string := "FAILED".

Definition MethodPost : string := "POST".
Definition MethodGet : string := "GET".

Definition StatusBadRequest : Z := 400.
Definition StatusNotFound : Z := 404.
Definition StatusMethodNotAllowed : Z := 405.
Definition StatusOK : Z := 200.
Definition StatusAccepted : Z := 202.

(** ** Data model *)

(** A [time.Time]. [None] is the zero value (an unset timestamp); [Some t] is a
    reading of the clock: [time.Now()] never returns the zero instant. *)
Definition Timestamp : Type := option Z.

Module Step.
Record t : Type := mk {
  Name : string;
  Status : string;
  StartedAt : Timestamp;
  EndedAt : Timestamp;
  Error : string
}.
Definition zero : t := mk "" "" None None "".
Definition set_Status (v : string) (s : t) : t :=
  mk (Name s) v (StartedAt s) (EndedAt s) (Error s).
Definition set_EndedAt (v : Timestamp) (s : t) : t :=
  mk (Name s) (Status s) (StartedAt s) v (Error s).
Definition set_Error (v : string) (s : t) : t :=
  mk (Name s) (Status s) (StartedAt s) (EndedAt s) v.
End Step.

(** A slice header [[]Step]: pointer to the backing array ([None] is the nil
    pointer), length and capacity. *)
Record Slice : Type := { ptr : option nat; len : nat; cap : nat }.

(** The nil slice, zero value of [[]Step]. *)
Definition nilSlice : Slice := {| ptr := None; len := 0; cap := 0 |}.

(** Address of the runtime's zero-size object, to which the literal
    [[]Step{}] points. *)
Definition zerobase : nat := 0.

(** The composite literal [[]Step{}]: non-nil, no elements, no capacity. *)
Definition emptySlice : Slice := {| ptr := Some zerobase; len := 0; cap := 0 |}.

Module Transaction.
Record t : Type := mk {
  ID : string;
  OrderID : string;
  CustomerID : string;
  Amount : float;
  Address : string;
  Status : string;
  CreatedAt : Timestamp;
  CompletedAt : Timestamp;
  FailureReason : string;
  Steps : Slice
}.
Definition zero : t := mk "" "" "" 0%float "" "" None None "" nilSlice.
Definition set_OrderID (v : string) (x : t) : t :=
  mk (ID x) v (CustomerID x) (Amount x) (Address x) (Status x)
     (CreatedAt x) (CompletedAt x) (FailureReason x) (Steps x).
Definition set_Status (v : string) (x : t) : t :=
  mk (ID x) (OrderID x) (CustomerID x) (Amount x) (Address x) v
     (CreatedAt x) (CompletedAt x) (FailureReason x) (Steps x).
Definition set_CompletedAt (v : Timestamp) (x : t) : t :=
  mk (ID x) (OrderID x) (CustomerID x) (Amount x) (Address x) (Status x)
     (CreatedAt x) v (FailureReason x) (Steps x).
Definition set_FailureReason (v : string) (x : t) : t :=
  mk (ID x) (OrderID x) (CustomerID x) (Amount x) (Address x) (Status x)
     (CreatedAt x) (CompletedAt x) v (Steps x).
Definition set_Steps (v : Slice) (x : t) : t :=
  mk (ID x) (OrderID x) (CustomerID x) (Amount x) (Address x) (Status x)
     (CreatedAt x) (CompletedAt x) (FailureReason x) v.
End Transaction.

Record Item : Type := {
  item_ID : string;
  item_Name : string;
  item_Price : float;
  item_Quantity : Z
}.

Record CreateOrderRequest : Type := {
  CustomerID : string;
  Items : list Item;
  Amount : float;
  Address : string
}.

Record TransactionResponse : Type := {
  Success : bool;
  Message : string;
  Transaction : Transaction.t
}.

(** ** JSON payloads and HTTP results *)

(** The values the orchestrator puts into its [map[string]interface{}] request
    bodies. *)
Inductive JsonValue : Type :=
| JString (s : string)
| JNumber (f : float)
| JItems (items : list Item).

(** [encoding/json] refuses NaN and the infinities; the text is that of its
    [UnsupportedValueError]. *)
Definition unsupported_float (f : float) : option string :=
  if PrimFloat.is_nan f then Some "json: unsupported value: NaN"
  else if PrimFloat.is_infinity f then
    Some (if (f <? 0)%float then "json: unsupported value: -Inf"
          else "json: unsupported value: +Inf")
  else None.

Definition first_error (e1 e2 : option string) : option string :=
  match e1 with
  | Some e => Some e
  | None => e2
  end.

Definition value_error (v : JsonValue) : option string :=
  match v with
  | JString _ => None
  | JNumber f => unsupported_float f
  | JItems items =>
      foldr (λ it acc, first_error (unsupported_float (item_Price it)) acc)
        None items
  end.

(** Map keys are encoded in sorted order. *)
Fixpoint insert_key (kv : string * JsonValue) (l : list (string * JsonValue))
    : list (string * JsonValue) :=
  match l with
  | [] => [kv]
  | kv' :: l' =>
      if String.leb kv.1 kv'.1 then kv :: l else kv' :: insert_key kv l'
  end.

Definition sort_keys (l : list (string * JsonValue))
    : list (string * JsonValue) :=
  foldr insert_key [] l.

(** The error of [json.Marshal] on a request body, [None] for nil. *)
Definition json_Marshal (body : list (string * JsonValue)) : option string :=
  foldr (λ kv acc, first_error (value_error kv.2) acc) None (sort_keys body).

(** The fields of a participant's response envelope. [OrderResponse],
    [PaymentResponse] and [ShippingResponse] each decode a subset of them. *)
Module Reply.
Record t : Type := mk {
  Success : bool;
  Message : string;
  OrderID : string;
  PaymentID : string;
  ShippingID : string;
  Status : string
}.
End Reply.

(** What an [http.Post] followed by reading and decoding the body can yield,
    in the order the orchestrator checks for errors. The strings are the
    [Error()] texts. *)
Inductive HttpResult : Type :=
| PostError (err : string)
| ReadError (err : string)
| BadJSON (err : string)
| Envelope (resp : Reply.t).

(** An incoming request as the two handlers read it: the method, the result
    of decoding the body into a [CreateOrderRequest] ([None] when
    [Decode] fails), and the [transaction_id] query parameter. *)
Record HttpRequest : Type := {
  Method : string;
  Body : option CreateOrderRequest;
  transaction_id : string
}.

(** What a handler writes: [http.Error(w, msg, code)], or a status code
    followed by the JSON encoding of a [TransactionResponse]. *)
Inductive HttpReply : Type :=
| http_Error (msg : string) (code : Z)
| WriteJSON (code : Z) (resp : TransactionResponse).

(** ** Memory: the package variables and the heap of backing arrays *)

(** The package-level variables [transactions] and [nextID], and the backing
    arrays of all [[]Step] slices, indexed by address. The mutex [mu] is not a
    component: a critical section is one atomic transition. *)
Record State : Type := {
  transactions : gmap string Transaction.t;
  nextID : Z;
  heap : list (list Step.t)
}.

(** Program start: empty map, counter 1, and the zero-size object. *)
Definition initial : State :=
  {| transactions := ∅; nextID := 1; heap := [[]] |}.

(** Go's [int] on a 64-bit platform. *)
Definition int_wrap (z : Z) : Z := ((z + 2 ^ 63) mod 2 ^ 64 - 2 ^ 63)%Z.
Definition max_int : Z := (2 ^ 63 - 1)%Z.

(** ** Slices *)

(** The backing array a slice header points to. *)
Definition array (h : list (list Step.t)) (s : Slice) : list Step.t :=
  match ptr s with
  | Some a => default [] (h !! a)
  | None => []
  end.

(** The elements visible through a header: the first [len] cells. *)
Definition elems (h : list (list Step.t)) (s : Slice) : list Step.t :=
  take (len s) (array h s).

(** [s[i] = f(s[i])] for an index inside the slice: an in-place write to the
    backing array, seen through every header that points to it. *)
Definition modify_at (h : list (list Step.t)) (s : Slice) (i : nat)
    (f : Step.t → Step.t) : list (list Step.t) :=
  match ptr s with
  | Some a => <[a := alter f i (array h s)]> h
  | None => h
  end.

(** ** Goroutine code

    A function that takes the lock several times and calls out over HTTP is a
    tree of critical sections and calls: each [Atomic] node is one
    [mu.Lock() ... mu.Unlock()] region (given the clock reading it may take),
    each [HttpPost] node one outbound request whose result comes from the
    environment. *)
Inductive Prog (A : Type) : Type :=
| Ret (a : A)
| Atomic (f : Z → State → State) (k : Prog A)
| HttpPost (url : string) (body : list (string * JsonValue))
    (k : HttpResult → Prog A).

Arguments Ret {A} a.
Arguments Atomic {A} f k.
Arguments HttpPost {A} url body k.

Fixpoint bind {A B : Type} (m : Prog A) (k : A → Prog B) : Prog B :=
  match m with
  | Ret a => k a
  | Atomic f m' => Atomic f (bind m' k)
  | HttpPost url body c => HttpPost url body (λ r, bind (c r) k)
  end.

#[global] Instance Prog_ret : MRet Prog := @Ret.
#[global] Instance Prog_bind : MBind Prog := λ A B k m, bind m k.

(** A call of a function that is one critical section. *)
Definition locked (f : Z → State → State) : Prog unit := Atomic f (Ret tt).

(** An [http.Post] whose result is handed to the caller. *)
Definition http_post (url : string) (body : list (string * JsonValue))
    : Prog HttpResult :=
  HttpPost url body Ret.

(** *** Sequential execution of one goroutine

    The environment of a run: the result of each outbound call (by its URL
    and body; a saga posts to each URL at most once) and the clock reading in
    each critical section (by its position in the run). *)
Record World : Type := {
  http_Post : string → list (string * JsonValue) → HttpResult;
  time_Now : nat → Z
}.

Record Config : Type := {
  state : State;
  ticks : nat;
  calls : list (string * list (string * JsonValue))
}.

Fixpoint run {A : Type} (w : World) (p : Prog A) (c : Config) : A * Config :=
  match p with
  | Ret a => (a, c)
  | Atomic f k =>
      run w k {| state := f (time_Now w (ticks c)) (state c);
                 ticks := S (ticks c);
                 calls := calls c |}
  | HttpPost url body k =>
      run w (k (http_Post w url body))
        {| state := state c;
           ticks := ticks c;
           calls := calls c ++ [(url, body)] |}
  end.

Section Orchestrator.

(** The capacity the runtime picks when [append] must reallocate, from the old
    capacity and the needed length. The language only promises a sufficiently
    large array, which [append] below enforces with [max]. *)
Variable growslice : nat → nat → nat.

(** [fmt.Errorf(format).Error()] for a call without arguments: the format
    string with its verbs processed. *)
Variable Errorf : string → string.

(** [append(s, x)]: writes in place when capacity is left, otherwise copies
    the elements to a fresh array. *)
Definition append (h : list (list Step.t)) (s : Slice) (x : Step.t)
    : list (list Step.t) * Slice :=
  match ptr s with
  | Some a =>
      if (len s <? cap s)%nat then
        (<[a := <[len s := x]> (array h s)]> h,
         {| ptr := Some a; len := S (len s); cap := cap s |})
      else
        let c := Nat.max (S (len s)) (growslice (cap s) (S (len s))) in
        (h ++ [elems h s ++ x :: replicate (c - S (len s)) Step.zero],
         {| ptr := Some (length h); len := S (len s); cap := c |})
  | None =>
      let c := Nat.max (S (len s)) (growslice (cap s) (S (len s))) in
      (h ++ [elems h s ++ x :: replicate (c - S (len s)) Step.zero],
       {| ptr := Some (length h); len := S (len s); cap := c |})
  end.

(** ** Step ledger and transaction status (critical sections) *)

(** [addStep], given the reading [now] of [time.Now()]. *)
Definition addStep (transactionID stepName : string) (now : Z) (σ : State)
    : State :=
  match transactions σ !! transactionID with
  | None => σ
  | Some transaction =>
      let step :=
        {| Step.Name := stepName;
           Step.Status := TransactionStatusPending;
           Step.StartedAt := Some now;
           Step.EndedAt := None;
           Step.Error := "" |} in
      let '(h, steps) := append (heap σ) (Transaction.Steps transaction) step in
      {| transactions :=
           <[transactionID := Transaction.set_Steps steps transaction]>
             (transactions σ);
         nextID := nextID σ;
         heap := h |}
  end.

(** The body of the loop of [updateStepStatus] at the matching index. *)
Definition conclude (success : bool) (errorMsg : string) (now : Z)
    (step : Step.t) : Step.t :=
  Step.set_EndedAt (Some now)
    (if success then Step.set_Status TransactionStatusCompleted step
     else Step.set_Error errorMsg
            (Step.set_Status TransactionStatusFailed step)).

(** [updateStepStatus]: the range loop stops at the first step whose name
    matches. *)
Definition updateStepStatus (transactionID stepName : string) (success : bool)
    (errorMsg : string) (now : Z) (σ : State) : State :=
  match transactions σ !! transactionID with
  | None => σ
  | Some transaction =>
      let steps := Transaction.Steps transaction in
      let h :=
        match list_find (λ step, Step.Name step = stepName)
                (elems (heap σ) steps) with
        | Some (i, _) =>
            modify_at (heap σ) steps i (conclude success errorMsg now)
        | None => heap σ
        end in
      {| transactions := <[transactionID := transaction]> (transactions σ);
         nextID := nextID σ;
         heap := h |}
  end.

(** [updateTransactionStatus]. *)
Definition updateTransactionStatus (transactionID status failureReason : string)
    (now : Z) (σ : State) : State :=
  match transactions σ !! transactionID with
  | None => σ
  | Some transaction =>
      let transaction := Transaction.set_Status status transaction in
      let transaction :=
        if decide (status = TransactionStatusCompleted) then
          Transaction.set_CompletedAt (Some now) transaction
        else if decide (status = TransactionStatusFailed) then
          Transaction.set_CompletedAt (Some now)
            (Transaction.set_FailureReason failureReason transaction)
        else transaction in
      {| transactions := <[transactionID := transaction]> (transactions σ);
         nextID := nextID σ;
         heap := heap σ |}
  end.

(** The critical section of [executeSaga] that records the order id. The map
    read has no presence check: an absent key reads as the zero value. *)
Definition setOrderID (transactionID orderID : string) (now : Z) (σ : State)
    : State :=
  let transaction := default Transaction.zero (transactions σ !! transactionID) in
  let transaction := Transaction.set_OrderID orderID transaction in
  {| transactions := <[transactionID := transaction]> (transactions σ);
     nextID := nextID σ;
     heap := heap σ |}.



(** ** Saga steps *)

Definition orderReq (req : CreateOrderRequest) : list (string * JsonValue) :=
  [("customer_id", JString (CustomerID req));
   ("items", JItems (Items req));
   ("amount", JNumber (Amount req))].

Definition createOrder (transactionID : string) (req : CreateOrderRequest)
    : Prog (string * option string) :=
  locked (addStep transactionID "CREATE_ORDER");;
  match json_Marshal (orderReq req) with
  | Some err =>
      locked (updateStepStatus transactionID "CREATE_ORDER" false err);;
      mret ("", Some err)
  | None =>
      resp ← http_post (OrderServiceURL +:+ "/create-order") (orderReq req);
      match resp with
      | PostError err | ReadError err | BadJSON err =>
          locked (updateStepStatus transactionID "CREATE_ORDER" false err);;
          mret ("", Some err)
      | Envelope orderResp =>
          if negb (Reply.Success orderResp) then
            locked (updateStepStatus transactionID "CREATE_ORDER" false
                      (Reply.Message orderResp));;
            mret ("", Some (Errorf (Reply.Message orderResp)))
          else
            locked (updateStepStatus transactionID "CREATE_ORDER" true "");;
            mret (Reply.OrderID orderResp, None)
      end
  end.

Definition paymentReq (orderID : string) (amount : float)
    : list (string * JsonValue) :=
  [("order_id", JString orderID); ("amount", JNumber amount)].

Definition processPayment (transactionID orderID : string) (amount : float)
    : Prog (option string) :=
  locked (addStep transactionID "PROCESS_PAYMENT");;
  match json_Marshal (paymentReq orderID amount) with
  | Some err =>
      locked (updateStepStatus transactionID "PROCESS_PAYMENT" false err);;
      mret (Some err)
  | None =>
      resp ← http_post (PaymentServiceURL +:+ "/process-payment")
               (paymentReq orderID amount);
      match resp with
      | PostError err | ReadError err | BadJSON err =>
          locked (updateStepStatus transactionID "PROCESS_PAYMENT" false err);;
          mret (Some err)
      | Envelope paymentResp =>
          if negb (Reply.Success paymentResp) then
            locked (updateStepStatus transactionID "PROCESS_PAYMENT" false
                      (Reply.Message paymentResp));;
            mret (Some (Errorf (Reply.Message paymentResp)))
          else
            locked (updateStepStatus transactionID "PROCESS_PAYMENT" true "");;
            mret None
      end
  end.

Definition shippingReq (orderID address : string)
    : list (string * JsonValue) :=
  [("order_id", JString orderID); ("address", JString address)].

Definition startShipping (transactionID orderID address : string)
    : Prog (option string) :=
  locked (addStep transactionID "START_SHIPPING");;
  match json_Marshal (shippingReq orderID address) with
  | Some err =>
      locked (updateStepStatus transactionID "START_SHIPPING" false err);;
      mret (Some err)
  | None =>
      resp ← http_post (ShippingServiceURL +:+ "/start-shipping")
               (shippingReq orderID address);
      match resp with
      | PostError err | ReadError err | BadJSON err =>
          locked (updateStepStatus transactionID "START_SHIPPING" false err);;
          mret (Some err)
      | Envelope shippingResp =>
          if negb (Reply.Success shippingResp) then
            locked (updateStepStatus transactionID "START_SHIPPING" false
                      (Reply.Message shippingResp));;
            mret (Some (Errorf (Reply.Message shippingResp)))
          else
            locked (updateStepStatus transactionID "START_SHIPPING" true "");;
            mret None
      end
  end.

(** The body of the three compensating requests. *)
Definition cancelReq (orderID : string) : list (string * JsonValue) :=
  [("order_id", JString orderID)].

(** The compensations look at the error of [http.Post] only: the response is
    closed unread. *)
Definition cancelOrder (transactionID orderID : string) : Prog unit :=
  locked (addStep transactionID "CANCEL_ORDER");;
  match json_Marshal (cancelReq orderID) with
  | Some err =>
      locked (updateStepStatus transactionID "CANCEL_ORDER" false err)
  | None =>
      resp ← http_post (OrderServiceURL +:+ "/cancel-order")
               (cancelReq orderID);
      match resp with
      | PostError err =>
          locked (updateStepStatus transactionID "CANCEL_ORDER" false err)
      | ReadError _ | BadJSON _ | Envelope _ =>
          locked (updateStepStatus transactionID "CANCEL_ORDER" true "")
      end
  end.

Definition refundPayment (transactionID orderID : string) : Prog unit :=
  locked (addStep transactionID "REFUND_PAYMENT");;
  match json_Marshal (cancelReq orderID) with
  | Some err =>
      locked (updateStepStatus transactionID "REFUND_PAYMENT" false err)
  | None =>
      resp ← http_post (PaymentServiceURL +:+ "/refund-payment")
               (cancelReq orderID);
      match resp with
      | PostError err =>
          locked (updateStepStatus transactionID "REFUND_PAYMENT" false err)
      | ReadError _ | BadJSON _ | Envelope _ =>
          locked (updateStepStatus transactionID "REFUND_PAYMENT" true "")
      end
  end.

Definition cancelShipping (transactionID orderID : string) : Prog unit :=
  locked (addStep transactionID "CANCEL_SHIPPING");;
  match json_Marshal (cancelReq orderID) with
  | Some err =>
      locked (updateStepStatus transactionID "CANCEL_SHIPPING" false err)
  | None =>
      resp ← http_post (ShippingServiceURL +:+ "/cancel-shipping")
               (cancelReq orderID);
      match resp with
      | PostError err =>
          locked (updateStepStatus transactionID "CANCEL_SHIPPING" false err)
      | ReadError _ | BadJSON _ | Envelope _ =>
          locked (updateStepStatus transactionID "CANCEL_SHIPPING" true "")
      end
  end.

(** ** The saga executor *)

Definition executeSaga (transactionID : string) (req : CreateOrderRequest)
    : Prog unit :=
  '(orderID, err) ← createOrder transactionID req;
  match err with
  | Some e =>
      locked (updateTransactionStatus transactionID TransactionStatusFailed
                ("Failed to create order: " +:+ e))
  | None =>
      locked (setOrderID transactionID orderID);;
      err ← processPayment transactionID orderID (Amount req);
      match err with
      | Some e =>
          cancelOrder transactionID orderID;;
          locked (updateTransactionStatus transactionID
                    TransactionStatusFailed
                    ("Failed to process payment: " +:+ e))
      | None =>
          err ← startShipping transactionID orderID (Address req);
          match err with
          | Some e =>
              refundPayment transactionID orderID;;
              cancelOrder transactionID orderID;;
              locked (updateTransactionStatus transactionID
                        TransactionStatusFailed
                        ("Failed to start shipping: " +:+ e))
          | None =>
              locked (updateTransactionStatus transactionID
                        TransactionStatusCompleted "")
          end
      end
  end.

(** ** Handlers *)

(** [createOrderSagaHandler]: the reply, the memory afterwards, and the
    goroutine started by [go executeSaga(transactionID, req)], if any. *)
Definition createOrderSagaHandler (r : HttpRequest) (now : Z) (σ : State)
    : HttpReply * State * option (Prog unit) :=
  if decide (Method r ≠ MethodPost) then
    (http_Error "Method not allowed" StatusMethodNotAllowed, σ, None)
  else
    match Body r with
    | None => (http_Error "Invalid request body" StatusBadRequest, σ, None)
    | Some req =>
        if decide (CustomerID req = "") then
          (http_Error "Customer ID is required" StatusBadRequest, σ, None)
        else if (Amount req <=? 0)%float then
          (http_Error "Amount must be greater than zero" StatusBadRequest,
           σ, None)
        else if decide (Address req = "") then
          (http_Error "Shipping address is required" StatusBadRequest,
           σ, None)
        else
          let transactionID := "TRX-" +:+ pretty (nextID σ) in
          let transaction :=
            {| Transaction.ID := transactionID;
               Transaction.OrderID := "";
               Transaction.CustomerID := CustomerID req;
               Transaction.Amount := Amount req;
               Transaction.Address := Address req;
               Transaction.Status := TransactionStatusPending;
               Transaction.CreatedAt := Some now;
               Transaction.CompletedAt := None;
               Transaction.FailureReason := "";
               Transaction.Steps := emptySlice |} in
          (WriteJSON StatusAccepted
             {| Success := true;
                Message := "Transaction initiated successfully";
                Transaction := transaction |},
           {| transactions :=
                <[transactionID := transaction]> (transactions σ);
              nextID := int_wrap (nextID σ + 1);
              heap := heap σ |},
           Some (executeSaga transactionID req))
    end.

(** [transactionStatusHandler]: reads the map and changes nothing. *)
Definition transactionStatusHandler (r : HttpRequest) (σ : State)
    : HttpReply :=
  if decide (Method r ≠ MethodGet) then
    http_Error "Method not allowed" StatusMethodNotAllowed
  else if decide (transaction_id r = "") then
    http_Error "Transaction ID is required" StatusBadRequest
  else
    match transactions σ !! transaction_id r with
    | None => http_Error "Transaction not found" StatusNotFound
    | Some transaction =>
        WriteJSON StatusOK
          {| Success := true; Message := ""; Transaction := transaction |}
    end.

(** What the JSON encoder writes for a [Transaction] held by value, when it
    runs against heap [h]: the scalar fields and the elements its [Steps]
    header reaches. *)
Definition encode (h : list (list Step.t)) (x : Transaction.t)
    : Transaction.t * list Step.t :=
  (Transaction.set_Steps nilSlice x, elems h (Transaction.Steps x)).

(** ** The running server

    The memory and the saga goroutines started so far, each at its current
    point. A finished goroutine stays in the pool as [Ret tt]. *)
Record System : Type := {
  mem : State;
  pool : list (Prog unit)
}.

Definition boot : System := {| mem := initial; pool := [] |}.

(** What can happen next: a start-saga request is served, a status request is
    served, goroutine [g] runs its next critical section, or the outbound call
    goroutine [g] waits for returns. *)
Inductive Event : Type :=
| ServeCreate (r : HttpRequest) (now : Z)
| ServeStatus (r : HttpRequest)
| Enter (g : nat) (now : Z)
| Receive (g : nat) (res : HttpResult).

(** One transition. An event that does not apply changes nothing. *)
Definition sys_step (s : System) (e : Event) : System :=
  match e with
  | ServeCreate r now =>
      let '(_, σ, spawned) := createOrderSagaHandler r now (mem s) in
      {| mem := σ;
         pool := pool s ++ match spawned with Some p => [p] | None => [] end |}
  | ServeStatus _ => s
  | Enter g now =>
      match pool s !! g with
      | Some (Atomic f k) =>
          {| mem := f now (mem s); pool := <[g := k]> (pool s) |}
      | _ => s
      end
  | Receive g res =>
      match pool s !! g with
      | Some (HttpPost _ _ k) =>
          {| mem := mem s; pool := <[g := k res]> (pool s) |}
      | _ => s
      end
  end.

Definition sys_run (s : System) (events : list Event) : System :=
  foldl sys_step s events.

End Orchestrator.

(** * Properties *)

(** ** Slices and the heap *)

(** A header is usable on a heap: its length is within its capacity, and the
    capacity within the array it points to. *)
Definition slice_ok (h : list (list Step.t)) (s : Slice) : Prop :=
  len s ≤ cap s ∧ cap s ≤ length (array h s).

(** What an operation on the slice [s] of one transaction, ending with header
    [s'], leaves alone: every array other than the one [s] owns, where owning
    needs capacity. A moved header points to a fresh address. *)
Definition heap_frame (h h' : list (list Step.t)) (s s' : Slice) : Prop :=
  length h ≤ length h' ∧
  (∀ b, b < length h → (ptr s = Some b → cap s = 0) → h' !! b = h !! b) ∧
  ((ptr s' = ptr s ∧ cap s' = cap s) ∨ (∃ a, ptr s' = Some a ∧ length h ≤ a)).

Lemma slice_ok_empty h : slice_ok h emptySlice.
Proof. split; simpl; lia. Qed.

Lemma slice_ok_nil h : slice_ok h nilSlice.
Proof. split; simpl; lia. Qed.

Lemma elems_length h s : slice_ok h s → length (elems h s) = len s.
Proof. intros [H1 H2]. unfold elems. rewrite length_take. lia. Qed.

Lemma array_lookup h s a :
  ptr s = Some a → 0 < length (array h s) → h !! a = Some (array h s).
Proof.
  unfold array. intros ->. destruct (h !! a) as [arr|]; simpl; [done|lia].
Qed.

Lemma heap_frame_refl h s : heap_frame h h s s.
Proof. repeat split; auto. Qed.

Section SliceFacts.
Variable growslice : nat → nat → nat.

Lemma append_spec h s x h' s' :
  slice_ok h s →
  append growslice h s x = (h', s') →
  slice_ok h' s' ∧ elems h' s' = elems h s ++ [x] ∧ len s' = S (len s) ∧
  heap_frame h h' s s'.
Proof.
  intros Hok Happ. pose proof (elems_length _ _ Hok) as Hlen.
  destruct Hok as [Hlc Hca]. unfold append in Happ.
  assert (Halloc : ∀ c, c = Nat.max (S (len s)) (growslice (cap s) (S (len s))) →
    (h ++ [elems h s ++ x :: replicate (c - S (len s)) Step.zero],
     {| ptr := Some (length h); len := S (len s); cap := c |}) = (h', s') →
    slice_ok h' s' ∧ elems h' s' = elems h s ++ [x] ∧ len s' = S (len s) ∧
    heap_frame h h' s s').
  { intros c Hc [= <- <-].
    assert (Harr : array (h ++ [elems h s ++ x :: replicate (c - S (len s)) Step.zero])
                     {| ptr := Some (length h); len := S (len s); cap := c |}
                   = elems h s ++ x :: replicate (c - S (len s)) Step.zero).
    { unfold array; simpl. by rewrite list_lookup_middle. }
    split; [|split; [|split]].
    - split; simpl; [lia|]. rewrite Harr, length_app; simpl.
      rewrite length_replicate. lia.
    - unfold elems at 1. rewrite Harr. simpl len.
      rewrite (take_app_ge (elems h s)) by lia.
      rewrite Hlen. replace (S (len s) - len s) with 1 by lia. done.
    - done.
    - split; [rewrite length_app; simpl; lia|]. split.
      + intros b Hb _. by rewrite lookup_app_l.
      + right. eexists; split; [done|]. simpl. lia. }
  destruct (ptr s) as [a|] eqn:Hp; [|by eapply Halloc].
  destruct (len s <? cap s) eqn:Hlt; [|by eapply Halloc].
  apply Nat.ltb_lt in Hlt. injection Happ as <- <-.
  assert (Ha : h !! a = Some (array h s)) by (apply array_lookup; [done|lia]).
  assert (Harr : array (<[a:=<[len s:=x]> (array h s)]> h)
                   {| ptr := Some a; len := S (len s); cap := cap s |}
                 = <[len s:=x]> (array h s)).
  { unfold array at 1; simpl. rewrite list_lookup_insert_eq; [done|].
    by eapply lookup_lt_Some. }
  split; [|split; [|split]].
  - split; simpl; [lia|]. rewrite Harr, length_insert. lia.
  - unfold elems at 1. rewrite Harr. simpl len.
    erewrite take_S_r; [|apply list_lookup_insert_eq; lia].
    by rewrite take_insert_ge by lia.
  - done.
  - split; [by rewrite length_insert|]. split.
    + intros b Hb Hown. apply list_lookup_insert_ne. intros ->.
      specialize (Hown Hp). lia.
    + left. by rewrite Hp.
Qed.

End SliceFacts.

Lemma modify_at_spec h s i f :
  slice_ok h s → i < len s →
  slice_ok (modify_at h s i f) s ∧
  elems (modify_at h s i f) s = alter f i (elems h s) ∧
  heap_frame h (modify_at h s i f) s s.
Proof.
  intros [Hlc Hca] Hi. unfold modify_at.
  destruct (ptr s) as [a|] eqn:Hp.
  2:{ unfold array in Hca. rewrite Hp in Hca. simpl in Hca. lia. }
  assert (Ha : h !! a = Some (array h s)) by (apply array_lookup; [done|lia]).
  assert (Harr : array (<[a:=alter f i (array h s)]> h) s
                 = alter f i (array h s)).
  { unfold array at 1. rewrite Hp. rewrite list_lookup_insert_eq; [done|].
    by eapply lookup_lt_Some. }
  split; [|split].
  - split; [done|]. rewrite Harr, length_alter. done.
  - unfold elems. rewrite Harr. by rewrite take_alter_lt by lia.
  - split; [by rewrite length_insert|]. split.
    + intros b Hb Hown. apply list_lookup_insert_ne. intros ->.
      specialize (Hown Hp). lia.
    + by left.
Qed.

(** ** The four critical sections, on a transaction present in the map *)

(** The step [addStep] appends. *)
Definition begin_step (stepName : string) (now : Z) : Step.t :=
  {| Step.Name := stepName;
     Step.Status := TransactionStatusPending;
     Step.StartedAt := Some now;
     Step.EndedAt := None;
     Step.Error := "" |}.

(** The loop of [updateStepStatus] on the elements of the slice. *)
Definition end_step (stepName : string) (success : bool) (errorMsg : string)
    (now : Z) (l : list Step.t) : list Step.t :=
  match list_find (λ step, Step.Name step = stepName) l with
  | Some (i, _) => alter (conclude success errorMsg now) i l
  | None => l
  end.

(** A critical section that rewrites the entry of [tid] from [x] to [x'] and
    keeps to the arrays of [x]. *)
Definition step_on (tid : string) (σ σ' : State) (x x' : Transaction.t)
    : Prop :=
  transactions σ' = <[tid := x']> (transactions σ) ∧
  nextID σ' = nextID σ ∧
  slice_ok (heap σ') (Transaction.Steps x') ∧
  heap_frame (heap σ) (heap σ') (Transaction.Steps x) (Transaction.Steps x').

Section Ledger.
Variable growslice : nat → nat → nat.

Lemma addStep_spec σ tid name now x :
  transactions σ !! tid = Some x →
  slice_ok (heap σ) (Transaction.Steps x) →
  ∃ s', step_on tid σ (addStep growslice tid name now σ) x
          (Transaction.set_Steps s' x) ∧
        elems (heap (addStep growslice tid name now σ)) s'
        = elems (heap σ) (Transaction.Steps x) ++ [begin_step name now].
Proof.
  intros Hx Hok. unfold addStep. rewrite Hx.
  destruct (append growslice (heap σ) (Transaction.Steps x)
              {| Step.Name := name; Step.Status := TransactionStatusPending;
                 Step.StartedAt := Some now; Step.EndedAt := None;
                 Step.Error := "" |}) as [h' s'] eqn:Happ.
  destruct (append_spec _ _ _ _ _ _ Hok Happ) as (Hok' & Hel & _ & Hfr).
  exists s'. split; [|exact Hel]. unfold step_on; simpl. by split_and!.
Qed.

Lemma updateStepStatus_spec σ tid name success err now x :
  transactions σ !! tid = Some x →
  slice_ok (heap σ) (Transaction.Steps x) →
  step_on tid σ (updateStepStatus tid name success err now σ) x x ∧
  elems (heap (updateStepStatus tid name success err now σ))
    (Transaction.Steps x)
  = end_step name success err now (elems (heap σ) (Transaction.Steps x)).
Proof.
  intros Hx Hok. unfold updateStepStatus, end_step. rewrite Hx. simpl.
  destruct (list_find _ _) as [[i st]|] eqn:Hfind.
  - apply list_find_Some in Hfind as (Hi & _ & _).
    apply lookup_lt_Some in Hi. rewrite elems_length in Hi by done.
    destruct (modify_at_spec (heap σ) _ i (conclude success err now) Hok Hi)
      as (Hok' & Hel & Hfr).
    split; [|done]. unfold step_on; simpl. by split_and!.
  - split; [|done]. unfold step_on; simpl.
    split_and!; try done. apply heap_frame_refl.
Qed.

Lemma updateTransactionStatus_spec σ tid status reason now x :
  transactions σ !! tid = Some x →
  slice_ok (heap σ) (Transaction.Steps x) →
  ∃ x', step_on tid σ (updateTransactionStatus tid status reason now σ) x x' ∧
        heap (updateTransactionStatus tid status reason now σ) = heap σ ∧
        Transaction.Steps x' = Transaction.Steps x ∧
        x' = (if decide (status = TransactionStatusCompleted) then
                Transaction.set_CompletedAt (Some now)
                  (Transaction.set_Status status x)
              else if decide (status = TransactionStatusFailed) then
                Transaction.set_CompletedAt (Some now)
                  (Transaction.set_FailureReason reason
                     (Transaction.set_Status status x))
              else Transaction.set_Status status x).
Proof.
  intros Hx Hok. unfold updateTransactionStatus. rewrite Hx.
  match goal with |- ∃ x', _ ∧ _ ∧ _ ∧ x' = ?e => set (y := e) end.
  assert (Hs : Transaction.Steps y = Transaction.Steps x)
    by (unfold y; by repeat case_decide).
  exists y. unfold step_on; simpl. rewrite Hs.
  split_and!; try done. apply heap_frame_refl.
Qed.

Lemma setOrderID_spec σ tid oid now x :
  transactions σ !! tid = Some x →
  slice_ok (heap σ) (Transaction.Steps x) →
  step_on tid σ (setOrderID tid oid now σ) x (Transaction.set_OrderID oid x) ∧
  heap (setOrderID tid oid now σ) = heap σ.
Proof.
  intros Hx Hok. unfold setOrderID. rewrite Hx. simpl.
  split; [|done]. unfold step_on; simpl.
  split_and!; try done. apply heap_frame_refl.
Qed.

End Ledger.

(** ** The ledger of one transaction along a run *)

(** [tracks σ tid x l]: in [σ] the entry of [tid] has the scalar fields of [x]
    and a usable [Steps] header whose elements are [l]. *)
Definition tracks (σ : State) (tid : string) (x : Transaction.t)
    (l : list Step.t) : Prop :=
  ∃ s, transactions σ !! tid = Some (Transaction.set_Steps s x) ∧
       slice_ok (heap σ) s ∧ elems (heap σ) s = l.

Lemma end_step_fresh name success err now l st :
  Forall (λ s, Step.Name s ≠ name) l → Step.Name st = name →
  end_step name success err now (l ++ [st])
  = l ++ [conclude success err now st].
Proof.
  intros Hl Hst. unfold end_step.
  assert (Hfind : list_find (λ step, Step.Name step = name) (l ++ [st])
                  = Some (length l, st)).
  { apply list_find_Some. split; [by rewrite list_lookup_middle|].
    split; [done|]. intros j y Hj Hlt.
    rewrite lookup_app_l in Hj by done.
    rewrite Forall_forall in Hl. apply Hl.
    by eapply list_elem_of_lookup_2. }
  rewrite Hfind. rewrite alter_app_r_alt by lia.
  by replace (length l - length l) with 0 by lia.
Qed.

Section Tracking.
Variable growslice : nat → nat → nat.

Lemma tracks_addStep σ tid x l name now :
  tracks σ tid x l →
  tracks (addStep growslice tid name now σ) tid x (l ++ [begin_step name now]).
Proof.
  intros (s & Hx & Hok & <-).
  destruct (addStep_spec growslice σ tid name now _ Hx Hok)
    as (s' & (Htr & _ & Hok' & _) & Hel).
  exists s'. rewrite Htr, lookup_insert_eq. by split_and!.
Qed.

Lemma tracks_updateStepStatus σ tid x l name success err now :
  tracks σ tid x l →
  tracks (updateStepStatus tid name success err now σ) tid x
    (end_step name success err now l).
Proof.
  intros (s & Hx & Hok & <-).
  destruct (updateStepStatus_spec σ tid name success err now _ Hx Hok)
    as ((Htr & _ & Hok' & _) & Hel).
  exists s. rewrite Htr, lookup_insert_eq. by split_and!.
Qed.

(** One bracketed attempt: [addStep] then [updateStepStatus] under a name the
    ledger does not hold yet. *)
Lemma tracks_bracket σ tid x l name success err t0 t1 :
  tracks σ tid x l →
  Forall (λ s, Step.Name s ≠ name) l →
  tracks (updateStepStatus tid name success err t1
            (addStep growslice tid name t0 σ)) tid x
    (l ++ [conclude success err t1 (begin_step name t0)]).
Proof.
  intros Ht Hl. rewrite <- (end_step_fresh name success err t1 l) by done.
  by apply tracks_updateStepStatus, tracks_addStep.
Qed.

Lemma tracks_setOrderID σ tid x l oid now :
  tracks σ tid x l →
  tracks (setOrderID tid oid now σ) tid (Transaction.set_OrderID oid x) l.
Proof.
  intros (s & Hx & Hok & <-).
  destruct (setOrderID_spec σ tid oid now _ Hx Hok)
    as ((Htr & _ & Hok' & _) & Hh).
  exists s. rewrite Htr, lookup_insert_eq, Hh. by split_and!.
Qed.

Lemma tracks_updateTransactionStatus σ tid x l status reason now :
  tracks σ tid x l →
  tracks (updateTransactionStatus tid status reason now σ) tid
    (if decide (status = TransactionStatusCompleted) then
       Transaction.set_CompletedAt (Some now)
         (Transaction.set_Status status x)
     else if decide (status = TransactionStatusFailed) then
       Transaction.set_CompletedAt (Some now)
         (Transaction.set_FailureReason reason
            (Transaction.set_Status status x))
     else Transaction.set_Status status x) l.
Proof.
  intros (s & Hx & Hok & <-).
  destruct (updateTransactionStatus_spec σ tid status reason now _ Hx Hok)
    as (x' & (Htr & _ & Hok' & _) & Hh & Hs & ->).
  exists s. rewrite Htr, lookup_insert_eq, Hh. split_and!; try done.
  by repeat case_decide.
Qed.

End Tracking.

(** ** Sequential runs *)

Lemma run_bind {A B : Type} w (m : Prog A) (k : A → Prog B) c :
  run w (m ≫= k) c = run w (k (run w m c).1) (run w m c).2.
Proof.
  change (m ≫= k) with (bind m k). revert c.
  induction m as [a|f m IH|url body m IH]; intros c; simpl; auto.
Qed.

Lemma run_locked w f c :
  run w (locked f) c
  = (tt, {| state := f (time_Now w (ticks c)) (state c);
            ticks := S (ticks c);
            calls := calls c |}).
Proof. done. Qed.

Lemma run_http_post w url body c :
  run w (http_post url body) c
  = (http_Post w url body,
     {| state := state c; ticks := ticks c;
        calls := calls c ++ [(url, body)] |}).
Proof. done. Qed.

Lemma run_mret {A : Type} w (a : A) c : run w (mret a) c = (a, c).
Proof. done. Qed.

(** A run from program start. *)
Definition start (σ : State) : Config :=
  {| state := σ; ticks := 0; calls := [] |}.

(** What a function returns in world [w]. Control never reads the memory, so
    the value is that of any run. *)
Definition returned {A : Type} (w : World) (p : Prog A) : A :=
  (run w p (start initial)).1.

Lemma run_fst {A : Type} w (p : Prog A) c : (run w p c).1 = returned w p.
Proof.
  unfold returned. generalize (start initial). revert c.
  induction p as [a|f m IH|url body m IH]; intros c c'; simpl; auto.
Qed.

(** The ledger entry of a concluded attempt. *)
Definition attempt (stepName : string) (success : bool) (err : string)
    (t0 t1 : Z) : Step.t :=
  conclude success err t1 (begin_step stepName t0).

Lemma attempt_status name success err t0 t1 :
  Step.Name (attempt name success err t0 t1) = name ∧
  Step.Status (attempt name success err t0 t1)
  = (if success then TransactionStatusCompleted else TransactionStatusFailed) ∧
  Step.EndedAt (attempt name success err t0 t1) = Some t1 ∧
  Step.Error (attempt name success err t0 t1) = (if success then "" else err).
Proof. by destruct success. Qed.

Section Runs.
Variable growslice : nat → nat → nat.
Variable Errorf : string → string.

Ltac run_simpl :=
  repeat first
    [ rewrite run_bind | rewrite run_locked | rewrite run_http_post
    | rewrite run_mret ];
  cbn [fst snd state ticks calls].

Lemma createOrder_run w tid req c x l :
  tracks (state c) tid x l →
  Forall (λ s, Step.Name s ≠ "CREATE_ORDER") l →
  ∃ success err,
    let r := run w (createOrder growslice Errorf tid req) c in
    tracks (state r.2) tid x
      (l ++ [attempt "CREATE_ORDER" success err
               (time_Now w (ticks c)) (time_Now w (S (ticks c)))]) ∧
    ticks r.2 = S (S (ticks c)) ∧
    (calls r.2 = calls c ++ [(OrderServiceURL +:+ "/create-order", orderReq req)]
     ∨ success = false ∧ calls r.2 = calls c) ∧
    (if success then r.1.2 = None else ∃ e, r.1 = ("", Some e)).
Proof.
  intros Ht Hl. unfold createOrder.
  destruct (json_Marshal (orderReq req)) as [e|] eqn:Hm.
  { exists false, e. run_simpl. split_and!; eauto.
    by apply tracks_bracket. }
  destruct (http_Post w (OrderServiceURL +:+ "/create-order") (orderReq req))
    as [e|e|e|resp] eqn:Hp.
  1-3: exists false, e; run_simpl; rewrite Hp; run_simpl;
       split_and!; eauto; by apply tracks_bracket.
  destruct (Reply.Success resp) eqn:Hs.
  - exists true, "". run_simpl. rewrite Hp, Hs. run_simpl.
    split_and!; eauto. by apply tracks_bracket.
  - exists false, (Reply.Message resp). run_simpl. rewrite Hp, Hs. run_simpl.
    split_and!; eauto. by apply tracks_bracket.
Qed.

Lemma processPayment_run w tid oid amount c x l :
  tracks (state c) tid x l →
  Forall (λ s, Step.Name s ≠ "PROCESS_PAYMENT") l →
  ∃ success err,
    let r := run w (processPayment growslice Errorf tid oid amount) c in
    tracks (state r.2) tid x
      (l ++ [attempt "PROCESS_PAYMENT" success err
               (time_Now w (ticks c)) (time_Now w (S (ticks c)))]) ∧
    ticks r.2 = S (S (ticks c)) ∧
    (calls r.2 = calls c ++ [(PaymentServiceURL +:+ "/process-payment",
                              paymentReq oid amount)]
     ∨ success = false ∧ calls r.2 = calls c) ∧
    (if success then r.1 = None else ∃ e, r.1 = Some e).
Proof.
  intros Ht Hl. unfold processPayment.
  destruct (json_Marshal (paymentReq oid amount)) as [e|] eqn:Hm.
  { exists false, e. run_simpl. split_and!; eauto.
    by apply tracks_bracket. }
  destruct (http_Post w (PaymentServiceURL +:+ "/process-payment")
              (paymentReq oid amount)) as [e|e|e|resp] eqn:Hp.
  1-3: exists false, e; run_simpl; rewrite Hp; run_simpl;
       split_and!; eauto; by apply tracks_bracket.
  destruct (Reply.Success resp) eqn:Hs.
  - exists true, "". run_simpl. rewrite Hp, Hs. run_simpl.
    split_and!; eauto. by apply tracks_bracket.
  - exists false, (Reply.Message resp). run_simpl. rewrite Hp, Hs. run_simpl.
    split_and!; eauto. by apply tracks_bracket.
Qed.

(** Bodies made of strings always encode. *)
Lemma shippingReq_marshals oid address :
  json_Marshal (shippingReq oid address) = None.
Proof. done. Qed.

Lemma cancelReq_marshals oid : json_Marshal (cancelReq oid) = None.
Proof. done. Qed.

Lemma startShipping_run w tid oid address c x l :
  tracks (state c) tid x l →
  Forall (λ s, Step.Name s ≠ "START_SHIPPING") l →
  ∃ success err,
    let r := run w (startShipping growslice Errorf tid oid address) c in
    tracks (state r.2) tid x
      (l ++ [attempt "START_SHIPPING" success err
               (time_Now w (ticks c)) (time_Now w (S (ticks c)))]) ∧
    ticks r.2 = S (S (ticks c)) ∧
    calls r.2 = calls c ++ [(ShippingServiceURL +:+ "/start-shipping",
                             shippingReq oid address)] ∧
    (if success then r.1 = None else ∃ e, r.1 = Some e).
Proof.
  intros Ht Hl. unfold startShipping. rewrite shippingReq_marshals.
  destruct (http_Post w (ShippingServiceURL +:+ "/start-shipping")
              (shippingReq oid address)) as [e|e|e|resp] eqn:Hp.
  1-3: exists false, e; run_simpl; rewrite Hp; run_simpl;
       split_and!; eauto; by apply tracks_bracket.
  destruct (Reply.Success resp) eqn:Hs.
  - exists true, "". run_simpl. rewrite Hp, Hs. run_simpl.
    split_and!; eauto. by apply tracks_bracket.
  - exists false, (Reply.Message resp). run_simpl. rewrite Hp, Hs. run_simpl.
    split_and!; eauto. by apply tracks_bracket.
Qed.

(** A compensation is concluded as failed exactly when [http.Post] itself
    returns an error. *)
Definition post_failed (res : HttpResult) : bool :=
  match res with
  | PostError _ => true
  | _ => false
  end.

Lemma cancelOrder_run w tid oid c x l :
  tracks (state c) tid x l →
  Forall (λ s, Step.Name s ≠ "CANCEL_ORDER") l →
  ∃ err,
    let r := run w (cancelOrder growslice tid oid) c in
    let success :=
      negb (post_failed (http_Post w (OrderServiceURL +:+ "/cancel-order")
                           (cancelReq oid))) in
    tracks (state r.2) tid x
      (l ++ [attempt "CANCEL_ORDER" success err
               (time_Now w (ticks c)) (time_Now w (S (ticks c)))]) ∧
    ticks r.2 = S (S (ticks c)) ∧
    calls r.2 = calls c ++ [(OrderServiceURL +:+ "/cancel-order",
                             cancelReq oid)].
Proof.
  intros Ht Hl. unfold cancelOrder. rewrite cancelReq_marshals.
  destruct (http_Post w (OrderServiceURL +:+ "/cancel-order") (cancelReq oid))
    as [e|e|e|resp] eqn:Hp.
  1: exists e. 2-4: exists "".
  all: run_simpl; rewrite Hp; run_simpl; split_and!; eauto;
       by apply tracks_bracket.
Qed.

Lemma refundPayment_run w tid oid c x l :
  tracks (state c) tid x l →
  Forall (λ s, Step.Name s ≠ "REFUND_PAYMENT") l →
  ∃ err,
    let r := run w (refundPayment growslice tid oid) c in
    let success :=
      negb (post_failed (http_Post w (PaymentServiceURL +:+ "/refund-payment")
                           (cancelReq oid))) in
    tracks (state r.2) tid x
      (l ++ [attempt "REFUND_PAYMENT" success err
               (time_Now w (ticks c)) (time_Now w (S (ticks c)))]) ∧
    ticks r.2 = S (S (ticks c)) ∧
    calls r.2 = calls c ++ [(PaymentServiceURL +:+ "/refund-payment",
                             cancelReq oid)].
Proof.
  intros Ht Hl. unfold refundPayment. rewrite cancelReq_marshals.
  destruct (http_Post w (PaymentServiceURL +:+ "/refund-payment")
              (cancelReq oid)) as [e|e|e|resp] eqn:Hp.
  1: exists e. 2-4: exists "".
  all: run_simpl; rewrite Hp; run_simpl; split_and!; eauto;
       by apply tracks_bracket.
Qed.


(** The visible outline of a ledger: names and statuses, in order. *)
Definition outline (l : list Step.t) : list (string * string) :=
  map (λ st, (Step.Name st, Step.Status st)) l.

Definition complete_at (now : Z) (x : Transaction.t) : Transaction.t :=
  Transaction.set_CompletedAt (Some now)
    (Transaction.set_Status TransactionStatusCompleted x).

Definition fail_with (reason : string) (now : Z) (x : Transaction.t)
    : Transaction.t :=
  Transaction.set_CompletedAt (Some now)
    (Transaction.set_FailureReason reason
       (Transaction.set_Status TransactionStatusFailed x)).

Lemma tracks_complete σ tid x l now :
  tracks σ tid x l →
  tracks (updateTransactionStatus tid TransactionStatusCompleted "" now σ)
    tid (complete_at now x) l.
Proof.
  intros Ht.
  apply (tracks_updateTransactionStatus σ tid x l TransactionStatusCompleted
           "" now) in Ht.
  by rewrite decide_True in Ht.
Qed.

Lemma tracks_fail σ tid x l reason now :
  tracks σ tid x l →
  tracks (updateTransactionStatus tid TransactionStatusFailed reason now σ)
    tid (fail_with reason now x) l.
Proof.
  intros Ht.
  apply (tracks_updateTransactionStatus σ tid x l TransactionStatusFailed
           reason now) in Ht.
  rewrite decide_False, decide_True in Ht; done.
Qed.

Lemma attempt_name name success err t0 t1 :
  Step.Name (attempt name success err t0 t1) = name.
Proof. by destruct success. Qed.

Ltac fresh_names :=
  simpl; repeat (apply Forall_cons; split);
  rewrite ?attempt_name; try done; apply Forall_nil.

Lemma saga_succeeds w tid req c x :
  tracks (state c) tid x [] →
  let oid := (returned w (createOrder growslice Errorf tid req)).1 in
  (returned w (createOrder growslice Errorf tid req)).2 = None →
  returned w (processPayment growslice Errorf tid oid (Amount req)) = None →
  returned w (startShipping growslice Errorf tid oid (Address req)) = None →
  ∃ l t,
    let c' := (run w (executeSaga growslice Errorf tid req) c).2 in
    tracks (state c') tid (complete_at t (Transaction.set_OrderID oid x)) l ∧
    outline l = [("CREATE_ORDER", TransactionStatusCompleted);
                 ("PROCESS_PAYMENT", TransactionStatusCompleted);
                 ("START_SHIPPING", TransactionStatusCompleted)] ∧
    Forall (λ st, Step.EndedAt st ≠ None ∧ Step.Error st = "") l ∧
    calls c' = calls c ++
      [(OrderServiceURL +:+ "/create-order", orderReq req);
       (PaymentServiceURL +:+ "/process-payment", paymentReq oid (Amount req));
       (ShippingServiceURL +:+ "/start-shipping",
        shippingReq oid (Address req))].
Proof.
  intros Ht oid H1 H2 H3. unfold executeSaga.
  destruct (createOrder_run w tid req c x [] Ht) as (ok1 & err1 & Hc);
    [by constructor|].
  cbv zeta in Hc. destruct Hc as (Ht1 & Htk1 & Hc1 & Hr1).
  rewrite run_bind.
  pose proof (run_fst w (createOrder growslice Errorf tid req) c) as Hf1.
  destruct (run w (createOrder growslice Errorf tid req) c)
    as [[oid' e1] c1] eqn:Hrun1.
  cbn [fst snd] in *. rewrite <- Hf1 in H1. cbn [snd] in H1. subst e1.
  assert (oid' = oid) as -> by (unfold oid; by rewrite <- Hf1).
  destruct ok1; [|by destruct Hr1]. clear Hr1 Hf1.
  destruct Hc1 as [Hc1|[? _]]; [|done].
  rewrite run_bind, run_locked. cbn [fst snd].
  set (c1' := {| state := setOrderID tid oid (time_Now w (ticks c1)) (state c1);
                 ticks := S (ticks c1); calls := calls c1 |}).
  assert (Ht1' : tracks (state c1') tid (Transaction.set_OrderID oid x)
                   ([] ++ [attempt "CREATE_ORDER" true err1 (time_Now w (ticks c))
                             (time_Now w (S (ticks c)))]))
    by (by apply tracks_setOrderID).
  destruct (processPayment_run w tid oid (Amount req) c1' _ _ Ht1')
    as (ok2 & err2 & Hc); [fresh_names|].
  cbv zeta in Hc. destruct Hc as (Ht2 & Htk2 & Hc2 & Hr2).
  rewrite run_bind. rewrite run_fst, H2 in Hr2 |- *.
  destruct ok2; [|by destruct Hr2]. clear Hr2.
  destruct Hc2 as [Hc2|[? _]]; [|done].
  set (c2 := (run w (processPayment growslice Errorf tid oid (Amount req)) c1').2)
    in *.
  destruct (startShipping_run w tid oid (Address req) c2 _ _ Ht2)
    as (ok3 & err3 & Hc); [fresh_names|].
  cbv zeta in Hc. destruct Hc as (Ht3 & Htk3 & Hc3 & Hr3).
  rewrite run_bind. rewrite run_fst, H3 in Hr3 |- *.
  destruct ok3; [|by destruct Hr3]. clear Hr3.
  set (c3 := (run w (startShipping growslice Errorf tid oid (Address req)) c2).2)
    in *.
  rewrite run_locked. cbn [fst snd state calls].
  eexists _, _. split; [by apply tracks_complete|].
  split; [done|]. split.
  - repeat constructor; done.
  - rewrite Hc3, Hc2. subst c1'. cbn [calls]. rewrite Hc1.
    by rewrite <- !app_assoc.
Qed.

Lemma saga_create_fails w tid req c x e :
  tracks (state c) tid x [] →
  (returned w (createOrder growslice Errorf tid req)).2 = Some e →
  ∃ err t0 t1 t,
    let c' := (run w (executeSaga growslice Errorf tid req) c).2 in
    tracks (state c') tid (fail_with ("Failed to create order: " +:+ e) t x)
      [attempt "CREATE_ORDER" false err t0 t1] ∧
    (calls c' = calls c ∨
     calls c' = calls c ++
       [(OrderServiceURL +:+ "/create-order", orderReq req)]).
Proof.
  intros Ht H1. unfold executeSaga.
  destruct (createOrder_run w tid req c x [] Ht) as (ok1 & err1 & Hc);
    [by constructor|].
  cbv zeta in Hc. destruct Hc as (Ht1 & Htk1 & Hc1 & Hr1).
  rewrite run_bind.
  pose proof (run_fst w (createOrder growslice Errorf tid req) c) as Hf1.
  destruct (run w (createOrder growslice Errorf tid req) c)
    as [[oid' e1] c1] eqn:Hrun1.
  cbn [fst snd] in *. rewrite <- Hf1 in H1. cbn [snd] in H1. subst e1.
  destruct ok1; [done|]. clear Hr1 Hf1.
  rewrite run_locked. cbn [fst snd state calls].
  eexists _, _, _, _. split; [by apply tracks_fail|].
  destruct Hc1 as [Hc1|[_ Hc1]]; auto.
Qed.

Lemma saga_shipping_fails w tid req c x e :
  tracks (state c) tid x [] →
  let oid := (returned w (createOrder growslice Errorf tid req)).1 in
  (returned w (createOrder growslice Errorf tid req)).2 = None →
  returned w (processPayment growslice Errorf tid oid (Amount req)) = None →
  returned w (startShipping growslice Errorf tid oid (Address req)) = Some e →
  ∃ l t,
    let c' := (run w (executeSaga growslice Errorf tid req) c).2 in
    let refunded :=
      negb (post_failed (http_Post w (PaymentServiceURL +:+ "/refund-payment")
                           (cancelReq oid))) in
    let cancelled :=
      negb (post_failed (http_Post w (OrderServiceURL +:+ "/cancel-order")
                           (cancelReq oid))) in
    tracks (state c') tid
      (fail_with ("Failed to start shipping: " +:+ e) t
         (Transaction.set_OrderID oid x)) l ∧
    outline l =
      [("CREATE_ORDER", TransactionStatusCompleted);
       ("PROCESS_PAYMENT", TransactionStatusCompleted);
       ("START_SHIPPING", TransactionStatusFailed);
       ("REFUND_PAYMENT",
        if refunded then TransactionStatusCompleted
        else TransactionStatusFailed);
       ("CANCEL_ORDER",
        if cancelled then TransactionStatusCompleted
        else TransactionStatusFailed)] ∧
    Forall (λ st, Step.EndedAt st ≠ None) l ∧
    calls c' = calls c ++
      [(OrderServiceURL +:+ "/create-order", orderReq req);
       (PaymentServiceURL +:+ "/process-payment", paymentReq oid (Amount req));
       (ShippingServiceURL +:+ "/start-shipping",
        shippingReq oid (Address req));
       (PaymentServiceURL +:+ "/refund-payment", cancelReq oid);
       (OrderServiceURL +:+ "/cancel-order", cancelReq oid)].
Proof.
  intros Ht oid H1 H2 H3. unfold executeSaga.
  destruct (createOrder_run w tid req c x [] Ht) as (ok1 & err1 & Hc);
    [by constructor|].
  cbv zeta in Hc. destruct Hc as (Ht1 & Htk1 & Hc1 & Hr1).
  rewrite run_bind.
  pose proof (run_fst w (createOrder growslice Errorf tid req) c) as Hf1.
  destruct (run w (createOrder growslice Errorf tid req) c)
    as [[oid' e1] c1] eqn:Hrun1.
  cbn [fst snd] in *. rewrite <- Hf1 in H1. cbn [snd] in H1. subst e1.
  assert (oid' = oid) as -> by (unfold oid; by rewrite <- Hf1).
  destruct ok1; [|by destruct Hr1]. clear Hr1 Hf1.
  destruct Hc1 as [Hc1|[? _]]; [|done].
  rewrite run_bind, run_locked. cbn [fst snd].
  set (c1' := {| state := setOrderID tid oid (time_Now w (ticks c1)) (state c1);
                 ticks := S (ticks c1); calls := calls c1 |}).
  assert (Ht1' : tracks (state c1') tid (Transaction.set_OrderID oid x)
                   ([] ++ [attempt "CREATE_ORDER" true err1 (time_Now w (ticks c))
                             (time_Now w (S (ticks c)))]))
    by (by apply tracks_setOrderID).
  destruct (processPayment_run w tid oid (Amount req) c1' _ _ Ht1')
    as (ok2 & err2 & Hc); [fresh_names|].
  cbv zeta in Hc. destruct Hc as (Ht2 & Htk2 & Hc2 & Hr2).
  rewrite run_bind. rewrite run_fst, H2 in Hr2 |- *.
  destruct ok2; [|by destruct Hr2]. clear Hr2.
  destruct Hc2 as [Hc2|[? _]]; [|done].
  set (c2 := (run w (processPayment growslice Errorf tid oid (Amount req)) c1').2)
    in *.
  destruct (startShipping_run w tid oid (Address req) c2 _ _ Ht2)
    as (ok3 & err3 & Hc); [fresh_names|].
  cbv zeta in Hc. destruct Hc as (Ht3 & Htk3 & Hc3 & Hr3).
  rewrite run_bind. rewrite run_fst, H3 in Hr3 |- *.
  destruct ok3; [done|]. clear Hr3.
  set (c3 := (run w (startShipping growslice Errorf tid oid (Address req)) c2).2)
    in *.
  destruct (refundPayment_run w tid oid c3 _ _ Ht3) as (err4 & Hc);
    [fresh_names|].
  cbv zeta in Hc. destruct Hc as (Ht4 & Htk4 & Hc4).
  rewrite run_bind.
  set (c4 := (run w (refundPayment growslice tid oid) c3).2) in *.
  destruct (cancelOrder_run w tid oid c4 _ _ Ht4) as (err5 & Hc);
    [fresh_names|].
  cbv zeta in Hc. destruct Hc as (Ht5 & Htk5 & Hc5).
  rewrite run_bind.
  set (c5 := (run w (cancelOrder growslice tid oid) c4).2) in *.
  rewrite run_locked. cbn [fst snd state calls].
  eexists _, _. split; [by apply tracks_fail|].
  split; [|split].
  - by do 2 destruct (post_failed _).
  - repeat constructor; by rewrite (proj1 (proj2 (proj2 (attempt_status _ _ _ _ _)))).
  - rewrite Hc5, Hc4, Hc3, Hc2. subst c1'. cbn [calls]. rewrite Hc1.
    by rewrite <- !app_assoc.
Qed.

End Runs.

(** ** The start-saga handler *)

(** A request body that passes the three validation checks. *)
Definition valid (req : CreateOrderRequest) : Prop :=
  CustomerID req ≠ "" ∧ (Amount req <=? 0)%float = false ∧ Address req ≠ "".

(** The [Transaction] literal of the handler. *)
Definition new_transaction (tid : string) (req : CreateOrderRequest) (now : Z)
    : Transaction.t :=
  {| Transaction.ID := tid;
     Transaction.OrderID := "";
     Transaction.CustomerID := CustomerID req;
     Transaction.Amount := Amount req;
     Transaction.Address := Address req;
     Transaction.Status := TransactionStatusPending;
     Transaction.CreatedAt := Some now;
     Transaction.CompletedAt := None;
     Transaction.FailureReason := "";
     Transaction.Steps := emptySlice |}.

(** The id the handler assigns in memory [σ]. *)
Definition next_transaction_id (σ : State) : string :=
  "TRX-" +:+ pretty (nextID σ).

Section Handler.
Variable growslice : nat → nat → nat.
Variable Errorf : string → string.

Lemma handler_accepts r now σ req :
  Method r = MethodPost → Body r = Some req → valid req →
  createOrderSagaHandler growslice Errorf r now σ
  = (WriteJSON StatusAccepted
       {| Success := true;
          Message := "Transaction initiated successfully";
          Transaction := new_transaction (next_transaction_id σ) req now |},
     {| transactions :=
          <[next_transaction_id σ :=
              new_transaction (next_transaction_id σ) req now]>
            (transactions σ);
        nextID := int_wrap (nextID σ + 1);
        heap := heap σ |},
     Some (executeSaga growslice Errorf (next_transaction_id σ) req)).
Proof.
  intros Hm Hb (Hc & Ha & Had). unfold createOrderSagaHandler.
  rewrite decide_False by (by intros []).
  rewrite Hb, decide_False by done. rewrite Ha. by rewrite decide_False.
Qed.

Lemma handler_rejects r now σ :
  (∀ req, Method r = MethodPost → Body r = Some req → ¬ valid req) →
  ∃ msg code,
    createOrderSagaHandler growslice Errorf r now σ
    = (http_Error msg code, σ, None) ∧
    (Method r = MethodPost → code = StatusBadRequest).
Proof.
  intros Hinv. unfold createOrderSagaHandler.
  case_decide as Hm; [eexists _, _; split; [done|]; intros; by exfalso|].
  destruct (Body r) as [req|] eqn:Hb; [|by eexists _, _].
  case_decide as Hc; [by eexists _, _|].
  destruct (Amount req <=? 0)%float eqn:Ha; [by eexists _, _|].
  case_decide as Had; [by eexists _, _|].
  exfalso. by eapply Hinv.
Qed.

(** A handler call either starts a saga on a valid body or changes
    nothing. *)
Lemma handler_cases r now σ :
  (∃ req, Method r = MethodPost ∧ Body r = Some req ∧ valid req) ∨
  (∃ msg code, createOrderSagaHandler growslice Errorf r now σ
               = (http_Error msg code, σ, None)).
Proof.
  destruct (decide (Method r = MethodPost)) as [Hm|Hm].
  - destruct (Body r) as [req|] eqn:Hb.
    + destruct (decide (CustomerID req = "")) as [Hc|Hc].
      * right. destruct (handler_rejects r now σ) as (m & cd & H & _);
          [|by eexists _, _].
        intros req' _ Hb' (? & _). congruence.
      * destruct (Amount req <=? 0)%float eqn:Ha.
        { right. destruct (handler_rejects r now σ) as (m & cd & H & _);
            [|by eexists _, _].
          intros req' _ Hb' (_ & ? & _). congruence. }
        destruct (decide (Address req = "")) as [Had|Had].
        { right. destruct (handler_rejects r now σ) as (m & cd & H & _);
            [|by eexists _, _].
          intros req' _ Hb' (_ & _ & ?). congruence. }
        left. by exists req.
    + right. destruct (handler_rejects r now σ) as (m & cd & H & _);
        [|by eexists _, _].
      intros req' _ Hb'. congruence.
  - right. destruct (handler_rejects r now σ) as (m & cd & H & _);
      [|by eexists _, _].
    intros req' ?. done.
Qed.

Lemma tracks_new_transaction r now σ req :
  Method r = MethodPost → Body r = Some req → valid req →
  tracks (createOrderSagaHandler growslice Errorf r now σ).1.2
    (next_transaction_id σ)
    (new_transaction (next_transaction_id σ) req now) [].
Proof.
  intros Hm Hb Hv. rewrite (handler_accepts r now σ req) by done.
  exists emptySlice. cbn [fst snd transactions heap].
  rewrite lookup_insert_eq.
  split; [done|]. split; [apply slice_ok_empty|done].
Qed.

End Handler.

(** ** Sample inputs *)

(** A runtime that doubles capacities, and an [Errorf] for messages without
    verbs. *)
Definition doubling (c n : nat) : nat := 2 * c.
Definition plain_Errorf (format : string) : string := format.

Definition sample_order : CreateOrderRequest :=
  {| CustomerID := "CUST-1";
     Items := [{| item_ID := "I-1"; item_Name := "book";
                  item_Price := 10%float; item_Quantity := 2 |}];
     Amount := 20%float;
     Address := "12 Main St" |}.

Definition sample_request : HttpRequest :=
  {| Method := "POST"; Body := Some sample_order; transaction_id := "" |}.

Definition ok_reply (oid : string) : HttpResult :=
  Envelope {| Reply.Success := true; Reply.Message := "ok";
              Reply.OrderID := oid; Reply.PaymentID := "";
              Reply.ShippingID := ""; Reply.Status := "" |}.

Definition refusal (msg : string) : HttpResult :=
  Envelope {| Reply.Success := false; Reply.Message := msg;
              Reply.OrderID := ""; Reply.PaymentID := "";
              Reply.ShippingID := ""; Reply.Status := "" |}.

(** Every participant accepts. *)
Definition world_ok : World :=
  {| http_Post := λ _ _, ok_reply "ORD-1"; time_Now := λ n, Z.of_nat (100 + n) |}.

(** The shipping service refuses; the others accept. *)
Definition world_no_shipping : World :=
  {| http_Post := λ url _,
       if decide (url = ShippingServiceURL +:+ "/start-shipping")
       then refusal "Failed to initiate shipping" else ok_reply "ORD-1";
     time_Now := λ n, Z.of_nat (100 + n) |}.

(** The order service is unreachable. *)
Definition world_no_order : World :=
  {| http_Post := λ _ _, PostError "connection refused";
     time_Now := λ n, Z.of_nat (100 + n) |}.

Lemma sample_order_valid : valid sample_order.
Proof. by split_and!. Qed.

(** ** The saga scenarios *)

Lemma Steps_set_Steps s x : Transaction.Steps (Transaction.set_Steps s x) = s.
Proof. done. Qed.

Section Scenarios.
Variable growslice : nat → nat → nat.
Variable Errorf : string → string.

(** C1. When the CREATE_ORDER, PROCESS_PAYMENT and START_SHIPPING calls of a
    saga started by the handler all return a nil error, the run of
    [executeSaga] leaves the transaction with status COMPLETED, an empty
    failure reason, and a ledger of exactly three steps, all COMPLETED, in the
    order CREATE_ORDER, PROCESS_PAYMENT, START_SHIPPING. *)
Theorem saga_completes w r now σ req :
  Method r = MethodPost → Body r = Some req → valid req →
  let tid := next_transaction_id σ in
  let started := createOrderSagaHandler growslice Errorf r now σ in
  let oid := (returned w (createOrder growslice Errorf tid req)).1 in
  (returned w (createOrder growslice Errorf tid req)).2 = None →
  returned w (processPayment growslice Errorf tid oid (Amount req)) = None →
  returned w (startShipping growslice Errorf tid oid (Address req)) = None →
  started.2 = Some (executeSaga growslice Errorf tid req) ∧
  ∃ x,
    let c' := (run w (executeSaga growslice Errorf tid req)
                 (start started.1.2)).2 in
    transactions (state c') !! tid = Some x ∧
    Transaction.Status x = TransactionStatusCompleted ∧
    Transaction.FailureReason x = "" ∧
    outline (elems (heap (state c')) (Transaction.Steps x))
    = [("CREATE_ORDER", TransactionStatusCompleted);
       ("PROCESS_PAYMENT", TransactionStatusCompleted);
       ("START_SHIPPING", TransactionStatusCompleted)].
Proof.
  intros Hm Hb Hv tid started oid H1 H2 H3.
  split; [unfold started; by rewrite (handler_accepts _ _ r now σ req)|].
  pose proof (tracks_new_transaction growslice Errorf r now σ req Hm Hb Hv)
    as Ht.
  destruct (saga_succeeds growslice Errorf w tid req (start started.1.2) _
              Ht H1 H2 H3) as (l & t & (s & Hx & _ & Hel) & Hout & _).
  eexists. split; [exact Hx|]. split; [done|]. split; [done|].
  by rewrite Steps_set_Steps, Hel.
Qed.

(** C2. When CREATE_ORDER and PROCESS_PAYMENT return a nil error and
    START_SHIPPING returns an error, the run posts the refund and then the
    cancellation after the shipping request, the ledger is CREATE_ORDER,
    PROCESS_PAYMENT, START_SHIPPING (FAILED), REFUND_PAYMENT, CANCEL_ORDER in
    that order, the transaction ends FAILED and its failure reason starts
    with "Failed to start shipping". *)
Theorem saga_shipping_failure w r now σ req e :
  Method r = MethodPost → Body r = Some req → valid req →
  let tid := next_transaction_id σ in
  let started := createOrderSagaHandler growslice Errorf r now σ in
  let oid := (returned w (createOrder growslice Errorf tid req)).1 in
  (returned w (createOrder growslice Errorf tid req)).2 = None →
  returned w (processPayment growslice Errorf tid oid (Amount req)) = None →
  returned w (startShipping growslice Errorf tid oid (Address req)) = Some e →
  started.2 = Some (executeSaga growslice Errorf tid req) ∧
  ∃ x,
    let c' := (run w (executeSaga growslice Errorf tid req)
                 (start started.1.2)).2 in
    transactions (state c') !! tid = Some x ∧
    Transaction.Status x = TransactionStatusFailed ∧
    Transaction.FailureReason x = "Failed to start shipping: " +:+ e ∧
    String.prefix "Failed to start shipping" (Transaction.FailureReason x)
    = true ∧
    outline (elems (heap (state c')) (Transaction.Steps x))
    = [("CREATE_ORDER", TransactionStatusCompleted);
       ("PROCESS_PAYMENT", TransactionStatusCompleted);
       ("START_SHIPPING", TransactionStatusFailed);
       ("REFUND_PAYMENT",
        if post_failed (http_Post w (PaymentServiceURL +:+ "/refund-payment")
                          (cancelReq oid))
        then TransactionStatusFailed else TransactionStatusCompleted);
       ("CANCEL_ORDER",
        if post_failed (http_Post w (OrderServiceURL +:+ "/cancel-order")
                          (cancelReq oid))
        then TransactionStatusFailed else TransactionStatusCompleted)] ∧
    map fst (calls c')
    = [OrderServiceURL +:+ "/create-order";
       PaymentServiceURL +:+ "/process-payment";
       ShippingServiceURL +:+ "/start-shipping";
       PaymentServiceURL +:+ "/refund-payment";
       OrderServiceURL +:+ "/cancel-order"].
Proof.
  intros Hm Hb Hv tid started oid H1 H2 H3.
  split; [unfold started; by rewrite (handler_accepts _ _ r now σ req)|].
  pose proof (tracks_new_transaction growslice Errorf r now σ req Hm Hb Hv)
    as Ht.
  destruct (saga_shipping_fails growslice Errorf w tid req (start started.1.2)
              _ e Ht H1 H2 H3)
    as (l & t & (s & Hx & _ & Hel) & Hout & _ & Hcalls).
  eexists. split; [exact Hx|]. split; [done|]. split; [done|].
  split; [done|]. rewrite Steps_set_Steps, Hel, Hcalls, Hout.
  split; [|done]. by do 2 destruct (post_failed _).
Qed.

(** C5. When CREATE_ORDER returns an error, the transaction ends FAILED with a
    failure reason that starts with "Failed to create order", the ledger is
    the single step CREATE_ORDER with status FAILED, and no request goes to a
    compensating endpoint. *)
Theorem saga_create_failure w r now σ req e :
  Method r = MethodPost → Body r = Some req → valid req →
  let tid := next_transaction_id σ in
  let started := createOrderSagaHandler growslice Errorf r now σ in
  (returned w (createOrder growslice Errorf tid req)).2 = Some e →
  started.2 = Some (executeSaga growslice Errorf tid req) ∧
  ∃ x,
    let c' := (run w (executeSaga growslice Errorf tid req)
                 (start started.1.2)).2 in
    transactions (state c') !! tid = Some x ∧
    Transaction.Status x = TransactionStatusFailed ∧
    Transaction.FailureReason x = "Failed to create order: " +:+ e ∧
    String.prefix "Failed to create order" (Transaction.FailureReason x)
    = true ∧
    outline (elems (heap (state c')) (Transaction.Steps x))
    = [("CREATE_ORDER", TransactionStatusFailed)] ∧
    Forall (λ call, call.1 = OrderServiceURL +:+ "/create-order") (calls c').
Proof.
  intros Hm Hb Hv tid started H1.
  split; [unfold started; by rewrite (handler_accepts _ _ r now σ req)|].
  pose proof (tracks_new_transaction growslice Errorf r now σ req Hm Hb Hv)
    as Ht.
  destruct (saga_create_fails growslice Errorf w tid req (start started.1.2)
              _ e Ht H1)
    as (err & t0 & t1 & t & (s & Hx & _ & Hel) & Hcalls).
  eexists. split; [exact Hx|]. split; [done|]. split; [done|].
  split; [done|]. rewrite Steps_set_Steps, Hel. split; [done|].
  destruct Hcalls as [-> | ->]; simpl; repeat constructor.
Qed.

End Scenarios.

(** A run of C1: every participant accepts. *)
Lemma saga_completes_witness :
  ∃ x,
    transactions
      (state (run world_ok
                (executeSaga doubling plain_Errorf "TRX-1" sample_order)
                (start (createOrderSagaHandler doubling plain_Errorf
                          sample_request 0 initial).1.2)).2) !! "TRX-1"
    = Some x ∧
    Transaction.Status x = "COMPLETED".
Proof.
  destruct (saga_completes doubling plain_Errorf world_ok sample_request 0
              initial sample_order) as (_ & x & Hx & Hs & _).
  - reflexivity.
  - reflexivity.
  - split; [discriminate|]. split; [reflexivity|discriminate].
  - vm_compute. reflexivity.
  - vm_compute. reflexivity.
  - vm_compute. reflexivity.
  - exists x. split; assumption.
Defined.

(** A run of C2: the shipping service refuses. *)
Lemma saga_shipping_failure_witness :
  ∃ x,
    transactions
      (state (run world_no_shipping
                (executeSaga doubling plain_Errorf "TRX-1" sample_order)
                (start (createOrderSagaHandler doubling plain_Errorf
                          sample_request 0 initial).1.2)).2) !! "TRX-1"
    = Some x ∧
    Transaction.FailureReason x
    = "Failed to start shipping: Failed to initiate shipping".
Proof.
  destruct (saga_shipping_failure doubling plain_Errorf world_no_shipping
              sample_request 0 initial sample_order
              "Failed to initiate shipping") as (_ & x & Hx & _ & Hr & _).
  - reflexivity.
  - reflexivity.
  - split; [discriminate|]. split; [reflexivity|discriminate].
  - vm_compute. reflexivity.
  - vm_compute. reflexivity.
  - vm_compute. reflexivity.
  - exists x. split; assumption.
Defined.

(** A run of C5: the order service is unreachable. *)
Lemma saga_create_failure_witness :
  ∃ x,
    transactions
      (state (run world_no_order
                (executeSaga doubling plain_Errorf "TRX-1" sample_order)
                (start (createOrderSagaHandler doubling plain_Errorf
                          sample_request 0 initial).1.2)).2) !! "TRX-1"
    = Some x ∧
    Transaction.FailureReason x
    = "Failed to create order: connection refused".
Proof.
  destruct (saga_create_failure doubling plain_Errorf world_no_order
              sample_request 0 initial sample_order "connection refused")
    as (_ & x & Hx & _ & Hr & _).
  - reflexivity.
  - reflexivity.
  - split; [discriminate|]. split; [reflexivity|discriminate].
  - vm_compute. reflexivity.
  - exists x. split; assumption.
Defined.

(** ** Compensations and the response envelope *)

(** The shipping service refuses, and both compensating endpoints answer
    with an envelope whose [success] is false. *)
Definition world_compensations_refused : World :=
  {| http_Post := λ url _,
       if decide (url = ShippingServiceURL +:+ "/start-shipping")
       then refusal "Failed to initiate shipping"
       else if decide (url = PaymentServiceURL +:+ "/refund-payment")
       then refusal "No successful payment found for the order"
       else if decide (url = OrderServiceURL +:+ "/cancel-order")
       then refusal "Order not found"
       else ok_reply "ORD-1";
     time_Now := λ n, Z.of_nat (100 + n) |}.

(** C3, at a failing input. Both compensating calls are answered with
    success=false, and [refundPayment] and [cancelOrder] close the response
    unread: the two steps are ledgered COMPLETED with no error text. The
    forward step START_SHIPPING, answered the same way, is ledgered FAILED
    with the envelope's message. The transaction still ends FAILED with the
    shipping reason. *)
Theorem refused_compensations_ledgered_completed :
  ∃ x,
    let c' := (run world_compensations_refused
                 (executeSaga doubling plain_Errorf "TRX-1" sample_order)
                 (start (createOrderSagaHandler doubling plain_Errorf
                           sample_request 0 initial).1.2)).2 in
    transactions (state c') !! "TRX-1" = Some x ∧
    map (λ st, (Step.Name st, Step.Status st, Step.Error st))
      (elems (heap (state c')) (Transaction.Steps x))
    = [("CREATE_ORDER", "COMPLETED", "");
       ("PROCESS_PAYMENT", "COMPLETED", "");
       ("START_SHIPPING", "FAILED", "Failed to initiate shipping");
       ("REFUND_PAYMENT", "COMPLETED", "");
       ("CANCEL_ORDER", "COMPLETED", "")] ∧
    Transaction.Status x = "FAILED" ∧
    Transaction.FailureReason x
    = "Failed to start shipping: Failed to initiate shipping".
Proof. vm_compute. eexists. by split_and!. Qed.

(** ** Ending a step *)

(** Following the specification's words for [endStep]: the most recent step
    with the given name that has no end timestamp is concluded; without such
    a step nothing changes. *)
Definition end_step_spec (stepName : string) (success : bool)
    (errorMsg : string) (now : Z) (l : list Step.t) : list Step.t :=
  match list_find (λ step, Step.Name step = stepName ∧ Step.EndedAt step = None)
          (reverse l) with
  | Some (j, _) => alter (conclude success errorMsg now) (length l - S j) l
  | None => l
  end.

(** A memory whose only ledger holds two steps of one name, a concluded one
    followed by an open one. *)
Definition retried_steps : list Step.t :=
  [ {| Step.Name := "RETRY"; Step.Status := "COMPLETED";
       Step.StartedAt := Some 1%Z; Step.EndedAt := Some 2%Z;
       Step.Error := "" |};
    {| Step.Name := "RETRY"; Step.Status := "PENDING";
       Step.StartedAt := Some 3%Z; Step.EndedAt := None;
       Step.Error := "" |} ].

Definition retried_state : State :=
  {| transactions :=
       {[ "TRX-1" :=
            Transaction.set_Steps {| ptr := Some 1; len := 2; cap := 2 |}
              (new_transaction "TRX-1" sample_order 0) ]};
     nextID := 2;
     heap := [[]; retried_steps] |}.

(** On any memory, [updateStepStatus] concludes the first step of the ledger
    whose name matches, and the loop never reads [EndedAt]: the status
    becomes COMPLETED or FAILED, the end timestamp is set, and on failure the
    error text is recorded, whether or not the step had been concluded
    before; every other step, the map and the counter are unchanged. If no
    step has that name, the memory is unchanged. *)
Theorem updateStepStatus_first_match σ tid name success err now x :
  transactions σ !! tid = Some x →
  slice_ok (heap σ) (Transaction.Steps x) →
  let σ' := updateStepStatus tid name success err now σ in
  let l := elems (heap σ) (Transaction.Steps x) in
  transactions σ' = transactions σ ∧
  nextID σ' = nextID σ ∧
  ((∀ st, st ∈ l → Step.Name st ≠ name) → σ' = σ) ∧
  (∀ l1 st l2,
     l = l1 ++ st :: l2 →
     (∀ st', st' ∈ l1 → Step.Name st' ≠ name) →
     Step.Name st = name →
     ∃ st',
       elems (heap σ') (Transaction.Steps x) = l1 ++ st' :: l2 ∧
       Step.Name st' = name ∧
       Step.StartedAt st' = Step.StartedAt st ∧
       Step.EndedAt st' = Some now ∧
       Step.Status st'
       = (if success then TransactionStatusCompleted
          else TransactionStatusFailed) ∧
       Step.Error st' = (if success then Step.Error st else err)).
Proof.
  intros Hx Hok σ' l.
  destruct (updateStepStatus_spec σ tid name success err now x Hx Hok)
    as ((Htr & Hn & _ & _) & Hel).
  assert (Hsame : transactions σ' = transactions σ)
    by (unfold σ'; rewrite Htr; by apply insert_id).
  split; [done|]. split; [done|]. split.
  - intros Hnone. unfold σ', updateStepStatus. rewrite Hx. simpl.
    fold l. destruct (list_find _ l) as [[i st]|] eqn:Hfind.
    + apply list_find_Some in Hfind as (Hi & Hname & _).
      exfalso. eapply Hnone; [|done]. by eapply list_elem_of_lookup_2.
    + rewrite insert_id by done. by destruct σ.
  - intros l1 st l2 Hl Hl1 Hst. fold σ' in Hel. rewrite Hel. fold l.
    unfold end_step.
    assert (Hfind : list_find (λ step, Step.Name step = name) l
                    = Some (length l1, st)).
    { apply list_find_Some. rewrite Hl. split; [by rewrite list_lookup_middle|].
      split; [done|]. intros j y Hj Hlt.
      rewrite lookup_app_l in Hj by done.
      apply Hl1. by eapply list_elem_of_lookup_2. }
    rewrite Hfind, Hl. rewrite alter_app_r_alt by lia.
    replace (length l1 - length l1) with 0 by lia. simpl.
    eexists. split; [done|]. by destruct success.
Qed.

(** The handler's fresh transaction after one [addStep]: an open step ended
    by [updateStepStatus]. *)
Lemma updateStepStatus_first_match_witness :
  let σ := addStep doubling "TRX-1" "CREATE_ORDER" 100
             (createOrderSagaHandler doubling plain_Errorf
                sample_request 0 initial).1.2 in
  let σ' := updateStepStatus "TRX-1" "CREATE_ORDER" true "" 101 σ in
  transactions σ' = transactions σ ∧ nextID σ' = nextID σ.
Proof.
  intros σ σ'.
  destruct (updateStepStatus_first_match σ "TRX-1" "CREATE_ORDER" true "" 101
              (Transaction.set_Steps {| ptr := Some 1; len := 1; cap := 1 |}
                 (new_transaction "TRX-1" sample_order 0)))
    as (H1 & H2 & _).
  - vm_compute. reflexivity.
  - split; vm_compute; lia.
  - split; assumption.
Defined.

(** ** Validation, the returned snapshot, and the status update *)

Section Boundary.
Variable growslice : nat → nat → nat.
Variable Errorf : string → string.

(** C7. A POST whose decoded body has an empty customer id, an amount that
    is not above zero, or an empty address is answered with status 400; the
    memory (map, counter, heap) is returned unchanged and no goroutine is
    started. *)
Theorem invalid_request_rejected r now σ req :
  Method r = MethodPost → Body r = Some req →
  CustomerID req = "" ∨ (Amount req <=? 0)%float = true ∨ Address req = "" →
  ∃ msg,
    createOrderSagaHandler growslice Errorf r now σ
    = (http_Error msg StatusBadRequest, σ, None).
Proof.
  intros Hm Hb Hbad.
  destruct (handler_rejects growslice Errorf r now σ) as (msg & code & H & Hc).
  - intros req' _ Hb' (Hc & Ha & Had).
    assert (req' = req) as -> by congruence.
    destruct Hbad as [?|[?|?]]; congruence.
  - exists msg. rewrite H. by rewrite (Hc Hm).
Qed.

(** C10. The [Transaction] written back by an accepted start-saga request is
    the handler's own copy: status PENDING, empty order id and failure
    reason, unset completion time, and a [Steps] header of length zero, so
    that encoding it against any later heap yields no steps. *)
Theorem returned_snapshot_is_initial r now σ code resp σ' spawned :
  createOrderSagaHandler growslice Errorf r now σ
  = (WriteJSON code resp, σ', spawned) →
  code = StatusAccepted ∧
  Transaction.Status (Transaction resp) = TransactionStatusPending ∧
  Transaction.OrderID (Transaction resp) = "" ∧
  Transaction.FailureReason (Transaction resp) = "" ∧
  Transaction.CompletedAt (Transaction resp) = None ∧
  Transaction.Steps (Transaction resp) = emptySlice ∧
  transactions σ' !! Transaction.ID (Transaction resp)
  = Some (Transaction resp) ∧
  (∀ h, (encode h (Transaction resp)).2 = []) ∧
  (∀ w c,
     elems (heap (state (run w (default (Ret tt) spawned) c).2))
       (Transaction.Steps (Transaction resp)) = []).
Proof.
  intros H.
  destruct (handler_cases growslice Errorf r now σ)
    as [(req & Hm & Hb & Hv)|(msg & cd & Hrej)]; [|congruence].
  rewrite (handler_accepts _ _ r now σ req) in H by done.
  injection H as <- <- <- <-. simpl.
  split_and!; try done. by rewrite lookup_insert_eq.
Qed.

End Boundary.

(** C9. On a transaction present in the map, [updateTransactionStatus]
    rewrites only its Status, CompletedAt and FailureReason: the other fields
    and the [Steps] header are kept, the heap and the counter are untouched,
    every other entry of the map is unchanged, and FailureReason changes only
    when the new status is FAILED (then it is the given reason). *)
Theorem updateTransactionStatus_frame σ tid status reason now x :
  transactions σ !! tid = Some x →
  let σ' := updateTransactionStatus tid status reason now σ in
  ∃ x',
    transactions σ' = <[tid := x']> (transactions σ) ∧
    Transaction.Status x' = status ∧
    Transaction.ID x' = Transaction.ID x ∧
    Transaction.OrderID x' = Transaction.OrderID x ∧
    Transaction.CustomerID x' = Transaction.CustomerID x ∧
    Transaction.Amount x' = Transaction.Amount x ∧
    Transaction.Address x' = Transaction.Address x ∧
    Transaction.CreatedAt x' = Transaction.CreatedAt x ∧
    Transaction.Steps x' = Transaction.Steps x ∧
    heap σ' = heap σ ∧
    nextID σ' = nextID σ ∧
    (∀ tid', tid' ≠ tid → transactions σ' !! tid' = transactions σ !! tid') ∧
    Transaction.FailureReason x'
    = (if decide (status = TransactionStatusFailed) then reason
       else Transaction.FailureReason x) ∧
    Transaction.CompletedAt x'
    = (if decide (status = TransactionStatusCompleted
                  ∨ status = TransactionStatusFailed) then Some now
       else Transaction.CompletedAt x).
Proof.
  intros Hx σ'. unfold σ', updateTransactionStatus. rewrite Hx.
  eexists. split; [done|]. cbn [transactions heap nextID].
  split_and!; try (by repeat case_decide).
  - intros tid' Hne. by rewrite lookup_insert_ne.
  - destruct (decide (status = TransactionStatusCompleted)) as [->|Hc];
      [done|]. by destruct (decide (status = TransactionStatusFailed)).
  - destruct (decide (status = TransactionStatusCompleted)) as [->|Hc].
    { by rewrite decide_True by (by left). }
    destruct (decide (status = TransactionStatusFailed)) as [->|Hf].
    { by rewrite decide_True by (by right). }
    by rewrite decide_False by (by intros [|]).
Qed.

(** An empty customer id. *)
Lemma invalid_request_rejected_witness :
  ∃ msg,
    createOrderSagaHandler doubling plain_Errorf
      {| Method := "POST";
         Body := Some {| CustomerID := ""; Items := []; Amount := 5%float;
                         Address := "12 Main St" |};
         transaction_id := "" |} 0 initial
    = (http_Error msg StatusBadRequest, initial, None).
Proof.
  apply (invalid_request_rejected doubling plain_Errorf _ 0 initial
           {| CustomerID := ""; Items := []; Amount := 5%float;
              Address := "12 Main St" |}).
  - reflexivity.
  - reflexivity.
  - left. reflexivity.
Defined.

(** The reply to the sample request on a fresh server, encoded against the
    heap of [retried_state]. *)
Lemma returned_snapshot_is_initial_witness :
  (encode (heap retried_state) (new_transaction "TRX-1" sample_order 0)).2
  = [].
Proof.
  refine (proj1 (proj2 (proj2 (proj2 (proj2 (proj2 (proj2 (proj2
    (returned_snapshot_is_initial doubling plain_Errorf sample_request 0
       initial StatusAccepted
       {| Success := true;
          Message := "Transaction initiated successfully";
          Transaction := new_transaction "TRX-1" sample_order 0 |}
       _ _ _)))))))) (heap retried_state)).
  reflexivity.
Defined.

(** Failing the sample transaction right after it is created. *)
Lemma updateTransactionStatus_frame_witness :
  let σ := (createOrderSagaHandler doubling plain_Errorf
              sample_request 0 initial).1.2 in
  ∃ x',
    transactions (updateTransactionStatus "TRX-1" "FAILED" "boom" 7 σ)
    = <[ "TRX-1" := x' ]> (transactions σ) ∧
    Transaction.Status x' = "FAILED".
Proof.
  intros σ.
  destruct (updateTransactionStatus_frame σ "TRX-1" "FAILED" "boom" 7
              (new_transaction "TRX-1" sample_order 0))
    as (x' & H1 & H2 & _).
  - vm_compute. reflexivity.
  - exists x'. split; assumption.
Defined.

(** * Further properties of the orchestrator *)

(** ** The payment-failure path of [executeSaga] *)

Section PaymentFailure.
Variable growslice : nat → nat → nat.
Variable Errorf : string → string.

Ltac fresh_steps :=
  simpl; repeat (apply Forall_cons; split);
  rewrite ?attempt_name; try done; apply Forall_nil.

Lemma saga_payment_fails w tid req c x e :
  tracks (state c) tid x [] →
  let oid := (returned w (createOrder growslice Errorf tid req)).1 in
  (returned w (createOrder growslice Errorf tid req)).2 = None →
  returned w (processPayment growslice Errorf tid oid (Amount req)) = Some e →
  ∃ l t posted,
    let c' := (run w (executeSaga growslice Errorf tid req) c).2 in
    let cancelled :=
      negb (post_failed (http_Post w (OrderServiceURL +:+ "/cancel-order")
                           (cancelReq oid))) in
    tracks (state c') tid
      (fail_with ("Failed to process payment: " +:+ e) t
         (Transaction.set_OrderID oid x)) l ∧
    outline l =
      [("CREATE_ORDER", TransactionStatusCompleted);
       ("PROCESS_PAYMENT", TransactionStatusFailed);
       ("CANCEL_ORDER",
        if cancelled then TransactionStatusCompleted
        else TransactionStatusFailed)] ∧
    Forall (λ st, Step.EndedAt st ≠ None) l ∧
    (posted = [] ∨
     posted = [(PaymentServiceURL +:+ "/process-payment",
                paymentReq oid (Amount req))]) ∧
    calls c' = calls c ++
      [(OrderServiceURL +:+ "/create-order", orderReq req)] ++ posted ++
      [(OrderServiceURL +:+ "/cancel-order", cancelReq oid)].
Proof.
  intros Ht oid H1 H2. unfold executeSaga.
  destruct (createOrder_run growslice Errorf w tid req c x [] Ht)
    as (ok1 & err1 & Hc); [by constructor|].
  cbv zeta in Hc. destruct Hc as (Ht1 & Htk1 & Hc1 & Hr1).
  rewrite run_bind.
  pose proof (run_fst w (createOrder growslice Errorf tid req) c) as Hf1.
  destruct (run w (createOrder growslice Errorf tid req) c)
    as [[oid' e1] c1] eqn:Hrun1.
  cbn [fst snd] in *. rewrite <- Hf1 in H1. cbn [snd] in H1. subst e1.
  assert (oid' = oid) as -> by (unfold oid; by rewrite <- Hf1).
  destruct ok1; [|by destruct Hr1]. clear Hr1 Hf1.
  destruct Hc1 as [Hc1|[? _]]; [|done].
  rewrite run_bind, run_locked. cbn [fst snd].
  set (c1' := {| state := setOrderID tid oid (time_Now w (ticks c1)) (state c1);
                 ticks := S (ticks c1); calls := calls c1 |}).
  assert (Ht1' : tracks (state c1') tid (Transaction.set_OrderID oid x)
                   ([] ++ [attempt "CREATE_ORDER" true err1 (time_Now w (ticks c))
                             (time_Now w (S (ticks c)))]))
    by (by apply tracks_setOrderID).
  destruct (processPayment_run growslice Errorf w tid oid (Amount req) c1' _ _
              Ht1') as (ok2 & err2 & Hc); [fresh_steps|].
  cbv zeta in Hc. destruct Hc as (Ht2 & Htk2 & Hc2 & Hr2).
  rewrite run_bind. rewrite run_fst, H2 in Hr2 |- *.
  destruct ok2; [done|]. clear Hr2.
  set (c2 := (run w (processPayment growslice Errorf tid oid (Amount req)) c1').2)
    in *.
  destruct (cancelOrder_run growslice w tid oid c2 _ _ Ht2) as (err3 & Hc);
    [fresh_steps|].
  cbv zeta in Hc. destruct Hc as (Ht3 & Htk3 & Hc3).
  rewrite run_bind.
  set (c3 := (run w (cancelOrder growslice tid oid) c2).2) in *.
  rewrite run_locked. cbn [fst snd state calls].
  assert (Hout : outline
            ((([] ++ [attempt "CREATE_ORDER" true err1 (time_Now w (ticks c))
                        (time_Now w (S (ticks c)))]) ++
              [attempt "PROCESS_PAYMENT" false err2 (time_Now w (ticks c1'))
                 (time_Now w (S (ticks c1')))]) ++
             [attempt "CANCEL_ORDER"
                (negb (post_failed
                         (http_Post w (OrderServiceURL +:+ "/cancel-order")
                            (cancelReq oid))))
                err3 (time_Now w (ticks c2)) (time_Now w (S (ticks c2)))])
          = [("CREATE_ORDER", TransactionStatusCompleted);
             ("PROCESS_PAYMENT", TransactionStatusFailed);
             ("CANCEL_ORDER",
              if negb (post_failed
                         (http_Post w (OrderServiceURL +:+ "/cancel-order")
                            (cancelReq oid)))
              then TransactionStatusCompleted else TransactionStatusFailed)])
    by (by destruct (post_failed _)).
  destruct Hc2 as [Hc2|[_ Hc2]].
  - eexists _, _, [(PaymentServiceURL +:+ "/process-payment",
                    paymentReq oid (Amount req))].
    split; [by apply tracks_fail|]. split; [exact Hout|].
    split; [|split; [by right|]].
    + repeat constructor;
        by rewrite (proj1 (proj2 (proj2 (attempt_status _ _ _ _ _)))).
    + rewrite Hc3, Hc2. subst c1'. cbn [calls]. rewrite Hc1.
      by rewrite <- !app_assoc.
  - eexists _, _, [].
    split; [by apply tracks_fail|]. split; [exact Hout|].
    split; [|split; [by left|]].
    + repeat constructor;
        by rewrite (proj1 (proj2 (proj2 (attempt_status _ _ _ _ _)))).
    + rewrite Hc3, Hc2. subst c1'. cbn [calls]. rewrite Hc1.
      by rewrite <- !app_assoc.
Qed.

End PaymentFailure.

(** The payment service refuses; the others accept. *)
Definition world_no_payment : World :=
  {| http_Post := λ url _,
       if decide (url = PaymentServiceURL +:+ "/process-payment")
       then refusal "Payment processing failed" else ok_reply "ORD-1";
     time_Now := λ n, Z.of_nat (100 + n) |}.

(** Membership in a list written out. *)
Ltac in_list :=
  repeat first [apply list_elem_of_here | apply list_elem_of_further].

(** A property of every element of a list written out, each by one side of
    a disjunction. *)
Ltac each_of :=
  repeat (apply Forall_cons; split); try (by apply Forall_nil);
  cbn [fst snd]; try (by left); try (by right).

Section MoreScenarios.
Variable growslice : nat → nat → nat.
Variable Errorf : string → string.

(** When CREATE_ORDER returns a nil error and PROCESS_PAYMENT returns an
    error, the run cancels the order and nothing else: the ledger is
    CREATE_ORDER (COMPLETED), PROCESS_PAYMENT (FAILED), CANCEL_ORDER, the
    transaction ends FAILED with reason "Failed to process payment: ..." and
    carries the order id, and the last request goes to /cancel-order. *)
Theorem saga_payment_failure w r now σ req e :
  Method r = MethodPost → Body r = Some req → valid req →
  let tid := next_transaction_id σ in
  let started := createOrderSagaHandler growslice Errorf r now σ in
  let oid := (returned w (createOrder growslice Errorf tid req)).1 in
  (returned w (createOrder growslice Errorf tid req)).2 = None →
  returned w (processPayment growslice Errorf tid oid (Amount req)) = Some e →
  ∃ x,
    let c' := (run w (executeSaga growslice Errorf tid req)
                 (start started.1.2)).2 in
    transactions (state c') !! tid = Some x ∧
    Transaction.Status x = TransactionStatusFailed ∧
    Transaction.FailureReason x = "Failed to process payment: " +:+ e ∧
    Transaction.OrderID x = oid ∧
    outline (elems (heap (state c')) (Transaction.Steps x))
    = [("CREATE_ORDER", TransactionStatusCompleted);
       ("PROCESS_PAYMENT", TransactionStatusFailed);
       ("CANCEL_ORDER",
        if post_failed (http_Post w (OrderServiceURL +:+ "/cancel-order")
                          (cancelReq oid))
        then TransactionStatusFailed else TransactionStatusCompleted)] ∧
    last (calls c')
    = Some (OrderServiceURL +:+ "/cancel-order", cancelReq oid) ∧
    Forall (λ call, call.1 ∈ [OrderServiceURL +:+ "/create-order";
                              PaymentServiceURL +:+ "/process-payment";
                              OrderServiceURL +:+ "/cancel-order"])
      (calls c').
Proof.
  intros Hm Hb Hv tid started oid H1 H2.
  pose proof (tracks_new_transaction growslice Errorf r now σ req Hm Hb Hv)
    as Ht.
  destruct (saga_payment_fails growslice Errorf w tid req (start started.1.2)
              _ e Ht H1 H2)
    as (l & t & posted & (s & Hx & _ & Hel) & Hout & _ & Hposted & Hcalls).
  eexists. split; [exact Hx|]. split; [done|]. split; [done|].
  split; [done|]. rewrite Steps_set_Steps, Hel, Hcalls, Hout.
  split; [by destruct (post_failed _)|]. split.
  - rewrite !app_assoc. by rewrite last_snoc.
  - destruct Hposted as [-> | ->]; simpl;
      repeat (apply Forall_cons; split); try (by apply Forall_nil);
      cbn [fst]; in_list.
Qed.

End MoreScenarios.

(** A run where the payment service refuses. *)
Lemma saga_payment_failure_witness :
  ∃ x,
    transactions
      (state (run world_no_payment
                (executeSaga doubling plain_Errorf "TRX-1" sample_order)
                (start (createOrderSagaHandler doubling plain_Errorf
                          sample_request 0 initial).1.2)).2) !! "TRX-1"
    = Some x ∧
    Transaction.FailureReason x
    = "Failed to process payment: Payment processing failed".
Proof.
  destruct (saga_payment_failure doubling plain_Errorf world_no_payment
              sample_request 0 initial sample_order
              "Payment processing failed") as (x & Hx & _ & Hr & _).
  - reflexivity.
  - reflexivity.
  - split; [discriminate|]. split; [reflexivity|discriminate].
  - vm_compute. reflexivity.
  - vm_compute. reflexivity.
  - exists x. split; assumption.
Defined.

(** ** Every saga run ends concluded *)

Lemma outline_names l : map Step.Name l = map fst (outline l).
Proof. unfold outline. by rewrite map_map. Qed.

Lemma outline_concluded l :
  Forall (λ p, p.2 = TransactionStatusCompleted ∨ p.2 = TransactionStatusFailed)
    (outline l) →
  Forall (λ st, Step.EndedAt st ≠ None) l →
  Forall (λ st, is_Some (Step.EndedAt st) ∧
                (Step.Status st = TransactionStatusCompleted ∨
                 Step.Status st = TransactionStatusFailed)) l.
Proof.
  unfold outline. rewrite Forall_fmap, !Forall_forall. intros H1 H2 st Hst.
  split; [apply not_eq_None_Some; by apply H2|]. by apply (H1 st).
Qed.

Section Termination.
Variable growslice : nat → nat → nat.
Variable Errorf : string → string.

(** Whatever the participants answer, the run of a saga started by the
    handler ends with the transaction in a terminal status with its
    completion time set: COMPLETED with an empty failure reason, or FAILED
    with a reason that starts with "Failed to ". Every step of the ledger is
    concluded (end time set, status COMPLETED or FAILED), the step names form
    one of the four sequences of [executeSaga], so CANCEL_SHIPPING is never
    ledgered, and no request goes to /cancel-shipping. *)
Theorem saga_run_concludes w r now σ req :
  Method r = MethodPost → Body r = Some req → valid req →
  let tid := next_transaction_id σ in
  let started := createOrderSagaHandler growslice Errorf r now σ in
  ∃ x,
    let c' := (run w (executeSaga growslice Errorf tid req)
                 (start started.1.2)).2 in
    let ledger := elems (heap (state c')) (Transaction.Steps x) in
    transactions (state c') !! tid = Some x ∧
    (Transaction.Status x = TransactionStatusCompleted ∧
     Transaction.FailureReason x = ""
     ∨ Transaction.Status x = TransactionStatusFailed ∧
       String.prefix "Failed to " (Transaction.FailureReason x) = true) ∧
    is_Some (Transaction.CompletedAt x) ∧
    Forall (λ st, is_Some (Step.EndedAt st) ∧
                  (Step.Status st = TransactionStatusCompleted ∨
                   Step.Status st = TransactionStatusFailed)) ledger ∧
    map Step.Name ledger ∈
      [ ["CREATE_ORDER"];
        ["CREATE_ORDER"; "PROCESS_PAYMENT"; "CANCEL_ORDER"];
        ["CREATE_ORDER"; "PROCESS_PAYMENT"; "START_SHIPPING";
         "REFUND_PAYMENT"; "CANCEL_ORDER"];
        ["CREATE_ORDER"; "PROCESS_PAYMENT"; "START_SHIPPING"] ] ∧
    Forall (λ call, call.1 ∈ [OrderServiceURL +:+ "/create-order";
                              PaymentServiceURL +:+ "/process-payment";
                              ShippingServiceURL +:+ "/start-shipping";
                              PaymentServiceURL +:+ "/refund-payment";
                              OrderServiceURL +:+ "/cancel-order"])
      (calls c').
Proof.
  intros Hm Hb Hv tid started.
  pose proof (tracks_new_transaction growslice Errorf r now σ req Hm Hb Hv)
    as Ht. fold tid started in Ht.
  destruct (returned w (createOrder growslice Errorf tid req)).2 as [e1|]
    eqn:H1.
  { destruct (saga_create_fails growslice Errorf w tid req
                (start started.1.2) _ e1 Ht H1)
      as (err & t0 & t1 & t & (s & Hx & _ & Hel) & Hcalls).
    eexists. split; [exact Hx|]. cbv zeta.
    rewrite Steps_set_Steps, Hel.
    split; [by right|]. split; [done|]. split; [|split].
    - apply Forall_cons. split; [|by apply Forall_nil].
      split; [done|by right].
    - cbn [map attempt conclude begin_step Step.Name Step.set_EndedAt
             Step.set_Error Step.set_Status]. in_list.
    - destruct Hcalls as [-> | ->]; simpl;
        repeat (apply Forall_cons; split); try (by apply Forall_nil);
        cbn [fst]; in_list. }
  destruct (returned w (processPayment growslice Errorf tid
              (returned w (createOrder growslice Errorf tid req)).1
              (Amount req))) as [e2|] eqn:H2.
  { destruct (saga_payment_fails growslice Errorf w tid req
                (start started.1.2) _ e2 Ht H1 H2)
      as (l & t & posted & (s & Hx & _ & Hel) & Hout & Hend & Hposted & Hcalls).
    eexists. split; [exact Hx|]. cbv zeta.
    rewrite Steps_set_Steps, Hel, Hcalls.
    split; [by right|]. split; [done|]. split; [|split].
    - apply outline_concluded; [|done]. rewrite Hout.
      destruct (negb _); each_of.
    - rewrite outline_names, Hout. cbn [map fst]. in_list.
    - destruct Hposted as [-> | ->]; simpl;
        repeat (apply Forall_cons; split); try (by apply Forall_nil);
        cbn [fst]; in_list. }
  destruct (returned w (startShipping growslice Errorf tid
              (returned w (createOrder growslice Errorf tid req)).1
              (Address req))) as [e3|] eqn:H3.
  { destruct (saga_shipping_fails growslice Errorf w tid req
                (start started.1.2) _ e3 Ht H1 H2 H3)
      as (l & t & (s & Hx & _ & Hel) & Hout & Hend & Hcalls).
    eexists. split; [exact Hx|]. cbv zeta.
    rewrite Steps_set_Steps, Hel, Hcalls.
    split; [by right|]. split; [done|]. split; [|split].
    - apply outline_concluded; [|done]. rewrite Hout.
      do 2 destruct (negb _); each_of.
    - rewrite outline_names, Hout. cbn [map fst]. in_list.
    - simpl. repeat (apply Forall_cons; split); try (by apply Forall_nil);
        cbn [fst]; in_list. }
  destruct (saga_succeeds growslice Errorf w tid req (start started.1.2) _
              Ht H1 H2 H3)
    as (l & t & (s & Hx & _ & Hel) & Hout & Hend & Hcalls).
  eexists. split; [exact Hx|]. cbv zeta.
  rewrite Steps_set_Steps, Hel, Hcalls.
  split; [by left|]. split; [done|]. split; [|split].
  - apply outline_concluded.
    + rewrite Hout. each_of.
    + eapply Forall_impl; [exact Hend|]. by intros st [? _].
  - rewrite outline_names, Hout. cbn [map fst]. in_list.
  - simpl. repeat (apply Forall_cons; split); try (by apply Forall_nil);
      cbn [fst]; in_list.
Qed.

End Termination.

(** The run of the sample order against refusing compensations. *)
Lemma saga_run_concludes_witness :
  ∃ x,
    transactions
      (state (run world_compensations_refused
                (executeSaga doubling plain_Errorf "TRX-1" sample_order)
                (start (createOrderSagaHandler doubling plain_Errorf
                          sample_request 0 initial).1.2)).2) !! "TRX-1"
    = Some x ∧
    is_Some (Transaction.CompletedAt x).
Proof.
  destruct (saga_run_concludes doubling plain_Errorf
              world_compensations_refused sample_request 0 initial
              sample_order) as (x & Hx & _ & Hc & _).
  - reflexivity.
  - reflexivity.
  - split; [discriminate|]. split; [reflexivity|discriminate].
  - exists x. split; assumption.
Defined.

(** ** The handlers at their boundary *)

Section HandlerEffects.
Variable growslice : nat → nat → nat.
Variable Errorf : string → string.

(** A start-saga request answered with an error has no effect: the memory is
    returned as it was, no goroutine is started, and the code is 405 exactly
    when the method is not POST, otherwise 400. *)
Theorem handler_error_has_no_effect r now σ msg code σ' spawned :
  createOrderSagaHandler growslice Errorf r now σ
  = (http_Error msg code, σ', spawned) →
  σ' = σ ∧ spawned = None ∧
  (Method r ≠ MethodPost ∧ code = StatusMethodNotAllowed
   ∨ Method r = MethodPost ∧ code = StatusBadRequest).
Proof.
  unfold createOrderSagaHandler.
  case_decide as Hm; [intros [= <- <- <- <-]; split_and!; try done; by left|].
  destruct (Body r) as [req|];
    [|intros [= <- <- <- <-]; split_and!; try done; by right].
  case_decide; [intros [= <- <- <- <-]; split_and!; try done; by right|].
  destruct (Amount req <=? 0)%float;
    [intros [= <- <- <- <-]; split_and!; try done; by right|].
  case_decide; [intros [= <- <- <- <-]; split_and!; try done; by right|].
  discriminate.
Qed.

(** An accepted start-saga request adds exactly one entry to the map, under
    the id "TRX-" followed by the decimal counter, which is also the ID field
    of the entry; the entry copies customer, amount and address from the
    body; every other entry and the heap are untouched, the counter is
    advanced (with the wrap-around of [int]), and the goroutine started is
    [executeSaga] on that id and body. *)
Theorem handler_accept_effect r now σ code resp σ' spawned :
  createOrderSagaHandler growslice Errorf r now σ
  = (WriteJSON code resp, σ', spawned) →
  let tid := "TRX-" +:+ pretty (nextID σ) in
  ∃ req,
    Body r = Some req ∧ valid req ∧
    Transaction.ID (Transaction resp) = tid ∧
    Transaction.CustomerID (Transaction resp) = CustomerID req ∧
    Transaction.Amount (Transaction resp) = Amount req ∧
    Transaction.Address (Transaction resp) = Address req ∧
    Transaction.CreatedAt (Transaction resp) = Some now ∧
    transactions σ' = <[tid := Transaction resp]> (transactions σ) ∧
    (∀ tid', tid' ≠ tid → transactions σ' !! tid' = transactions σ !! tid') ∧
    heap σ' = heap σ ∧
    nextID σ' = int_wrap (nextID σ + 1) ∧
    ((- 2 ^ 63 ≤ nextID σ < max_int)%Z → nextID σ' = (nextID σ + 1)%Z) ∧
    spawned = Some (executeSaga growslice Errorf tid req).
Proof.
  intros H tid.
  destruct (handler_cases growslice Errorf r now σ)
    as [(req & Hm & Hb & Hv)|(msg & cd & Hrej)]; [|congruence].
  rewrite (handler_accepts _ _ r now σ req) in H by done.
  injection H as <- <- <- <-. exists req.
  cbn [Transaction transactions heap nextID].
  split_and!; try done.
  - intros tid' Hne. by rewrite lookup_insert_ne.
  - intros Hrange. unfold int_wrap, max_int in *.
    rewrite Z.mod_small by lia. lia.
Qed.

End HandlerEffects.

(** The status handler answers 405 to any method but GET, 400 to an empty
    id, 404 to an id the map does not hold, and otherwise 200 with the stored
    transaction. *)
Theorem status_handler_replies q σ :
  (Method q ≠ MethodGet →
   transactionStatusHandler q σ
   = http_Error "Method not allowed" StatusMethodNotAllowed) ∧
  (Method q = MethodGet → transaction_id q = "" →
   transactionStatusHandler q σ
   = http_Error "Transaction ID is required" StatusBadRequest) ∧
  (Method q = MethodGet → transaction_id q ≠ "" →
   transactions σ !! transaction_id q = None →
   transactionStatusHandler q σ
   = http_Error "Transaction not found" StatusNotFound) ∧
  (∀ x, Method q = MethodGet → transaction_id q ≠ "" →
   transactions σ !! transaction_id q = Some x →
   transactionStatusHandler q σ
   = WriteJSON StatusOK
       {| Success := true; Message := ""; Transaction := x |}).
Proof.
  unfold transactionStatusHandler. split_and!.
  - intros Hm. by rewrite decide_True.
  - intros Hm Hid. rewrite decide_False by (by intros []).
    by rewrite decide_True.
  - intros Hm Hid Hx. rewrite decide_False by (by intros []).
    by rewrite decide_False, Hx.
  - intros x Hm Hid Hx. rewrite decide_False by (by intros []).
    by rewrite decide_False, Hx.
Qed.

(** A GET for an id on a fresh server. *)
Definition sample_status_request : HttpRequest :=
  {| Method := "GET"; Body := None; transaction_id := "TRX-1" |}.

Lemma handler_error_has_no_effect_witness :
  (createOrderSagaHandler doubling plain_Errorf sample_status_request 0
     initial).1.2 = initial.
Proof.
  refine (proj1 (handler_error_has_no_effect doubling plain_Errorf
                   sample_status_request 0 initial
                   "Method not allowed" StatusMethodNotAllowed _ None _)).
  reflexivity.
Defined.

Lemma handler_accept_effect_witness :
  ∃ req, Body sample_request = Some req ∧ valid req.
Proof.
  destruct (handler_accept_effect doubling plain_Errorf sample_request 0
              initial StatusAccepted
              {| Success := true;
                 Message := "Transaction initiated successfully";
                 Transaction := new_transaction "TRX-1" sample_order 0 |}
              (createOrderSagaHandler doubling plain_Errorf sample_request 0
                 initial).1.2
              (Some (executeSaga doubling plain_Errorf "TRX-1" sample_order)))
    as (req & Hb & Hv & _).
  - reflexivity.
  - exists req. split; assumption.
Defined.

(** ** The ledger operations at their edges *)

Section LedgerEdges.
Variable growslice : nat → nat → nat.

(** [append] never changes what an older header of the same slice reads. *)
Lemma append_keeps_prefix h s x h' s' :
  slice_ok h s → append growslice h s x = (h', s') →
  elems h' s = elems h s.
Proof.
  intros [Hlc Hca] Happ. unfold append in Happ.
  assert (Halloc : elems (h ++ [elems h s ++ x ::
            replicate (Nat.max (S (len s)) (growslice (cap s) (S (len s)))
                       - S (len s)) Step.zero]) s = elems h s).
  { unfold elems, array. destruct (ptr s) as [a|] eqn:Hp; [|done].
    destruct (decide (a < length h)) as [Hlt|Hge].
    - by rewrite lookup_app_l.
    - assert (Hnone : h !! a = None) by (apply lookup_ge_None; lia).
      unfold array in Hca. rewrite Hp, Hnone in Hca. simpl in Hca.
      assert (len s = 0) as -> by lia. done. }
  destruct (ptr s) as [a|] eqn:Hp.
  2:{ injection Happ as <- <-. exact Halloc. }
  destruct (len s <? cap s) eqn:Hlt.
  2:{ injection Happ as <- <-. exact Halloc. }
  apply Nat.ltb_lt in Hlt. injection Happ as <- <-.
  assert (Ha : h !! a = Some (array h s)) by (apply array_lookup; [done|lia]).
  unfold elems. unfold array at 1. rewrite Hp.
  rewrite list_lookup_insert_eq by (by eapply lookup_lt_Some). simpl.
  by rewrite take_insert_ge by lia.
Qed.

(** On a present transaction with a usable header, [addStep] appends exactly
    one step (PENDING, started now, not ended, no error) after the existing
    ones and changes nothing else of the entry, of the other entries or of
    the counter; a copy of the transaction taken before the call still reads
    the ledger as it was. *)
Theorem addStep_appends_pending σ tid name now x :
  transactions σ !! tid = Some x →
  slice_ok (heap σ) (Transaction.Steps x) →
  let σ' := addStep growslice tid name now σ in
  ∃ x',
    transactions σ' !! tid = Some x' ∧
    Transaction.set_Steps (Transaction.Steps x) x' = x ∧
    elems (heap σ') (Transaction.Steps x')
    = elems (heap σ) (Transaction.Steps x)
      ++ [ {| Step.Name := name; Step.Status := TransactionStatusPending;
              Step.StartedAt := Some now; Step.EndedAt := None;
              Step.Error := "" |} ] ∧
    elems (heap σ') (Transaction.Steps x)
    = elems (heap σ) (Transaction.Steps x) ∧
    nextID σ' = nextID σ ∧
    (∀ tid', tid' ≠ tid → transactions σ' !! tid' = transactions σ !! tid').
Proof.
  intros Hx Hok σ'.
  destruct (addStep_spec growslice σ tid name now x Hx Hok)
    as (s' & (Htr & Hn & _ & _) & Hel).
  fold σ' in Htr, Hn, Hel.
  exists (Transaction.set_Steps s' x). rewrite Htr, lookup_insert_eq.
  split_and!; try done.
  - by destruct x.
  - unfold σ', addStep. rewrite Hx.
    destruct (append growslice (heap σ) (Transaction.Steps x) _)
      as [h' s''] eqn:Happ. simpl.
    by eapply append_keeps_prefix.
  - intros tid' Hne. by rewrite lookup_insert_ne.
Qed.

(** On an id the map does not hold, [addStep], [updateStepStatus] and
    [updateTransactionStatus] leave the memory as it is, while the critical
    section of [executeSaga] that records the order id reads the zero
    [Transaction] and stores it under that id. *)
Theorem missing_transaction σ tid :
  transactions σ !! tid = None →
  (∀ name now, addStep growslice tid name now σ = σ) ∧
  (∀ name success err now, updateStepStatus tid name success err now σ = σ) ∧
  (∀ status reason now, updateTransactionStatus tid status reason now σ = σ) ∧
  (∀ oid now,
     transactions (setOrderID tid oid now σ) !! tid
     = Some (Transaction.set_OrderID oid Transaction.zero) ∧
     heap (setOrderID tid oid now σ) = heap σ).
Proof.
  intros Hx. unfold addStep, updateStepStatus, updateTransactionStatus,
    setOrderID. rewrite Hx. split_and!; try done.
  intros oid now. simpl. by rewrite lookup_insert_eq.
Qed.

End LedgerEdges.

Lemma addStep_appends_pending_witness :
  let σ := (createOrderSagaHandler doubling plain_Errorf
              sample_request 0 initial).1.2 in
  ∃ x', transactions (addStep doubling "TRX-1" "CREATE_ORDER" 100 σ)
          !! "TRX-1" = Some x'.
Proof.
  intros σ.
  destruct (addStep_appends_pending doubling σ "TRX-1" "CREATE_ORDER" 100
              (new_transaction "TRX-1" sample_order 0))
    as (x' & Hx' & _).
  - vm_compute. reflexivity.
  - split; simpl; lia.
  - exists x'. assumption.
Defined.

Lemma missing_transaction_witness :
  addStep doubling "TRX-9" "CREATE_ORDER" 100 initial = initial.
Proof.
  refine (proj1 (missing_transaction doubling initial "TRX-9" _) _ _).
  reflexivity.
Defined.

(** ** What the forward steps return *)

Ltac run_steps :=
  repeat first
    [ rewrite run_bind | rewrite run_locked | rewrite run_http_post
    | rewrite run_mret ];
  cbn [fst snd state ticks calls].

Section ForwardResults.
Variable growslice : nat → nat → nat.
Variable Errorf : string → string.

Lemma createOrder_nil_iff w tid req :
  (returned w (createOrder growslice Errorf tid req)).2 = None ↔
  json_Marshal (orderReq req) = None ∧
  ∃ resp, http_Post w (OrderServiceURL +:+ "/create-order") (orderReq req)
          = Envelope resp ∧
          Reply.Success resp = true.
Proof.
  unfold returned, createOrder.
  destruct (json_Marshal (orderReq req)) as [e1|].
  { run_steps. split; [done|]. by intros [? _]. }
  destruct (http_Post w (OrderServiceURL +:+ "/create-order") (orderReq req))
    as [e|e|e|r1] eqn:Hp.
  1-3: run_steps; rewrite Hp; run_steps;
       (split; [done|]; intros (_ & ? & ? & _); congruence).
  destruct (Reply.Success r1) eqn:Hs1; run_steps; rewrite Hp, Hs1; run_steps.
  - split; [|done]. intros _. split; [done|]. by exists r1.
  - split; [done|]. intros (_ & r & Hr & Hs). congruence.
Qed.

Lemma createOrder_success_id w tid req resp :
  json_Marshal (orderReq req) = None →
  http_Post w (OrderServiceURL +:+ "/create-order") (orderReq req)
  = Envelope resp →
  Reply.Success resp = true →
  (returned w (createOrder growslice Errorf tid req)).1 = Reply.OrderID resp.
Proof.
  intros Hm Hp Hs. unfold returned, createOrder. rewrite Hm.
  run_steps. rewrite Hp, Hs. by run_steps.
Qed.

Lemma createOrder_error_id w tid req :
  is_Some (returned w (createOrder growslice Errorf tid req)).2 →
  (returned w (createOrder growslice Errorf tid req)).1 = "".
Proof.
  unfold returned, createOrder.
  destruct (json_Marshal (orderReq req)) as [e1|]; [by run_steps|].
  destruct (http_Post w (OrderServiceURL +:+ "/create-order") (orderReq req))
    as [e|e|e|r1] eqn:Hp.
  1-3: by (run_steps; rewrite Hp; run_steps).
  destruct (Reply.Success r1) eqn:Hs1; run_steps; rewrite Hp, Hs1; run_steps;
    [by intros [? ?]|done].
Qed.

Lemma processPayment_nil_iff w tid oid amount :
  returned w (processPayment growslice Errorf tid oid amount) = None ↔
  json_Marshal (paymentReq oid amount) = None ∧
  ∃ resp, http_Post w (PaymentServiceURL +:+ "/process-payment")
            (paymentReq oid amount) = Envelope resp ∧
          Reply.Success resp = true.
Proof.
  unfold returned, processPayment.
  destruct (json_Marshal (paymentReq oid amount)) as [e1|].
  { run_steps. split; [done|]. by intros [? _]. }
  destruct (http_Post w (PaymentServiceURL +:+ "/process-payment")
              (paymentReq oid amount)) as [e|e|e|r1] eqn:Hp.
  1-3: run_steps; rewrite Hp; run_steps;
       (split; [done|]; intros (_ & ? & ? & _); congruence).
  destruct (Reply.Success r1) eqn:Hs1; run_steps; rewrite Hp, Hs1; run_steps.
  - split; [|done]. intros _. split; [done|]. by exists r1.
  - split; [done|]. intros (_ & r & Hr & Hs). congruence.
Qed.

Lemma startShipping_nil_iff w tid oid address :
  returned w (startShipping growslice Errorf tid oid address) = None ↔
  ∃ resp, http_Post w (ShippingServiceURL +:+ "/start-shipping")
            (shippingReq oid address) = Envelope resp ∧
          Reply.Success resp = true.
Proof.
  unfold returned, startShipping. rewrite shippingReq_marshals.
  destruct (http_Post w (ShippingServiceURL +:+ "/start-shipping")
              (shippingReq oid address)) as [e|e|e|r1] eqn:Hp.
  1-3: run_steps; rewrite Hp; run_steps;
       (split; [done|]; intros (? & ? & _); congruence).
  destruct (Reply.Success r1) eqn:Hs1; run_steps; rewrite Hp, Hs1; run_steps.
  - split; [|done]. intros _. by exists r1.
  - split; [done|]. intros (r & Hr & Hs). congruence.
Qed.

(** [createOrder] returns a nil error exactly when the body encodes and the
    order service answers with an envelope whose success flag is set; the id
    it returns is then the envelope's, and on every error it is empty.
    [processPayment] and [startShipping] return nil under the same condition
    on their own request. *)
Theorem forward_steps_succeed_iff w tid req oid amount address :
  ((returned w (createOrder growslice Errorf tid req)).2 = None ↔
   json_Marshal (orderReq req) = None ∧
   ∃ resp, http_Post w (OrderServiceURL +:+ "/create-order") (orderReq req)
           = Envelope resp ∧
           Reply.Success resp = true) ∧
  (∀ resp,
     json_Marshal (orderReq req) = None →
     http_Post w (OrderServiceURL +:+ "/create-order") (orderReq req)
     = Envelope resp →
     Reply.Success resp = true →
     returned w (createOrder growslice Errorf tid req)
     = (Reply.OrderID resp, None)) ∧
  (is_Some (returned w (createOrder growslice Errorf tid req)).2 →
   (returned w (createOrder growslice Errorf tid req)).1 = "") ∧
  (returned w (processPayment growslice Errorf tid oid amount) = None ↔
   json_Marshal (paymentReq oid amount) = None ∧
   ∃ resp, http_Post w (PaymentServiceURL +:+ "/process-payment")
             (paymentReq oid amount) = Envelope resp ∧
           Reply.Success resp = true) ∧
  (returned w (startShipping growslice Errorf tid oid address) = None ↔
   ∃ resp, http_Post w (ShippingServiceURL +:+ "/start-shipping")
             (shippingReq oid address) = Envelope resp ∧
           Reply.Success resp = true).
Proof.
  split; [apply createOrder_nil_iff|].
  split.
  { intros resp Hm Hp Hs. apply injective_projections; simpl.
    - by apply createOrder_success_id.
    - apply createOrder_nil_iff. split; [done|]. by exists resp. }
  split; [apply createOrder_error_id|].
  split; [apply processPayment_nil_iff|apply startShipping_nil_iff].
Qed.

(** When the order service refuses (an envelope with success=false),
    [createOrder] ledgers the step FAILED with the envelope's message as it
    is, and returns the message passed through [fmt.Errorf] as a format. *)
Theorem createOrder_refused w tid req c x l resp :
  tracks (state c) tid x l →
  Forall (λ s, Step.Name s ≠ "CREATE_ORDER") l →
  json_Marshal (orderReq req) = None →
  http_Post w (OrderServiceURL +:+ "/create-order") (orderReq req)
  = Envelope resp →
  Reply.Success resp = false →
  let r := run w (createOrder growslice Errorf tid req) c in
  r.1 = ("", Some (Errorf (Reply.Message resp))) ∧
  ∃ st,
    tracks (state r.2) tid x (l ++ [st]) ∧
    Step.Name st = "CREATE_ORDER" ∧
    Step.Status st = TransactionStatusFailed ∧
    Step.Error st = Reply.Message resp ∧
    is_Some (Step.EndedAt st).
Proof.
  intros Ht Hl Hm Hp Hs. unfold createOrder. rewrite Hm.
  run_steps. rewrite Hp, Hs. run_steps. split; [done|].
  eexists. split; [by apply tracks_bracket|]. by split_and!.
Qed.

End ForwardResults.

(** The order service refuses the first order of a fresh server. *)
Lemma createOrder_refused_witness :
  (run {| http_Post := λ _ _, refusal "Out of stock";
          time_Now := λ n, Z.of_nat n |}
     (createOrder doubling plain_Errorf "TRX-1" sample_order)
     (start (createOrderSagaHandler doubling plain_Errorf sample_request 0
               initial).1.2)).1
  = ("", Some "Out of stock").
Proof.
  refine (proj1 (createOrder_refused doubling plain_Errorf
                   {| http_Post := λ _ _, refusal "Out of stock";
                      time_Now := λ n, Z.of_nat n |}
                   "TRX-1" sample_order _
                   (new_transaction "TRX-1" sample_order 0) []
                   {| Reply.Success := false; Reply.Message := "Out of stock";
                      Reply.OrderID := ""; Reply.PaymentID := "";
                      Reply.ShippingID := ""; Reply.Status := "" |}
                   _ _ _ _ _)).
  - exists emptySlice. split; [vm_compute; reflexivity|].
    split; [split; simpl; lia|reflexivity].
  - apply Forall_nil. exact I.
  - vm_compute. reflexivity.
  - reflexivity.
  - reflexivity.
Defined.

(** ** The shipping compensation *)

Section ShippingCompensation.
Variable growslice : nat → nat → nat.

(** [cancelShipping] posts one request to /cancel-shipping with the order id
    and ledgers one CANCEL_SHIPPING step: FAILED with the transport error
    when [http.Post] errs, COMPLETED with no error text for any response
    (the response is closed unread). *)
Theorem cancelShipping_ledgers w tid oid c x l :
  tracks (state c) tid x l →
  Forall (λ s, Step.Name s ≠ "CANCEL_SHIPPING") l →
  let r := run w (cancelShipping growslice tid oid) c in
  let res := http_Post w (ShippingServiceURL +:+ "/cancel-shipping")
               (cancelReq oid) in
  ∃ st,
    tracks (state r.2) tid x (l ++ [st]) ∧
    Step.Name st = "CANCEL_SHIPPING" ∧
    is_Some (Step.EndedAt st) ∧
    match res with
    | PostError e =>
        Step.Status st = TransactionStatusFailed ∧ Step.Error st = e
    | _ => Step.Status st = TransactionStatusCompleted ∧ Step.Error st = ""
    end ∧
    calls r.2 = calls c ++ [(ShippingServiceURL +:+ "/cancel-shipping",
                             cancelReq oid)].
Proof.
  intros Ht Hl. unfold cancelShipping. rewrite cancelReq_marshals.
  destruct (http_Post w (ShippingServiceURL +:+ "/cancel-shipping")
              (cancelReq oid)) as [e|e|e|resp] eqn:Hp;
    cbv zeta; run_steps; rewrite Hp; run_steps;
    (eexists; split; [by apply tracks_bracket|by split_and!]).
Qed.

End ShippingCompensation.

(** The shipping service is unreachable when the first transaction of a
    fresh server is compensated. *)
Lemma cancelShipping_ledgers_witness :
  ∃ st,
    tracks
      (state (run world_no_order (cancelShipping doubling "TRX-1" "ORD-1")
                (start (createOrderSagaHandler doubling plain_Errorf
                          sample_request 0 initial).1.2)).2)
      "TRX-1" (new_transaction "TRX-1" sample_order 0) ([] ++ [st]) ∧
    Step.Name st = "CANCEL_SHIPPING".
Proof.
  destruct (cancelShipping_ledgers doubling world_no_order "TRX-1" "ORD-1"
              (start (createOrderSagaHandler doubling plain_Errorf
                        sample_request 0 initial).1.2)
              (new_transaction "TRX-1" sample_order 0) [])
    as (st & Ht & Hn & _).
  - exists emptySlice. split; [vm_compute; reflexivity|].
    split; [split; simpl; lia|reflexivity].
  - apply Forall_nil. exact I.
  - exists st. split; assumption.
Defined.

(** * The running server: invariants *)

(** ** What a saga goroutine does to the memory *)

(** What no critical section of a saga undoes: the identity of the entry (ID,
    customer, amount, address, creation time) and the step names already in
    its ledger, which can only be followed by more. *)
Definition kept (σ σ' : State) (x x' : Transaction.t) : Prop :=
  Transaction.ID x' = Transaction.ID x ∧
  Transaction.CustomerID x' = Transaction.CustomerID x ∧
  Transaction.Amount x' = Transaction.Amount x ∧
  Transaction.Address x' = Transaction.Address x ∧
  Transaction.CreatedAt x' = Transaction.CreatedAt x ∧
  map Step.Name (elems (heap σ) (Transaction.Steps x))
    `prefix_of` map Step.Name (elems (heap σ') (Transaction.Steps x')).

Lemma kept_refl σ x : kept σ σ x x.
Proof. by split_and!. Qed.

Lemma kept_trans σ1 σ2 σ3 x1 x2 x3 :
  kept σ1 σ2 x1 x2 → kept σ2 σ3 x2 x3 → kept σ1 σ3 x1 x3.
Proof.
  intros (H1 & H2 & H3 & H4 & H5 & H6) (G1 & G2 & G3 & G4 & G5 & G6).
  split_and!; try congruence. by etrans.
Qed.

Lemma end_step_names name success err now l :
  map Step.Name (end_step name success err now l) = map Step.Name l.
Proof.
  unfold end_step. destruct (list_find _ l) as [[i st]|]; [|done].
  change (map Step.Name) with (fmap (M:=list) Step.Name).
  rewrite (list_fmap_alter Step.Name _ id).
  - by apply list_alter_id.
  - apply Forall_forall. intros st' _. by destruct success.
Qed.

(** A critical section is quiet on [tid] when, on a present transaction with
    a usable header, it rewrites only that entry, within its own arrays,
    keeping its identity, its ledger so far, its Status and CompletedAt. *)
Definition quiet (tid : string) (f : Z → State → State) : Prop :=
  ∀ now σ x,
    transactions σ !! tid = Some x →
    slice_ok (heap σ) (Transaction.Steps x) →
    ∃ x', step_on tid σ (f now σ) x x' ∧
          kept σ (f now σ) x x' ∧
          Transaction.Status x' = Transaction.Status x ∧
          Transaction.CompletedAt x' = Transaction.CompletedAt x.

(** A critical section is closing on [tid] when it does the same but leaves
    the entry in a terminal status with its completion time set. *)
Definition closing (tid : string) (f : Z → State → State) : Prop :=
  ∀ now σ x,
    transactions σ !! tid = Some x →
    slice_ok (heap σ) (Transaction.Steps x) →
    ∃ x', step_on tid σ (f now σ) x x' ∧
          kept σ (f now σ) x x' ∧
          (Transaction.Status x' = TransactionStatusCompleted ∨
           Transaction.Status x' = TransactionStatusFailed) ∧
          is_Some (Transaction.CompletedAt x').

(** Code all of whose critical sections are quiet on [tid]. *)
Inductive quiet_prog {A : Type} (tid : string) : Prog A → Prop :=
| qp_ret a : quiet_prog tid (Ret a)
| qp_atomic f k :
    quiet tid f → quiet_prog tid k → quiet_prog tid (Atomic f k)
| qp_post url body k :
    (∀ res, quiet_prog tid (k res)) → quiet_prog tid (HttpPost url body k).

(** The code a saga goroutine for [tid] can still have to run: quiet
    sections and calls, and at most one closing section, after which it is
    finished. *)
Inductive saga_like (tid : string) : Prog unit → Prop :=
| sl_ret : saga_like tid (Ret tt)
| sl_quiet f k :
    quiet tid f → saga_like tid k → saga_like tid (Atomic f k)
| sl_closing f : closing tid f → saga_like tid (Atomic f (Ret tt))
| sl_post url body k :
    (∀ res, saga_like tid (k res)) → saga_like tid (HttpPost url body k).

Lemma saga_like_bind {A : Type} tid (m : Prog A) (k : A → Prog unit) :
  quiet_prog tid m → (∀ a, saga_like tid (k a)) → saga_like tid (m ≫= k).
Proof.
  change (m ≫= k) with (bind m k).
  induction 1 as [a|f m Hf Hm IH|url body c Hc IH]; intros Hk; simpl.
  - apply Hk.
  - apply sl_quiet; auto.
  - apply sl_post. intros res. by apply IH.
Qed.

Lemma quiet_prog_bind {A B : Type} tid (m : Prog A) (k : A → Prog B) :
  quiet_prog tid m → (∀ a, quiet_prog tid (k a)) → quiet_prog tid (m ≫= k).
Proof.
  change (m ≫= k) with (bind m k).
  induction 1 as [a|f m Hf Hm IH|url body c Hc IH]; intros Hk; simpl.
  - apply Hk.
  - apply qp_atomic; auto.
  - apply qp_post. intros res. by apply IH.
Qed.

Lemma quiet_prog_locked tid f : quiet tid f → quiet_prog tid (locked f).
Proof. intros Hf. apply qp_atomic; [done|apply qp_ret]. Qed.

Lemma quiet_prog_http_post tid url body :
  quiet_prog tid (http_post url body).
Proof. apply qp_post. intros res. apply qp_ret. Qed.

Section Goroutines.
Variable growslice : nat → nat → nat.
Variable Errorf : string → string.

Lemma quiet_addStep tid name : quiet tid (addStep growslice tid name).
Proof.
  intros now σ x Hx Hok.
  destruct (addStep_spec growslice σ tid name now x Hx Hok)
    as (s' & Hs & Hel).
  exists (Transaction.set_Steps s' x). split; [done|]. split; [|done].
  split_and!; try done. rewrite Steps_set_Steps, Hel, map_app.
  by apply prefix_app_r.
Qed.

Lemma quiet_updateStepStatus tid name success err :
  quiet tid (updateStepStatus tid name success err).
Proof.
  intros now σ x Hx Hok.
  destruct (updateStepStatus_spec σ tid name success err now x Hx Hok)
    as (Hs & Hel).
  exists x. split; [done|]. split; [|done].
  split_and!; try done. by rewrite Hel, end_step_names.
Qed.

Lemma quiet_setOrderID tid oid : quiet tid (setOrderID tid oid).
Proof.
  intros now σ x Hx Hok.
  destruct (setOrderID_spec σ tid oid now x Hx Hok) as (Hs & Hh).
  exists (Transaction.set_OrderID oid x). split; [done|]. split; [|done].
  split_and!; try done; by rewrite Hh.
Qed.

Lemma closing_completed tid :
  closing tid (updateTransactionStatus tid TransactionStatusCompleted "").
Proof.
  intros now σ x Hx Hok.
  destruct (updateTransactionStatus_spec σ tid TransactionStatusCompleted ""
              now x Hx Hok) as (x' & Hs & Hh & _ & ->).
  eexists. split; [exact Hs|]. split.
  - split_and!; try done; by rewrite Hh.
  - split; [by left|by eexists].
Qed.

Lemma closing_failed tid reason :
  closing tid (updateTransactionStatus tid TransactionStatusFailed reason).
Proof.
  intros now σ x Hx Hok.
  destruct (updateTransactionStatus_spec σ tid TransactionStatusFailed reason
              now x Hx Hok) as (x' & Hs & Hh & _ & ->).
  eexists. split; [exact Hs|]. split.
  - split_and!; try done; by rewrite Hh.
  - split; [by right|by eexists].
Qed.

Ltac quiet_steps :=
  repeat first
    [ apply quiet_prog_locked
    | apply quiet_prog_http_post
    | apply qp_ret
    | apply quiet_addStep
    | apply quiet_updateStepStatus
    | apply quiet_setOrderID
    | match goal with
      | |- quiet_prog _ (match json_Marshal ?b with _ => _ end) =>
          destruct (json_Marshal b)
      | |- quiet_prog _ (match ?r with PostError _ => _ | _ => _ end) =>
          destruct r
      | |- quiet_prog _ (if ?b then _ else _) => destruct b
      end
    | apply quiet_prog_bind; [|intros ?] ].

Lemma quiet_createOrder tid req :
  quiet_prog tid (createOrder growslice Errorf tid req).
Proof. unfold createOrder. quiet_steps. Qed.

Lemma quiet_processPayment tid oid amount :
  quiet_prog tid (processPayment growslice Errorf tid oid amount).
Proof. unfold processPayment. quiet_steps. Qed.

Lemma quiet_startShipping tid oid address :
  quiet_prog tid (startShipping growslice Errorf tid oid address).
Proof. unfold startShipping. quiet_steps. Qed.

Lemma quiet_cancelOrder tid oid :
  quiet_prog tid (cancelOrder growslice tid oid).
Proof. unfold cancelOrder. quiet_steps. Qed.

Lemma quiet_refundPayment tid oid :
  quiet_prog tid (refundPayment growslice tid oid).
Proof. unfold refundPayment. quiet_steps. Qed.

Lemma saga_like_executeSaga tid req :
  saga_like tid (executeSaga growslice Errorf tid req).
Proof.
  unfold executeSaga.
  apply saga_like_bind; [apply quiet_createOrder|]. intros [oid [e|]].
  { apply sl_closing, closing_failed. }
  apply saga_like_bind; [apply quiet_prog_locked, quiet_setOrderID|].
  intros _.
  apply saga_like_bind; [apply quiet_processPayment|]. intros [e|].
  { apply saga_like_bind; [apply quiet_cancelOrder|]. intros _.
    apply sl_closing, closing_failed. }
  apply saga_like_bind; [apply quiet_startShipping|]. intros [e|].
  { apply saga_like_bind; [apply quiet_refundPayment|]. intros _.
    apply saga_like_bind; [apply quiet_cancelOrder|]. intros _.
    apply sl_closing, closing_failed. }
  apply sl_closing, closing_completed.
Qed.

End Goroutines.

(** ** The invariant of the running server *)

(** The status is one of the three constants, and the completion time is
    unset exactly while it is PENDING. *)
Definition status_ok (x : Transaction.t) : Prop :=
  (Transaction.Status x = TransactionStatusPending ∨
   Transaction.Status x = TransactionStatusCompleted ∨
   Transaction.Status x = TransactionStatusFailed) ∧
  (Transaction.CompletedAt x = None ↔
   Transaction.Status x = TransactionStatusPending).

(** An id the handler has handed out: "TRX-k" for a k below the counter. *)
Definition issued (σ : State) (tid : string) : Prop :=
  ∃ k : Z, tid = "TRX-" +:+ pretty k ∧ (1 ≤ k < nextID σ)%Z.

(** [owners] lists, goroutine by goroutine, the transaction each was started
    for. *)
Record Inv (owners : list string) (s : System) : Prop := {
  inv_counter : (1 ≤ nextID (mem s))%Z;
  inv_entries : ∀ tid x,
    transactions (mem s) !! tid = Some x →
    issued (mem s) tid ∧ Transaction.ID x = tid ∧ status_ok x ∧
    slice_ok (heap (mem s)) (Transaction.Steps x);
  inv_apart : ∀ tid1 tid2 x1 x2 a,
    tid1 ≠ tid2 →
    transactions (mem s) !! tid1 = Some x1 →
    transactions (mem s) !! tid2 = Some x2 →
    ptr (Transaction.Steps x1) = Some a →
    ptr (Transaction.Steps x2) = Some a →
    0 < cap (Transaction.Steps x1) → 0 < cap (Transaction.Steps x2) → False;
  inv_owners_length : length owners = length (pool s);
  inv_owners_nodup : NoDup owners;
  inv_tasks : ∀ g tid p,
    owners !! g = Some tid → pool s !! g = Some p →
    saga_like tid p ∧ issued (mem s) tid ∧
    (p ≠ Ret tt →
     ∃ x, transactions (mem s) !! tid = Some x ∧
          Transaction.Status x = TransactionStatusPending)
}.

(** What a transition keeps of the transactions that are no longer
    PENDING: the entry, and the steps its header reads. *)
Definition preserved (s s' : System) : Prop :=
  ∀ tid x,
    transactions (mem s) !! tid = Some x →
    Transaction.Status x ≠ TransactionStatusPending →
    transactions (mem s') !! tid = Some x ∧
    elems (heap (mem s')) (Transaction.Steps x)
    = elems (heap (mem s)) (Transaction.Steps x).

Lemma preserved_refl s : preserved s s.
Proof. by intros tid x Hx _. Qed.

Lemma preserved_trans s1 s2 s3 :
  preserved s1 s2 → preserved s2 s3 → preserved s1 s3.
Proof.
  intros H12 H23 tid x Hx Hs.
  destruct (H12 tid x Hx Hs) as [Hx2 He2].
  destruct (H23 tid x Hx2 Hs) as [Hx3 He3].
  split; [done|congruence].
Qed.

(** A transition that leaves alone every transaction but [tid]: entry and
    steps. *)
Definition others_same (tid : string) (s s' : System) : Prop :=
  ∀ tid2 x2,
    tid2 ≠ tid →
    transactions (mem s) !! tid2 = Some x2 →
    transactions (mem s') !! tid2 = Some x2 ∧
    elems (heap (mem s')) (Transaction.Steps x2)
    = elems (heap (mem s)) (Transaction.Steps x2).

(** Nothing is ever deleted or rewritten beyond recognition: every entry
    stays, with its identity and the step names it already had. *)
Definition extends (s s' : System) : Prop :=
  ∀ tid x,
    transactions (mem s) !! tid = Some x →
    ∃ x', transactions (mem s') !! tid = Some x' ∧ kept (mem s) (mem s') x x'.

Lemma extends_refl s : extends s s.
Proof. intros tid x Hx. exists x. split; [done|apply kept_refl]. Qed.

Lemma extends_trans s1 s2 s3 : extends s1 s2 → extends s2 s3 → extends s1 s3.
Proof.
  intros H12 H23 tid x Hx.
  destruct (H12 tid x Hx) as (x2 & Hx2 & Hk2).
  destruct (H23 tid x2 Hx2) as (x3 & Hx3 & Hk3).
  exists x3. split; [done|by eapply kept_trans].
Qed.

Lemma transaction_id_inj (k1 k2 : Z) :
  "TRX-" +:+ pretty k1 = "TRX-" +:+ pretty k2 → k1 = k2.
Proof. simpl. intros [= H]. by apply (inj pretty). Qed.

Lemma issued_mono σ σ' tid :
  (nextID σ ≤ nextID σ')%Z → issued σ tid → issued σ' tid.
Proof. intros Hle (k & -> & Hk). exists k. split; [done|lia]. Qed.

(** A slice of another transaction is out of reach of an operation that
    keeps to the arrays of [s]. *)
Lemma frame_other h h' s s' s2 :
  heap_frame h h' s s' → slice_ok h s2 →
  (∀ a, ptr s = Some a → ptr s2 = Some a → 0 < cap s → 0 < cap s2 → False) →
  slice_ok h' s2 ∧ elems h' s2 = elems h s2.
Proof.
  intros (Hlen & Hfr & _) [Hlc Hca] Hsep.
  destruct (decide (cap s2 = 0)) as [Hz|Hnz].
  { split; [split; lia|]. unfold elems.
    by replace (len s2) with 0 by lia. }
  destruct (ptr s2) as [b|] eqn:Hp2.
  2:{ unfold array in Hca. rewrite Hp2 in Hca. simpl in Hca. lia. }
  assert (Hb : h !! b = Some (array h s2))
    by (apply array_lookup; [done|lia]).
  assert (Hsame : h' !! b = h !! b).
  { apply Hfr; [by eapply lookup_lt_Some|].
    intros Hps. destruct (decide (cap s = 0)) as [|Hc]; [done|].
    exfalso. apply (Hsep b); [done|done|lia|lia]. }
  assert (Harr : array h' s2 = array h s2)
    by (unfold array; rewrite Hp2; by rewrite Hsame).
  split; [split; [done|by rewrite Harr]|]. unfold elems. by rewrite Harr.
Qed.

Lemma slice_ptr_valid h s a :
  slice_ok h s → ptr s = Some a → 0 < cap s → a < length h.
Proof.
  intros [_ Hca] Hp Hc.
  assert (Ha : h !! a = Some (array h s))
    by (apply array_lookup; [done|lia]).
  by eapply lookup_lt_Some.
Qed.

(** A critical section of goroutine [g], owner of [tid], keeps the
    invariant. *)
Lemma atomic_step_inv owners s g tid f k σ' x x' :
  Inv owners s →
  owners !! g = Some tid →
  pool s !! g = Some (Atomic f k) →
  transactions (mem s) !! tid = Some x →
  Transaction.Status x = TransactionStatusPending →
  step_on tid (mem s) σ' x x' →
  Transaction.ID x' = Transaction.ID x →
  status_ok x' →
  saga_like tid k →
  (k ≠ Ret tt → Transaction.Status x' = TransactionStatusPending) →
  Inv owners {| mem := σ'; pool := <[g := k]> (pool s) |} ∧
  others_same tid s {| mem := σ'; pool := <[g := k]> (pool s) |}.
Proof.
  intros [Hcnt Hent Hapart Hlen Hnd Htasks] Hog Hpg Hx Hpend
    (Htr & Hn & Hok' & Hfr) Hid Hst Hk Hlive.
  destruct (Hent tid x Hx) as (Hiss & HID & _ & Hokx).
  assert (Hother : ∀ tid2 x2, tid2 ≠ tid →
            transactions (mem s) !! tid2 = Some x2 →
            slice_ok (heap σ') (Transaction.Steps x2) ∧
            elems (heap σ') (Transaction.Steps x2)
            = elems (heap (mem s)) (Transaction.Steps x2)).
  { intros tid2 x2 Hne Hx2.
    destruct (Hent tid2 x2 Hx2) as (_ & _ & _ & Hok2).
    eapply frame_other; [exact Hfr|exact Hok2|].
    intros a Hpa Hpa2 Hc Hc2.
    by apply (Hapart tid tid2 x x2 a). }
  split.
  - split; cbn [mem pool].
    + by rewrite Hn.
    + intros tid2 x2 Hx2. rewrite Htr in Hx2.
      destruct (decide (tid2 = tid)) as [->|Hne].
      * rewrite lookup_insert_eq in Hx2. injection Hx2 as <-.
        refine (conj _ (conj _ (conj Hst Hok'))); [|congruence].
        eapply issued_mono; [|exact Hiss]. lia.
      * rewrite lookup_insert_ne in Hx2 by done.
        destruct (Hent tid2 x2 Hx2) as (Hiss2 & HID2 & Hst2 & _).
        refine (conj _ (conj HID2 (conj Hst2 _)));
          [|exact (proj1 (Hother tid2 x2 Hne Hx2))].
        eapply issued_mono; [|exact Hiss2]. lia.
    + intros tid1 tid2 x1 x2 a Hne H1 H2 Hp1 Hp2 Hc1 Hc2.
      rewrite Htr in H1, H2.
      assert (Hmoved : ∀ tid3 x3, tid3 ≠ tid →
                transactions (mem s) !! tid3 = Some x3 →
                ptr (Transaction.Steps x') = Some a →
                ptr (Transaction.Steps x3) = Some a →
                0 < cap (Transaction.Steps x') →
                0 < cap (Transaction.Steps x3) → False).
      { intros tid3 x3 Hne3 Hx3 Hpa Hpa3 Hca Hca3.
        destruct (Hent tid3 x3 Hx3) as (_ & _ & _ & Hok3).
        destruct Hfr as (_ & _ & [[Hsp Hsc]|(b & Hpb & Hfresh)]).
        - apply (Hapart tid tid3 x x3 a); try done; congruence.
        - assert (a = b) as -> by congruence.
          pose proof (slice_ptr_valid _ _ _ Hok3 Hpa3 Hca3). lia. }
      destruct (decide (tid1 = tid)) as [->|Hne1];
        destruct (decide (tid2 = tid)) as [->|Hne2]; [done| | |].
      * rewrite lookup_insert_eq in H1. injection H1 as <-.
        rewrite lookup_insert_ne in H2 by done.
        by apply (Hmoved tid2 x2).
      * rewrite lookup_insert_eq in H2. injection H2 as <-.
        rewrite lookup_insert_ne in H1 by done.
        by apply (Hmoved tid1 x1).
      * rewrite lookup_insert_ne in H1, H2 by done.
        by apply (Hapart tid1 tid2 x1 x2 a).
    + by rewrite length_insert.
    + done.
    + intros g2 tid2 p Hog2 Hp.
      destruct (decide (g2 = g)) as [->|Hneg].
      * assert (tid2 = tid) as -> by congruence.
        rewrite list_lookup_insert_eq in Hp by (by eapply lookup_lt_Some).
        injection Hp as <-. refine (conj Hk (conj _ _)).
        { eapply issued_mono; [|exact Hiss]. lia. }
        intros Hl. exists x'. rewrite Htr, lookup_insert_eq.
        split; [done|by apply Hlive].
      * rewrite list_lookup_insert_ne in Hp by done.
        destruct (Htasks g2 tid2 p Hog2 Hp) as (Hsl & Hiss2 & Hlive2).
        refine (conj Hsl (conj _ _)).
        { eapply issued_mono; [|exact Hiss2]. lia. }
        intros Hl. destruct (Hlive2 Hl) as (x2 & Hx2 & Hs2).
        exists x2. split; [|done]. rewrite Htr.
        rewrite lookup_insert_ne; [done|].
        intros <-. apply Hneg. by eapply NoDup_lookup.
  - intros tid2 x2 Hne Hx2. cbn [mem].
    split; [|exact (proj2 (Hother tid2 x2 Hne Hx2))].
    by rewrite Htr, lookup_insert_ne.
Qed.

Lemma status_ok_pending x x' :
  status_ok x →
  Transaction.Status x' = Transaction.Status x →
  Transaction.CompletedAt x' = Transaction.CompletedAt x →
  status_ok x'.
Proof. unfold status_ok. intros H -> ->. exact H. Qed.

Lemma status_ok_terminal x :
  Transaction.Status x = TransactionStatusCompleted ∨
  Transaction.Status x = TransactionStatusFailed →
  is_Some (Transaction.CompletedAt x) →
  status_ok x.
Proof.
  intros Hs [t Ht]. split; [tauto|]. rewrite Ht.
  split; [done|]. intros Hp. by destruct Hs as [Hs|Hs]; rewrite Hs in Hp.
Qed.

Lemma int_wrap_succ (n : Z) :
  (1 ≤ n < max_int)%Z → int_wrap (n + 1) = (n + 1)%Z.
Proof.
  unfold int_wrap, max_int. intros Hn. rewrite Z.mod_small by lia. lia.
Qed.

Lemma issued_not_next σ tid :
  issued σ tid → tid ≠ next_transaction_id σ.
Proof.
  intros (k & -> & Hk) Heq. apply transaction_id_inj in Heq. lia.
Qed.

Section Transitions.
Variable growslice : nat → nat → nat.
Variable Errorf : string → string.

Lemma create_step_inv owners s r now req :
  Inv owners s → (nextID (mem s) < max_int)%Z →
  Method r = MethodPost → Body r = Some req → valid req →
  Inv (owners ++ [next_transaction_id (mem s)])
    (sys_step growslice Errorf s (ServeCreate r now)) ∧
  nextID (mem (sys_step growslice Errorf s (ServeCreate r now)))
  = (nextID (mem s) + 1)%Z ∧
  others_same (next_transaction_id (mem s)) s
    (sys_step growslice Errorf s (ServeCreate r now)) ∧
  transactions (mem s) !! next_transaction_id (mem s) = None.
Proof.
  intros [Hcnt Hent Hapart Hlen Hnd Htasks] Hmax Hm Hb Hv.
  unfold sys_step. rewrite (handler_accepts _ _ r now (mem s) req) by done.
  set (tid := next_transaction_id (mem s)).
  set (x0 := new_transaction tid req now).
  assert (Hnew : transactions (mem s) !! tid = None).
  { destruct (transactions (mem s) !! tid) as [x|] eqn:Hx; [|done].
    destruct (Hent tid x Hx) as (Hiss & _).
    by apply issued_not_next in Hiss. }
  assert (Hnext : int_wrap (nextID (mem s) + 1) = (nextID (mem s) + 1)%Z)
    by (apply int_wrap_succ; lia).
  assert (Hiss0 : ∀ σ', nextID σ' = (nextID (mem s) + 1)%Z → issued σ' tid).
  { intros σ' Hn. exists (nextID (mem s)). split; [done|lia]. }
  split; [|split; [|split]]; [| | |exact Hnew].
  - split; cbn [mem pool transactions nextID heap].
    + lia.
    + intros tid2 x2 Hx2.
      destruct (decide (tid2 = tid)) as [->|Hne].
      * rewrite lookup_insert_eq in Hx2. injection Hx2 as <-.
        refine (conj _ (conj eq_refl (conj _ (slice_ok_empty _)))).
        { by apply Hiss0. }
        split; [by left|done].
      * rewrite lookup_insert_ne in Hx2 by done.
        destruct (Hent tid2 x2 Hx2) as (Hiss2 & HID2 & Hst2 & Hok2).
        refine (conj _ (conj HID2 (conj Hst2 Hok2))).
        eapply issued_mono; [|exact Hiss2]. simpl. lia.
    + intros tid1 tid2 x1 x2 a Hne H1 H2 Hp1 Hp2 Hc1 Hc2.
      destruct (decide (tid1 = tid)) as [->|Hne1].
      { rewrite lookup_insert_eq in H1. injection H1 as <-.
        simpl in Hc1. lia. }
      destruct (decide (tid2 = tid)) as [->|Hne2].
      { rewrite lookup_insert_eq in H2. injection H2 as <-.
        simpl in Hc2. lia. }
      rewrite lookup_insert_ne in H1, H2 by done.
      by apply (Hapart tid1 tid2 x1 x2 a).
    + rewrite !length_app. simpl. lia.
    + apply NoDup_app. split; [done|]. split; [|apply NoDup_singleton].
      intros tid2 Hin Hin2. apply list_elem_of_singleton in Hin2 as ->.
      apply list_elem_of_lookup in Hin as [g Hg].
      destruct (lookup_lt_is_Some_2 (pool s) g) as [p Hp].
      { rewrite <- Hlen. by eapply lookup_lt_Some. }
      destruct (Htasks g tid p Hg Hp) as (_ & Hiss & _).
      by apply issued_not_next in Hiss.
    + intros g tid2 p Hog Hp.
      destruct (decide (g < length owners)) as [Hlt|Hge].
      * rewrite lookup_app_l in Hog by done.
        rewrite lookup_app_l in Hp by lia.
        destruct (Htasks g tid2 p Hog Hp) as (Hsl & Hiss2 & Hlive).
        refine (conj Hsl (conj _ _)).
        { eapply issued_mono; [|exact Hiss2]. simpl. lia. }
        intros Hl. destruct (Hlive Hl) as (x2 & Hx2 & Hs2).
        exists x2. split; [|done].
        rewrite lookup_insert_ne; [done|].
        intros Heq. apply issued_not_next in Hiss2. by apply Hiss2.
      * assert (g = length owners) as ->.
        { apply lookup_lt_Some in Hog. rewrite length_app in Hog.
          simpl in Hog. lia. }
        rewrite list_lookup_middle in Hog by done. injection Hog as <-.
        rewrite list_lookup_middle in Hp by done. injection Hp as <-.
        refine (conj (saga_like_executeSaga _ _ _ _) (conj _ _)).
        { by apply Hiss0. }
        intros _. exists x0. by rewrite lookup_insert_eq.
  - cbn [mem nextID]. done.
  - intros tid2 x2 Hne Hx2. cbn [mem transactions heap].
    split; [|done]. by rewrite lookup_insert_ne.
Qed.

Lemma receive_step_inv owners s g res :
  Inv owners s → Inv owners (sys_step growslice Errorf s (Receive g res)).
Proof.
  intros HI. unfold sys_step.
  destruct (pool s !! g) as [[a|f k|url body k]|] eqn:Hpg; try done.
  destruct HI as [Hcnt Hent Hapart Hlen Hnd Htasks].
  split; cbn [mem pool]; try done.
  - by rewrite length_insert.
  - intros g2 tid2 p Hog2 Hp.
    destruct (decide (g2 = g)) as [->|Hneg].
    + rewrite list_lookup_insert_eq in Hp by (by eapply lookup_lt_Some).
      injection Hp as <-.
      destruct (Htasks g tid2 _ Hog2 Hpg) as (Hsl & Hiss & Hlive).
      refine (conj _ (conj Hiss _)).
      * inversion Hsl; subst. auto.
      * intros _. by apply Hlive.
    + rewrite list_lookup_insert_ne in Hp by done.
      by apply Htasks with g2.
Qed.

(** A critical section of a goroutine leaves every transaction but one as it
    is, and changes that one only as a saga may. *)
Lemma enter_step_inv owners s g now :
  Inv owners s →
  Inv owners (sys_step growslice Errorf s (Enter g now)) ∧
  nextID (mem (sys_step growslice Errorf s (Enter g now))) = nextID (mem s) ∧
  ∃ tid,
    others_same tid s (sys_step growslice Errorf s (Enter g now)) ∧
    ∀ x, transactions (mem s) !! tid = Some x →
         Transaction.Status x = TransactionStatusPending ∧
         ∃ x', transactions (mem (sys_step growslice Errorf s (Enter g now)))
                 !! tid = Some x' ∧
               kept (mem s) (mem (sys_step growslice Errorf s (Enter g now)))
                 x x'.
Proof.
  intros HI. unfold sys_step.
  assert (Hidle : Inv owners s ∧ nextID (mem s) = nextID (mem s) ∧
            ∃ tid, others_same tid s s ∧
              ∀ x, transactions (mem s) !! tid = Some x →
                Transaction.Status x = TransactionStatusPending ∧
                ∃ x', transactions (mem s) !! tid = Some x' ∧
                      kept (mem s) (mem s) x x').
  { split; [done|]. split; [done|]. exists "".
    split; [by intros tid2 x2 _ Hx2|].
    intros x Hx. destruct (inv_entries _ _ HI "" x Hx) as (Hiss & _).
    destruct Hiss as (k & Hk & _). discriminate Hk. }
  destruct (pool s !! g) as [[a|f k|url body k]|] eqn:Hpg; try exact Hidle.
  clear Hidle.
  destruct (lookup_lt_is_Some_2 owners g) as [tid Hog].
  { rewrite (inv_owners_length _ _ HI). by eapply lookup_lt_Some. }
  destruct (inv_tasks _ _ HI g tid _ Hog Hpg) as (Hsl & Hiss & Hlive).
  destruct Hlive as (x & Hx & Hpend); [done|].
  destruct (inv_entries _ _ HI tid x Hx) as (_ & _ & Hst & Hok).
  inversion Hsl as [|f' k' Hq Hk|f' Hc|]; subst.
  - destruct (Hq now (mem s) x Hx Hok) as (x' & Hstep & Hkept & Hs & Hca).
    assert (Hlive' : k ≠ Ret tt →
              Transaction.Status x' = TransactionStatusPending)
      by (intros _; congruence).
    destruct (atomic_step_inv owners s g tid f k (f now (mem s)) x x'
                HI Hog Hpg Hx Hpend Hstep (proj1 Hkept)
                (status_ok_pending x x' Hst Hs Hca) Hk Hlive')
      as [HI' Hoth].
    split; [done|]. split; [cbn [mem]; apply Hstep|].
    exists tid. split; [done|]. intros y Hy.
    assert (y = x) as -> by congruence. split; [done|].
    exists x'. cbn [mem]. split; [|done].
    destruct Hstep as (Htr & _). by rewrite Htr, lookup_insert_eq.
  - destruct (Hc now (mem s) x Hx Hok) as (x' & Hstep & Hkept & Hs & Hca).
    assert (Hlive' : Ret tt ≠ Ret tt →
              Transaction.Status x' = TransactionStatusPending)
      by (by intros Hne).
    destruct (atomic_step_inv owners s g tid f (Ret tt) (f now (mem s)) x x'
                HI Hog Hpg Hx Hpend Hstep (proj1 Hkept)
                (status_ok_terminal x' Hs Hca) (sl_ret tid) Hlive')
      as [HI' Hoth].
    split; [done|]. split; [cbn [mem]; apply Hstep|].
    exists tid. split; [done|]. intros y Hy.
    assert (y = x) as -> by congruence. split; [done|].
    exists x'. cbn [mem]. split; [|done].
    destruct Hstep as (Htr & _). by rewrite Htr, lookup_insert_eq.
Qed.

Lemma others_same_preserved tid s s' :
  others_same tid s s' →
  (∀ x, transactions (mem s) !! tid = Some x →
        Transaction.Status x = TransactionStatusPending) →
  preserved s s'.
Proof.
  intros Hoth Hpend tid2 x2 Hx2 Hterm. apply Hoth; [|done].
  intros ->. by apply Hterm, Hpend.
Qed.

Lemma others_same_extends tid s s' :
  others_same tid s s' →
  (∀ x, transactions (mem s) !! tid = Some x →
        ∃ x', transactions (mem s') !! tid = Some x' ∧
              kept (mem s) (mem s') x x') →
  extends s s'.
Proof.
  intros Hoth Hown tid2 x2 Hx2.
  destruct (decide (tid2 = tid)) as [->|Hne]; [by apply Hown|].
  destruct (Hoth tid2 x2 Hne Hx2) as [Hx2' Hel].
  exists x2. split; [done|]. split_and!; try done. by rewrite Hel.
Qed.

Lemma sys_step_inv owners s e :
  Inv owners s → (nextID (mem s) < max_int)%Z →
  ∃ owners',
    Inv owners' (sys_step growslice Errorf s e) ∧
    (nextID (mem s) ≤ nextID (mem (sys_step growslice Errorf s e))
     ≤ nextID (mem s) + 1)%Z ∧
    preserved s (sys_step growslice Errorf s e) ∧
    extends s (sys_step growslice Errorf s e).
Proof.
  intros HI Hmax. destruct e as [r now|r|g now|g res].
  - destruct (handler_cases growslice Errorf r now (mem s))
      as [(req & Hm & Hb & Hv)|(msg & cd & Hrej)].
    + destruct (create_step_inv owners s r now req HI Hmax Hm Hb Hv)
        as (HI' & Hn & Hoth & Hnew).
      eexists. split; [exact HI'|]. split; [lia|]. split.
      * eapply others_same_preserved; [exact Hoth|]. intros x Hx. congruence.
      * eapply others_same_extends; [exact Hoth|]. intros x Hx. congruence.
    + exists owners. unfold sys_step. rewrite Hrej, app_nil_r.
      destruct s as [σ p]. split; [done|].
      split; [cbn [mem]; lia|]. split; [apply preserved_refl|apply extends_refl].
  - exists owners. split; [done|]. split; [simpl; lia|].
    split; [apply preserved_refl|apply extends_refl].
  - destruct (enter_step_inv owners s g now HI)
      as (HI' & Hn & tid & Hoth & Hown).
    exists owners. split; [done|]. split; [lia|]. split.
    + eapply others_same_preserved; [exact Hoth|]. intros x Hx.
      by destruct (Hown x Hx).
    + eapply others_same_extends; [exact Hoth|]. intros x Hx.
      by destruct (Hown x Hx).
  - exists owners. split; [by apply receive_step_inv|].
    assert (Hmem : mem (sys_step growslice Errorf s (Receive g res)) = mem s).
    { unfold sys_step. by destruct (pool s !! g) as [[?|?|?]|]. }
    split; [rewrite Hmem; lia|]. split.
    + intros tid x Hx _. by rewrite Hmem.
    + intros tid x Hx. exists x. rewrite Hmem. split; [done|apply kept_refl].
Qed.

Lemma Inv_boot : Inv [] boot.
Proof.
  split; cbn [mem pool boot initial transactions nextID heap]; try done.
  apply NoDup_nil_2.
Qed.

Lemma sys_run_inv owners s events :
  Inv owners s →
  (nextID (mem s) + Z.of_nat (length events) ≤ max_int)%Z →
  ∃ owners',
    Inv owners' (sys_run growslice Errorf s events) ∧
    (nextID (mem s) ≤ nextID (mem (sys_run growslice Errorf s events))
     ≤ nextID (mem s) + Z.of_nat (length events))%Z ∧
    preserved s (sys_run growslice Errorf s events) ∧
    extends s (sys_run growslice Errorf s events).
Proof.
  revert owners s. induction events as [|e events IH]; intros owners s HI Hmax.
  - exists owners. split; [done|]. split; [simpl; lia|].
    split; [apply preserved_refl|apply extends_refl].
  - cbn [length] in Hmax. unfold sys_run. cbn [foldl].
    destruct (sys_step_inv owners s e HI) as (owners1 & HI1 & Hn1 & Hp1 & He1);
      [lia|].
    destruct (IH owners1 _ HI1) as (owners2 & HI2 & Hn2 & Hp2 & He2); [lia|].
    exists owners2. split; [exact HI2|].
    split; [unfold sys_run in Hn2; cbn [length]; lia|]. split.
    + eapply preserved_trans; [exact Hp1|exact Hp2].
    + eapply extends_trans; [exact He1|exact He2].
Qed.

End Transitions.

(** ** Reachable memories *)

Section Reachable.
Variable growslice : nat → nat → nat.
Variable Errorf : string → string.

(** In every memory the server reaches (within the range of the [int]
    counter), each stored transaction has one of the three statuses, has its
    completion time unset exactly when it is PENDING, is stored under its own
    ID, and that ID is "TRX-k" for some k from 1 up to, but not including,
    the counter. *)
Theorem reachable_transactions_well_formed events tid x :
  (Z.of_nat (length events) < max_int)%Z →
  let s := sys_run growslice Errorf boot events in
  transactions (mem s) !! tid = Some x →
  (Transaction.Status x = TransactionStatusPending ∨
   Transaction.Status x = TransactionStatusCompleted ∨
   Transaction.Status x = TransactionStatusFailed) ∧
  (Transaction.CompletedAt x = None ↔
   Transaction.Status x = TransactionStatusPending) ∧
  Transaction.ID x = tid ∧
  ∃ k : Z, tid = "TRX-" +:+ pretty k ∧ (1 ≤ k < nextID (mem s))%Z.
Proof.
  intros Hlen s Hx.
  destruct (sys_run_inv growslice Errorf [] boot events Inv_boot)
    as (owners & HI & _); [simpl; lia|].
  destruct (inv_entries _ _ HI tid x Hx) as (Hiss & HID & [Hs Hc] & _).
  by split_and!.
Qed.

(** Once a transaction is COMPLETED or FAILED, no later transition of the
    server (start-saga requests, status requests, steps of any goroutine)
    changes its entry or the steps its header reads: a status request for it
    gets the same reply, encoded to the same content, ever after. *)
Theorem terminal_transaction_is_final events1 events2 tid x :
  (Z.of_nat (length events1 + length events2) < max_int)%Z →
  let s1 := sys_run growslice Errorf boot events1 in
  let s2 := sys_run growslice Errorf s1 events2 in
  transactions (mem s1) !! tid = Some x →
  Transaction.Status x = TransactionStatusCompleted ∨
  Transaction.Status x = TransactionStatusFailed →
  transactions (mem s2) !! tid = Some x ∧
  encode (heap (mem s2)) x = encode (heap (mem s1)) x ∧
  (∀ q, transaction_id q = tid →
        transactionStatusHandler q (mem s2)
        = transactionStatusHandler q (mem s1)).
Proof.
  intros Hlen s1 s2 Hx Hterm.
  destruct (sys_run_inv growslice Errorf [] boot events1 Inv_boot)
    as (owners1 & HI1 & Hn1 & _); [simpl; lia|].
  fold s1 in HI1, Hn1. simpl in Hn1.
  destruct (sys_run_inv growslice Errorf owners1 s1 events2 HI1)
    as (owners2 & _ & _ & Hpres & _); [lia|].
  fold s2 in Hpres.
  destruct (Hpres tid x Hx) as [Hx2 Hel].
  { intros Hp. by destruct Hterm as [Hs|Hs]; rewrite Hs in Hp. }
  split; [done|]. split.
  - unfold encode. by rewrite Hel.
  - intros q Hq. unfold transactionStatusHandler. by rewrite Hq, Hx2, Hx.
Qed.

(** Two accepted start-saga requests, with any transitions in between, get
    ids "TRX-k1" and "TRX-k2" with k1 < k2; the first id was not in the map
    before, and both transactions are handed back PENDING. *)
Theorem transaction_ids_increase events1 events2 r1 now1 r2 now2
    code1 resp1 σ1 spawned1 code2 resp2 σ2 spawned2 :
  (Z.of_nat (length events1 + 1 + length events2) < max_int)%Z →
  let s1 := sys_run growslice Errorf boot events1 in
  let s2 := sys_run growslice Errorf
              (sys_step growslice Errorf s1 (ServeCreate r1 now1)) events2 in
  createOrderSagaHandler growslice Errorf r1 now1 (mem s1)
  = (WriteJSON code1 resp1, σ1, spawned1) →
  createOrderSagaHandler growslice Errorf r2 now2 (mem s2)
  = (WriteJSON code2 resp2, σ2, spawned2) →
  ∃ k1 k2 : Z,
    Transaction.ID (Transaction resp1) = "TRX-" +:+ pretty k1 ∧
    Transaction.ID (Transaction resp2) = "TRX-" +:+ pretty k2 ∧
    (1 ≤ k1 < k2)%Z ∧
    Transaction.ID (Transaction resp1) ≠ Transaction.ID (Transaction resp2) ∧
    transactions (mem s1) !! Transaction.ID (Transaction resp1) = None ∧
    transactions (mem s2) !! Transaction.ID (Transaction resp2) = None ∧
    Transaction.Status (Transaction resp1) = TransactionStatusPending ∧
    Transaction.Status (Transaction resp2) = TransactionStatusPending.
Proof.
  intros Hlen s1 s2 H1 H2.
  destruct (sys_run_inv growslice Errorf [] boot events1 Inv_boot)
    as (owners1 & HI1 & Hn1 & _); [simpl; lia|].
  fold s1 in HI1, Hn1. simpl in Hn1.
  destruct (sys_step_inv growslice Errorf owners1 s1 (ServeCreate r1 now1) HI1)
    as (owners1' & HI1' & Hn1' & _); [lia|].
  destruct (sys_run_inv growslice Errorf owners1' _ events2 HI1')
    as (owners2 & HI2 & Hn2 & _); [lia|].
  fold s2 in HI2, Hn2.
  destruct (handler_cases growslice Errorf r1 now1 (mem s1))
    as [(req1 & Hm1 & Hb1 & Hv1)|(msg & cd & Hrej)]; [|congruence].
  rewrite (handler_accepts _ _ r1 now1 (mem s1) req1) in H1 by done.
  injection H1 as <- <- <- <-.
  destruct (handler_cases growslice Errorf r2 now2 (mem s2))
    as [(req2 & Hm2 & Hb2 & Hv2)|(msg & cd & Hrej)]; [|congruence].
  rewrite (handler_accepts _ _ r2 now2 (mem s2) req2) in H2 by done.
  injection H2 as <- <- <- <-.
  cbn [Transaction Transaction.ID Transaction.Status new_transaction].
  unfold next_transaction_id.
  assert (Hstep : nextID (mem (sys_step growslice Errorf s1
                                 (ServeCreate r1 now1)))
                  = (nextID (mem s1) + 1)%Z).
  { unfold sys_step.
    rewrite (handler_accepts _ _ r1 now1 (mem s1) req1) by done.
    cbn [mem nextID]. apply int_wrap_succ.
    pose proof (inv_counter _ _ HI1). lia. }
  pose proof (inv_counter _ _ HI1) as Hc1.
  assert (Hfresh : ∀ owners s, Inv owners s →
            transactions (mem s) !! ("TRX-" +:+ pretty (nextID (mem s)))
            = None).
  { intros owners s HI.
    destruct (transactions (mem s) !! _) as [x|] eqn:Hx; [|done].
    destruct (inv_entries _ _ HI _ x Hx) as (Hiss & _).
    by apply issued_not_next in Hiss. }
  exists (nextID (mem s1)), (nextID (mem s2)).
  split; [done|]. split; [done|]. split; [lia|]. split.
  - intros Heq. apply transaction_id_inj in Heq. lia.
  - split; [by eapply Hfresh|]. split; [by eapply Hfresh|]. done.
Qed.

(** A critical section of a saga goroutine, taken in any reachable memory,
    touches at most one transaction, and only one that is still PENDING:
    every other entry, and the steps it reads, are as before, and so is the
    counter. *)
Theorem goroutine_step_is_confined events g now :
  (Z.of_nat (length events) < max_int)%Z →
  let s := sys_run growslice Errorf boot events in
  let s' := sys_step growslice Errorf s (Enter g now) in
  nextID (mem s') = nextID (mem s) ∧
  ∃ tid,
    (∀ x, transactions (mem s) !! tid = Some x →
          Transaction.Status x = TransactionStatusPending) ∧
    (∀ tid2 x2,
       tid2 ≠ tid →
       transactions (mem s) !! tid2 = Some x2 →
       transactions (mem s') !! tid2 = Some x2 ∧
       encode (heap (mem s')) x2 = encode (heap (mem s)) x2).
Proof.
  intros Hlen s s'.
  destruct (sys_run_inv growslice Errorf [] boot events Inv_boot)
    as (owners & HI & _); [simpl; lia|].
  destruct (enter_step_inv growslice Errorf owners _ g now HI)
    as (_ & Hn & tid & Hoth & Hown).
  split; [done|]. exists tid. split.
  - intros x Hx. by destruct (Hown x Hx).
  - intros tid2 x2 Hne Hx2. destruct (Hoth tid2 x2 Hne Hx2) as [Hx2' Hel].
    split; [done|]. unfold encode, s', s. by rewrite Hel.
Qed.

(** No transition of the server deletes a transaction or rewrites its
    identity or its history: an entry present at some point is present ever
    after with the same ID, customer, amount, address and creation time, and
    the step names of its ledger are a prefix of those it has later. *)
Theorem entries_persist events1 events2 tid x :
  (Z.of_nat (length events1 + length events2) < max_int)%Z →
  let s1 := sys_run growslice Errorf boot events1 in
  let s2 := sys_run growslice Errorf s1 events2 in
  transactions (mem s1) !! tid = Some x →
  ∃ x',
    transactions (mem s2) !! tid = Some x' ∧
    Transaction.ID x' = Transaction.ID x ∧
    Transaction.CustomerID x' = Transaction.CustomerID x ∧
    Transaction.Amount x' = Transaction.Amount x ∧
    Transaction.Address x' = Transaction.Address x ∧
    Transaction.CreatedAt x' = Transaction.CreatedAt x ∧
    map Step.Name (elems (heap (mem s1)) (Transaction.Steps x))
      `prefix_of`
      map Step.Name (elems (heap (mem s2)) (Transaction.Steps x')).
Proof.
  intros Hlen s1 s2 Hx.
  destruct (sys_run_inv growslice Errorf [] boot events1 Inv_boot)
    as (owners1 & HI1 & Hn1 & _); [simpl; lia|].
  fold s1 in HI1, Hn1. simpl in Hn1.
  destruct (sys_run_inv growslice Errorf owners1 s1 events2 HI1)
    as (owners2 & _ & _ & _ & Hext); [lia|].
  destruct (Hext tid x Hx) as (x' & Hx' & Hk).
  exists x'. split; [done|exact Hk].
Qed.

End Reachable.

(** A run in which the order service is unreachable: the transaction is
    created, the goroutine ledgers CREATE_ORDER, the call fails, the step
    and the transaction are concluded. *)
Definition failing_run : list Event :=
  [ ServeCreate sample_request 0;
    Enter 0 1;
    Receive 0 (PostError "connection refused");
    Enter 0 2;
    Enter 0 3 ].

Lemma reachable_transactions_well_formed_witness :
  ∃ x,
    transactions (mem (sys_run doubling plain_Errorf boot failing_run))
      !! "TRX-1" = Some x ∧
    Transaction.ID x = "TRX-1".
Proof.
  eexists. split; [vm_compute; reflexivity|].
  refine (proj1 (proj2 (proj2
    (reachable_transactions_well_formed doubling plain_Errorf failing_run
       "TRX-1" _ _ _)))).
  - vm_compute. reflexivity.
  - vm_compute. reflexivity.
Defined.

Lemma terminal_transaction_is_final_witness :
  ∃ x,
    transactions (mem (sys_run doubling plain_Errorf boot failing_run))
      !! "TRX-1" = Some x ∧
    transactions
      (mem (sys_run doubling plain_Errorf
              (sys_run doubling plain_Errorf boot failing_run)
              [ServeCreate sample_request 9; Enter 1 10])) !! "TRX-1"
    = Some x.
Proof.
  eexists. split; [vm_compute; reflexivity|].
  refine (proj1
    (terminal_transaction_is_final doubling plain_Errorf failing_run
       [ServeCreate sample_request 9; Enter 1 10] "TRX-1" _ _ _ _)).
  - vm_compute. reflexivity.
  - vm_compute. reflexivity.
  - right. reflexivity.
Defined.

Lemma transaction_ids_increase_witness :
  ∃ k1 k2 : Z,
    "TRX-1" = "TRX-" +:+ pretty k1 ∧ "TRX-2" = "TRX-" +:+ pretty k2 ∧
    (1 ≤ k1 < k2)%Z.
Proof.
  destruct (transaction_ids_increase doubling plain_Errorf [] [Enter 0 1]
              sample_request 0 sample_request 5
              StatusAccepted
              {| Success := true;
                 Message := "Transaction initiated successfully";
                 Transaction := new_transaction "TRX-1" sample_order 0 |}
              (createOrderSagaHandler doubling plain_Errorf sample_request 0
                 initial).1.2
              (Some (executeSaga doubling plain_Errorf "TRX-1" sample_order))
              StatusAccepted
              {| Success := true;
                 Message := "Transaction initiated successfully";
                 Transaction := new_transaction "TRX-2" sample_order 5 |}
              (createOrderSagaHandler doubling plain_Errorf sample_request 5
                 (mem (sys_run doubling plain_Errorf
                         (sys_step doubling plain_Errorf boot
                            (ServeCreate sample_request 0))
                         [Enter 0 1]))).1.2
              (Some (executeSaga doubling plain_Errorf "TRX-2" sample_order)))
    as (k1 & k2 & H1 & H2 & Hlt & _).
  - vm_compute. reflexivity.
  - reflexivity.
  - reflexivity.
  - exists k1, k2. split; [exact H1|]. split; [exact H2|exact Hlt].
Defined.

Lemma goroutine_step_is_confined_witness :
  nextID (mem (sys_step doubling plain_Errorf
                 (sys_run doubling plain_Errorf boot
                    [ServeCreate sample_request 0]) (Enter 0 1)))
  = nextID (mem (sys_run doubling plain_Errorf boot
                   [ServeCreate sample_request 0])).
Proof.
  refine (proj1 (goroutine_step_is_confined doubling plain_Errorf
                   [ServeCreate sample_request 0] 0 1 _)).
  vm_compute. reflexivity.
Defined.

Lemma entries_persist_witness :
  ∃ x',
    transactions (mem (sys_run doubling plain_Errorf
                         (sys_run doubling plain_Errorf boot
                            [ServeCreate sample_request 0])
                         [Enter 0 1; Receive 0 (PostError "down"); Enter 0 2]))
      !! "TRX-1" = Some x' ∧
    Transaction.ID x' = "TRX-1".
Proof.
  destruct (entries_persist doubling plain_Errorf
              [ServeCreate sample_request 0]
              [Enter 0 1; Receive 0 (PostError "down"); Enter 0 2]
              "TRX-1" (new_transaction "TRX-1" sample_order 0))
    as (x' & Hx' & Hid & _).
  - vm_compute. reflexivity.
  - vm_compute. reflexivity.
  - exists x'. split; [exact Hx'|exact Hid].
Defined.

(** * Status, identifiers and the create/status round trip *)

Section Lifecycle.
Variable growslice : nat → nat → nat.
Variable Errorf : string → string.

(** C6. In every memory the server reaches (within the range of the [int]
    counter), each transaction has status PENDING, COMPLETED or FAILED, and
    its completion time is unset exactly when the status is PENDING. Once
    the status is COMPLETED or FAILED, no later transition (start-saga
    requests, status requests, steps of any goroutine) changes the entry, so
    the status never changes again; the steps its header reads stay the
    same, and a status request for it gets the same reply, encoded to the
    same content, however often it is repeated. *)
Theorem transaction_status_lifecycle events1 events2 tid x :
  (Z.of_nat (length events1 + length events2) < max_int)%Z →
  let s1 := sys_run growslice Errorf boot events1 in
  let s2 := sys_run growslice Errorf s1 events2 in
  transactions (mem s1) !! tid = Some x →
  (Transaction.Status x = TransactionStatusPending ∨
   Transaction.Status x = TransactionStatusCompleted ∨
   Transaction.Status x = TransactionStatusFailed) ∧
  (Transaction.CompletedAt x = None ↔
   Transaction.Status x = TransactionStatusPending) ∧
  (Transaction.Status x = TransactionStatusCompleted ∨
   Transaction.Status x = TransactionStatusFailed →
   transactions (mem s2) !! tid = Some x ∧
   encode (heap (mem s2)) x = encode (heap (mem s1)) x ∧
   ∀ q, transaction_id q = tid →
        transactionStatusHandler q (mem s2)
        = transactionStatusHandler q (mem s1)).
Proof.
  intros Hlen s1 s2 Hx.
  destruct (sys_run_inv growslice Errorf [] boot events1 Inv_boot)
    as (owners1 & HI1 & Hn1 & _); [simpl; lia|].
  fold s1 in HI1, Hn1. simpl in Hn1.
  destruct (inv_entries _ _ HI1 tid x Hx) as (_ & _ & [Hs Hc] & _).
  split; [done|]. split; [done|]. intros Hterm.
  destruct (sys_run_inv growslice Errorf owners1 s1 events2 HI1)
    as (owners2 & _ & _ & Hpres & _); [lia|].
  fold s2 in Hpres.
  destruct (Hpres tid x Hx) as [Hx2 Hel].
  { intros Hp. by destruct Hterm as [Ht|Ht]; rewrite Ht in Hp. }
  split; [done|]. split.
  - unfold encode. by rewrite Hel.
  - intros q Hq. unfold transactionStatusHandler. by rewrite Hq, Hx2, Hx.
Qed.

(** C8. A valid start-saga request, served in any memory the server reaches
    (within the range of the [int] counter), is accepted with a PENDING
    transaction whose id is "TRX-k" for the current counter k; the id is not
    in the map, and every transaction already there has an id "TRX-j" with
    j < k. A second valid request served after any further transitions gets
    "TRX-k'" with k < k': the two ids differ and the numbers increase in the
    order of assignment. *)
Theorem transaction_ids_fresh_and_increasing events1 events2
    r1 now1 req1 r2 now2 req2 :
  (Z.of_nat (length events1 + 1 + length events2) < max_int)%Z →
  let s1 := sys_run growslice Errorf boot events1 in
  let s2 := sys_run growslice Errorf
              (sys_step growslice Errorf s1 (ServeCreate r1 now1)) events2 in
  Method r1 = MethodPost → Body r1 = Some req1 → valid req1 →
  Method r2 = MethodPost → Body r2 = Some req2 → valid req2 →
  ∃ (k1 k2 : Z) resp1 σ1 p1 resp2 σ2 p2,
    createOrderSagaHandler growslice Errorf r1 now1 (mem s1)
    = (WriteJSON StatusAccepted resp1, σ1, Some p1) ∧
    createOrderSagaHandler growslice Errorf r2 now2 (mem s2)
    = (WriteJSON StatusAccepted resp2, σ2, Some p2) ∧
    Transaction.ID (Transaction resp1) = "TRX-" +:+ pretty k1 ∧
    Transaction.ID (Transaction resp2) = "TRX-" +:+ pretty k2 ∧
    Transaction.Status (Transaction resp1) = TransactionStatusPending ∧
    Transaction.Status (Transaction resp2) = TransactionStatusPending ∧
    k1 = nextID (mem s1) ∧ k2 = nextID (mem s2) ∧
    (1 ≤ k1 < k2)%Z ∧
    Transaction.ID (Transaction resp1) ≠ Transaction.ID (Transaction resp2) ∧
    (∀ tid x, transactions (mem s1) !! tid = Some x →
       Transaction.ID x = tid ∧
       ∃ j : Z, tid = "TRX-" +:+ pretty j ∧ (1 ≤ j < k1)%Z) ∧
    (∀ tid x, transactions (mem s2) !! tid = Some x →
       Transaction.ID x = tid ∧
       ∃ j : Z, tid = "TRX-" +:+ pretty j ∧ (1 ≤ j < k2)%Z) ∧
    transactions (mem s1) !! Transaction.ID (Transaction resp1) = None ∧
    transactions (mem s2) !! Transaction.ID (Transaction resp2) = None ∧
    transactions (mem s2) !! Transaction.ID (Transaction resp1) ≠ None.
Proof.
  intros Hlen s1 s2 Hm1 Hb1 Hv1 Hm2 Hb2 Hv2.
  destruct (sys_run_inv growslice Errorf [] boot events1 Inv_boot)
    as (owners1 & HI1 & Hn1 & _); [simpl; lia|].
  fold s1 in HI1, Hn1. simpl in Hn1.
  pose proof (inv_counter _ _ HI1) as Hc1.
  destruct (create_step_inv growslice Errorf owners1 s1 r1 now1 req1 HI1)
    as (HI1' & Hnext & _ & Hnew1); [lia|done|done|done|].
  destruct (sys_run_inv growslice Errorf _ _ events2 HI1')
    as (owners2 & HI2 & Hn2 & _ & Hext); [lia|].
  fold s2 in HI2, Hn2, Hext.
  assert (Hstored : ∀ owners s, Inv owners s →
            ∀ tid x, transactions (mem s) !! tid = Some x →
              Transaction.ID x = tid ∧
              ∃ j : Z, tid = "TRX-" +:+ pretty j ∧ (1 ≤ j < nextID (mem s))%Z).
  { intros owners s HI tid x Hx.
    by destruct (inv_entries _ _ HI tid x Hx) as (Hiss & HID & _). }
  assert (Hfresh : ∀ owners s, Inv owners s →
            transactions (mem s) !! ("TRX-" +:+ pretty (nextID (mem s)))
            = None).
  { intros owners s HI.
    destruct (transactions (mem s) !! _) as [x|] eqn:Hx; [|done].
    destruct (inv_entries _ _ HI _ x Hx) as (Hiss & _).
    by apply issued_not_next in Hiss. }
  exists (nextID (mem s1)), (nextID (mem s2)).
  eexists _, _, _, _, _, _.
  split; [by apply handler_accepts|]. split; [by apply handler_accepts|].
  cbn [Transaction Transaction.ID Transaction.Status new_transaction].
  unfold next_transaction_id.
  split; [done|]. split; [done|]. split; [done|]. split; [done|].
  split; [done|]. split; [done|]. split; [lia|]. split.
  { intros Heq. apply transaction_id_inj in Heq. lia. }
  split; [by eapply Hstored|]. split; [by eapply Hstored|].
  split; [by eapply Hfresh|]. split; [by eapply Hfresh|].
  destruct (Hext ("TRX-" +:+ pretty (nextID (mem s1)))
              (new_transaction (next_transaction_id (mem s1)) req1 now1))
    as (x' & Hx' & _).
  { unfold sys_step.
    rewrite (handler_accepts _ _ r1 now1 (mem s1) req1) by done.
    cbn [mem transactions]. apply lookup_insert_eq. }
  by rewrite Hx'.
Qed.

(** Round trip of an accepted start-saga request and a status request for
    the id it returned. Served on the memory the handler leaves, the status
    request is answered 200 with the very transaction the create reply
    carried. Served after any further transitions (the goroutine started by
    the handler may have run by then), it is answered 200 with a transaction
    of the same ID, customer, amount, address and creation time. *)
Theorem status_after_create events1 events2 r now code resp σ' spawned q :
  (Z.of_nat (length events1 + 1 + length events2) < max_int)%Z →
  let s1 := sys_run growslice Errorf boot events1 in
  let s2 := sys_run growslice Errorf
              (sys_step growslice Errorf s1 (ServeCreate r now)) events2 in
  createOrderSagaHandler growslice Errorf r now (mem s1)
  = (WriteJSON code resp, σ', spawned) →
  Method q = MethodGet →
  transaction_id q = Transaction.ID (Transaction resp) →
  mem (sys_step growslice Errorf s1 (ServeCreate r now)) = σ' ∧
  transactionStatusHandler q σ'
  = WriteJSON StatusOK
      {| Success := true; Message := ""; Transaction := Transaction resp |} ∧
  ∃ x,
    transactionStatusHandler q (mem s2)
    = WriteJSON StatusOK
        {| Success := true; Message := ""; Transaction := x |} ∧
    Transaction.ID x = Transaction.ID (Transaction resp) ∧
    Transaction.CustomerID x = Transaction.CustomerID (Transaction resp) ∧
    Transaction.Amount x = Transaction.Amount (Transaction resp) ∧
    Transaction.Address x = Transaction.Address (Transaction resp) ∧
    Transaction.CreatedAt x = Transaction.CreatedAt (Transaction resp).
Proof.
  intros Hlen s1 s2 H Hq Hid.
  destruct (sys_run_inv growslice Errorf [] boot events1 Inv_boot)
    as (owners1 & HI1 & Hn1 & _); [simpl; lia|].
  fold s1 in HI1, Hn1. simpl in Hn1.
  destruct (sys_step_inv growslice Errorf owners1 s1 (ServeCreate r now) HI1)
    as (owners1' & HI1' & Hn1' & _); [lia|].
  destruct (sys_run_inv growslice Errorf owners1' _ events2 HI1')
    as (owners2 & _ & _ & _ & Hext); [lia|].
  fold s2 in Hext.
  destruct (handler_cases growslice Errorf r now (mem s1))
    as [(req & Hm & Hb & Hv)|(msg & cd & Hrej)]; [|congruence].
  assert (Hmem : mem (sys_step growslice Errorf s1 (ServeCreate r now)) = σ')
    by (unfold sys_step; by rewrite H).
  rewrite (handler_accepts _ _ r now (mem s1) req) in H by done.
  injection H as <- <- <- <-.
  cbn [Transaction] in *.
  assert (Hget : ∀ σ x,
            transactions σ !! next_transaction_id (mem s1) = Some x →
            transactionStatusHandler q σ
            = WriteJSON StatusOK
                {| Success := true; Message := ""; Transaction := x |}).
  { intros σ x Hx. unfold transactionStatusHandler.
    assert (Hid' : transaction_id q = next_transaction_id (mem s1))
      by exact Hid.
    rewrite decide_False by (by intros []).
    rewrite decide_False by (rewrite Hid'; discriminate).
    by rewrite Hid', Hx. }
  split; [done|]. split.
  { apply Hget. cbn [transactions]. apply lookup_insert_eq. }
  destruct (Hext (next_transaction_id (mem s1))
              (new_transaction (next_transaction_id (mem s1)) req now))
    as (x' & Hx' & Hk1 & Hk2 & Hk3 & Hk4 & Hk5 & _).
  { rewrite Hmem. cbn [transactions]. apply lookup_insert_eq. }
  exists x'. split; [by apply Hget|]. by split_and!.
Qed.

End Lifecycle.

Lemma transaction_status_lifecycle_witness :
  ∃ x,
    transactions (mem (sys_run doubling plain_Errorf boot failing_run))
      !! "TRX-1" = Some x ∧
    Transaction.Status x = "FAILED" ∧
    transactions
      (mem (sys_run doubling plain_Errorf
              (sys_run doubling plain_Errorf boot failing_run)
              [ServeCreate sample_request 9; Enter 1 10;
               ServeStatus sample_status_request])) !! "TRX-1"
    = Some x.
Proof.
  eexists. split; [vm_compute; reflexivity|]. split; [reflexivity|].
  refine (proj1 (proj2 (proj2
    (transaction_status_lifecycle doubling plain_Errorf failing_run
       [ServeCreate sample_request 9; Enter 1 10;
        ServeStatus sample_status_request] "TRX-1" _ _ _)) _)).
  - vm_compute. reflexivity.
  - vm_compute. reflexivity.
  - right. reflexivity.
Defined.

Lemma transaction_ids_fresh_and_increasing_witness :
  ∃ k1 k2 : Z,
    k1 = 1%Z ∧ k2 = 2%Z ∧ (1 ≤ k1 < k2)%Z ∧
    "TRX-" +:+ pretty k1 ≠ "TRX-" +:+ pretty k2.
Proof.
  destruct (transaction_ids_fresh_and_increasing doubling plain_Errorf
              [] [Enter 0 1] sample_request 0 sample_order
              sample_request 5 sample_order)
    as (k1 & k2 & resp1 & σ1 & p1 & resp2 & σ2 & p2 & _ & _ & H1 & H2 & _ & _
        & Hk1 & Hk2 & Hlt & Hne & _).
  - vm_compute. reflexivity.
  - reflexivity.
  - reflexivity.
  - exact sample_order_valid.
  - reflexivity.
  - reflexivity.
  - exact sample_order_valid.
  - exists k1, k2. split; [exact Hk1|]. split; [exact Hk2|].
    split; [exact Hlt|]. rewrite <- H1, <- H2. exact Hne.
Defined.

Lemma status_after_create_witness :
  ∃ x,
    transactionStatusHandler sample_status_request
      (mem (sys_run doubling plain_Errorf
              (sys_step doubling plain_Errorf boot
                 (ServeCreate sample_request 0))
              [Enter 0 1; Receive 0 (PostError "down"); Enter 0 2]))
    = WriteJSON StatusOK
        {| Success := true; Message := ""; Transaction := x |} ∧
    Transaction.ID x = "TRX-1".
Proof.
  destruct (status_after_create doubling plain_Errorf [] 
              [Enter 0 1; Receive 0 (PostError "down"); Enter 0 2]
              sample_request 0 StatusAccepted
              {| Success := true;
                 Message := "Transaction initiated successfully";
                 Transaction := new_transaction "TRX-1" sample_order 0 |}
              (createOrderSagaHandler doubling plain_Errorf sample_request 0
                 initial).1.2
              (Some (executeSaga doubling plain_Errorf "TRX-1" sample_order))
              sample_status_request)
    as (_ & _ & x & Hx & Hid & _).
  - vm_compute. reflexivity.
  - reflexivity.
  - reflexivity.
  - reflexivity.
  - exists x. split; [exact Hx|exact Hid].
Defined.

(** * The calls the executor makes on the ledger *)

(** ** How far a ledger has got *)

(** [ledger_shape ns cur l]: the steps named [ns], in this order, are
    concluded; when [cur] is a name, one more step of that name follows them
    and has no end timestamp yet. No name occurs twice. *)
Definition ledger_shape (ns : list string) (cur : option string)
    (l : list Step.t) : Prop :=
  NoDup (ns ++ option_list cur) ∧
  match cur with
  | None =>
      map Step.Name l = ns ∧ Forall (λ st, is_Some (Step.EndedAt st)) l
  | Some name =>
      ∃ l0 st,
        l = l0 ++ [st] ∧ map Step.Name l0 = ns ∧
        Forall (λ st', is_Some (Step.EndedAt st')) l0 ∧
        Step.Name st = name ∧ Step.EndedAt st = None
  end.

Section CallSites.
Variable growslice : nat → nat → nat.
Variable Errorf : string → string.

(** [ledger_prog tid Q ns cur p]: the code [p] still has to run for
    transaction [tid] when its ledger has shape [ns], [cur]. It is made of the
    four critical sections of the executor and of outbound calls; a step is
    added only under a name the ledger does not hold and only when no step is
    open, and the next ledger operation after [addStep tid name] is
    [updateStepStatus tid name]. [Q] holds of the value returned and the
    names ledgered by then. *)
Inductive ledger_prog {A : Type} (tid : string) (Q : A → list string → Prop)
    : list string → option string → Prog A → Prop :=
| lp_ret ns a : Q a ns → ledger_prog tid Q ns None (Ret a)
| lp_add ns name k :
    name ∉ ns →
    ledger_prog tid Q ns (Some name) k →
    ledger_prog tid Q ns None (Atomic (addStep growslice tid name) k)
| lp_end ns name success err k :
    ledger_prog tid Q (ns ++ [name]) None k →
    ledger_prog tid Q ns (Some name)
      (Atomic (updateStepStatus tid name success err) k)
| lp_oid ns oid k :
    ledger_prog tid Q ns None k →
    ledger_prog tid Q ns None (Atomic (setOrderID tid oid) k)
| lp_status ns status reason k :
    ledger_prog tid Q ns None k →
    ledger_prog tid Q ns None
      (Atomic (updateTransactionStatus tid status reason) k)
| lp_post ns cur url body k :
    (∀ res, ledger_prog tid Q ns cur (k res)) →
    ledger_prog tid Q ns cur (HttpPost url body k).

Lemma ledger_prog_bind {A B : Type} tid (Q : A → list string → Prop)
    (R : B → list string → Prop) ns cur (m : Prog A) (k : A → Prog B) :
  ledger_prog tid Q ns cur m →
  (∀ a ns', Q a ns' → ledger_prog tid R ns' None (k a)) →
  ledger_prog tid R ns cur (m ≫= k).
Proof.
  change (m ≫= k) with (bind m k).
  induction 1 as [ns a Ha|ns name m Hn Hm IH|ns name success err m Hm IH
                 |ns oid m Hm IH|ns status reason m Hm IH
                 |ns cur url body c Hc IH]; intros Hk; simpl.
  - by apply Hk.
  - apply lp_add; auto.
  - apply lp_end; auto.
  - apply lp_oid; auto.
  - apply lp_status; auto.
  - apply lp_post. intros res. by apply IH.
Qed.

(** One bracketed call: [addStep], the request, [updateStepStatus]. *)
Ltac ledger_steps :=
  simpl;
  repeat first
    [ apply lp_end
    | apply lp_ret; reflexivity
    | apply lp_post; intros ?
    | match goal with
      | |- ledger_prog _ _ _ _ (match ?r with PostError _ => _ | _ => _ end) =>
          destruct r
      | |- ledger_prog _ _ _ _ (match ?o with Some _ => _ | None => _ end) =>
          destruct o
      | |- ledger_prog _ _ _ _ (if ?b then _ else _) => destruct b
      end ].

Lemma ledger_createOrder tid req ns :
  "CREATE_ORDER" ∉ ns →
  ledger_prog tid (λ _ ns', ns' = ns ++ ["CREATE_ORDER"]) ns None
    (createOrder growslice Errorf tid req).
Proof. intros Hn. unfold createOrder. apply lp_add; [done|]. ledger_steps. Qed.

Lemma ledger_processPayment tid oid amount ns :
  "PROCESS_PAYMENT" ∉ ns →
  ledger_prog tid (λ _ ns', ns' = ns ++ ["PROCESS_PAYMENT"]) ns None
    (processPayment growslice Errorf tid oid amount).
Proof.
  intros Hn. unfold processPayment. apply lp_add; [done|]. ledger_steps.
Qed.

Lemma ledger_startShipping tid oid address ns :
  "START_SHIPPING" ∉ ns →
  ledger_prog tid (λ _ ns', ns' = ns ++ ["START_SHIPPING"]) ns None
    (startShipping growslice Errorf tid oid address).
Proof.
  intros Hn. unfold startShipping. apply lp_add; [done|]. ledger_steps.
Qed.

Lemma ledger_cancelOrder tid oid ns :
  "CANCEL_ORDER" ∉ ns →
  ledger_prog tid (λ _ ns', ns' = ns ++ ["CANCEL_ORDER"]) ns None
    (cancelOrder growslice tid oid).
Proof. intros Hn. unfold cancelOrder. apply lp_add; [done|]. ledger_steps. Qed.

Lemma ledger_refundPayment tid oid ns :
  "REFUND_PAYMENT" ∉ ns →
  ledger_prog tid (λ _ ns', ns' = ns ++ ["REFUND_PAYMENT"]) ns None
    (refundPayment growslice tid oid).
Proof.
  intros Hn. unfold refundPayment. apply lp_add; [done|]. ledger_steps.
Qed.


Ltac fresh_name :=
  let H := fresh in
  intros H; simpl in H;
  repeat (apply elem_of_cons in H as [H|H]; [discriminate H|]);
  by apply elem_of_nil in H.

(** All of [executeSaga], from an empty ledger. *)
Lemma ledger_executeSaga tid req :
  ledger_prog tid (λ _ _, True) [] None (executeSaga growslice Errorf tid req).
Proof.
  unfold executeSaga.
  eapply ledger_prog_bind; [apply ledger_createOrder; fresh_name|].
  intros [oid [e|]] ns ->.
  { apply lp_status. by apply lp_ret. }
  apply lp_oid.
  eapply ledger_prog_bind; [apply ledger_processPayment; fresh_name|].
  intros [e|] ns ->.
  { eapply ledger_prog_bind; [apply ledger_cancelOrder; fresh_name|].
    intros _ ns ->. apply lp_status. by apply lp_ret. }
  eapply ledger_prog_bind; [apply ledger_startShipping; fresh_name|].
  intros [e|] ns ->.
  { eapply ledger_prog_bind; [apply ledger_refundPayment; fresh_name|].
    intros _ ns ->.
    eapply ledger_prog_bind; [apply ledger_cancelOrder; fresh_name|].
    intros _ ns ->. apply lp_status. by apply lp_ret. }
  apply lp_status. by apply lp_ret.
Qed.

(** ** Telling the critical sections apart

    A goroutine about to run [updateStepStatus tid name] is at a node
    [Atomic (updateStepStatus tid name success err) k]. None of the other
    three critical sections is that function, and the function determines
    the transaction and the name. *)

Lemma updateStepStatus_transactions tid name success err now σ :
  transactions (updateStepStatus tid name success err now σ) = transactions σ.
Proof.
  unfold updateStepStatus.
  destruct (transactions σ !! tid) as [x|] eqn:Hx; [|done].
  cbn [transactions]. by apply insert_id.
Qed.

Lemma addStep_is_not_updateStepStatus tid1 name1 tid name success err :
  addStep growslice tid1 name1 ≠ updateStepStatus tid name success err.
Proof.
  intros Heq.
  pose (σ := {| transactions := {[ tid1 := Transaction.zero ]};
                nextID := 1; heap := [] |}).
  assert (H : transactions (addStep growslice tid1 name1 0%Z σ) !! tid1
              = transactions (updateStepStatus tid name success err 0%Z σ)
                  !! tid1) by (by rewrite Heq).
  rewrite updateStepStatus_transactions in H.
  unfold addStep, σ in H. cbn [transactions heap] in H.
  rewrite lookup_singleton_eq in H. simpl in H.
  rewrite lookup_insert_eq in H.
  apply (f_equal (λ o, len (Transaction.Steps (default Transaction.zero o))))
    in H. discriminate H.
Qed.

Lemma setOrderID_is_not_updateStepStatus tid1 oid tid name success err :
  setOrderID tid1 oid ≠ updateStepStatus tid name success err.
Proof.
  intros Heq.
  assert (H : transactions (setOrderID tid1 oid 0%Z initial) !! tid1
              = transactions (updateStepStatus tid name success err 0%Z initial)
                  !! tid1) by (by rewrite Heq).
  rewrite updateStepStatus_transactions in H.
  unfold setOrderID in H. cbn [transactions initial] in H.
  rewrite lookup_insert_eq, lookup_empty in H. discriminate H.
Qed.

Lemma updateTransactionStatus_is_not_updateStepStatus tid1 status reason
    tid name success err :
  updateTransactionStatus tid1 status reason
  ≠ updateStepStatus tid name success err.
Proof.
  intros Heq.
  pose (x := Transaction.set_Status (String Ascii.zero status) Transaction.zero).
  pose (σ := {| transactions := {[ tid1 := x ]}; nextID := 1; heap := [] |}).
  assert (H : transactions (updateTransactionStatus tid1 status reason 0%Z σ)
                !! tid1
              = transactions (updateStepStatus tid name success err 0%Z σ)
                  !! tid1) by (by rewrite Heq).
  rewrite updateStepStatus_transactions in H.
  unfold updateTransactionStatus, σ in H. cbn [transactions heap] in H.
  rewrite lookup_singleton_eq in H. cbn [transactions] in H.
  rewrite lookup_insert_eq in H.
  apply (f_equal (λ o, String.length
                         (Transaction.Status (default Transaction.zero o))))
    in H.
  revert H. repeat case_decide; simpl; lia.
Qed.

Lemma end_step_absent name success err now l :
  Forall (λ st, Step.Name st ≠ name) l → end_step name success err now l = l.
Proof.
  intros Hl. unfold end_step.
  destruct (list_find _ l) as [[i st]|] eqn:Hfind; [|done].
  apply list_find_Some in Hfind as (Hi & Hname & _).
  rewrite Forall_forall in Hl. exfalso. eapply Hl; [|done].
  by eapply list_elem_of_lookup_2.
Qed.

Lemma updateStepStatus_determines tid1 name1 success1 err1
    tid name success err :
  updateStepStatus tid1 name1 success1 err1
  = updateStepStatus tid name success err →
  tid1 = tid ∧ name1 = name.
Proof.
  intros Heq.
  pose (s := {| ptr := Some 0; len := 1; cap := 1 |}).
  pose (x := Transaction.set_Steps s Transaction.zero).
  pose (σ := {| transactions := {[ tid1 := x ]}; nextID := 1;
                heap := [[begin_step name1 0]] |}).
  assert (Hx : transactions σ !! tid1 = Some x) by apply lookup_singleton_eq.
  assert (Hok : slice_ok (heap σ) (Transaction.Steps x))
    by (split; simpl; lia).
  assert (Hel : elems (heap σ) (Transaction.Steps x) = [] ++ [begin_step name1 0])
    by done.
  assert (H : elems (heap (updateStepStatus tid1 name1 success1 err1 0%Z σ)) s
              = elems (heap (updateStepStatus tid name success err 0%Z σ)) s)
    by (by rewrite Heq).
  destruct (updateStepStatus_spec σ tid1 name1 success1 err1 0%Z x Hx Hok)
    as [_ Hl].
  change (Transaction.Steps x) with s in Hl.
  change (elems (heap σ) s) with ([] ++ [begin_step name1 0]) in Hl.
  rewrite end_step_fresh in Hl by (done || apply Forall_nil; done).
  rewrite Hl in H. clear Hl.
  destruct (decide (tid1 = tid)) as [<-|Hne].
  - split; [done|].
    destruct (decide (name1 = name)) as [|Hnn]; [done|]. exfalso.
    destruct (updateStepStatus_spec σ tid1 name success err 0%Z x Hx Hok)
      as [_ Hr].
    change (Transaction.Steps x) with s in Hr.
    rewrite Hr in H.
    rewrite end_step_absent in H.
    + apply (f_equal (λ l, Step.EndedAt (default Step.zero (head l)))) in H.
      simpl in H. discriminate H.
    + apply Forall_cons. split; [done|]. by apply Forall_nil.
  - exfalso.
    assert (Hr : updateStepStatus tid name success err 0%Z σ = σ).
    { unfold updateStepStatus. cbn [transactions σ].
      by rewrite lookup_singleton_ne. }
    rewrite Hr in H.
    apply (f_equal (λ l, Step.EndedAt (default Step.zero (head l)))) in H.
    simpl in H. discriminate H.
Qed.


(** ** The ledgers of the running server *)

(** Every goroutine has code left that fits the ledger of its transaction. *)
Definition Inv_ledger (owners : list string) (s : System) : Prop :=
  ∀ g tid p,
    owners !! g = Some tid → pool s !! g = Some p →
    ∃ ns cur x,
      ledger_prog tid (λ _ _, True) ns cur p ∧
      transactions (mem s) !! tid = Some x ∧
      ledger_shape ns cur (elems (heap (mem s)) (Transaction.Steps x)).

(** The critical section goroutine [g] is at leaves every transaction but
    its own as it is. *)
Lemma enter_owner_same owners s g now tid f k :
  Inv owners s → owners !! g = Some tid →
  pool s !! g = Some (Atomic f k) →
  others_same tid s (sys_step growslice Errorf s (Enter g now)) ∧
  ∃ x, transactions (mem s) !! tid = Some x ∧
       slice_ok (heap (mem s)) (Transaction.Steps x).
Proof.
  intros HI Hog Hpg. unfold sys_step. rewrite Hpg.
  destruct (inv_tasks _ _ HI g tid _ Hog Hpg) as (Hsl & Hiss & Hlive).
  destruct Hlive as (x & Hx & Hpend); [done|].
  destruct (inv_entries _ _ HI tid x Hx) as (_ & _ & Hst & Hok).
  split; [|by exists x].
  inversion Hsl as [|f' k' Hq Hk|f' Hc|]; subst.
  - destruct (Hq now (mem s) x Hx Hok) as (x' & Hstep & Hkept & Hs & Hca).
    assert (Hlive' : k ≠ Ret tt →
              Transaction.Status x' = TransactionStatusPending)
      by (intros _; congruence).
    by destruct (atomic_step_inv owners s g tid f k (f now (mem s)) x x'
                   HI Hog Hpg Hx Hpend Hstep (proj1 Hkept)
                   (status_ok_pending x x' Hst Hs Hca) Hk Hlive').
  - destruct (Hc now (mem s) x Hx Hok) as (x' & Hstep & Hkept & Hs & Hca).
    assert (Hlive' : Ret tt ≠ Ret tt →
              Transaction.Status x' = TransactionStatusPending)
      by (by intros Hne).
    by destruct (atomic_step_inv owners s g tid f (Ret tt) (f now (mem s)) x x'
                   HI Hog Hpg Hx Hpend Hstep (proj1 Hkept)
                   (status_ok_terminal x' Hs Hca) (sl_ret tid) Hlive').
Qed.

Lemma ledger_shape_add ns name now l :
  name ∉ ns → ledger_shape ns None l →
  ledger_shape ns (Some name) (l ++ [begin_step name now]).
Proof.
  intros Hn (Hnd & Hnames & Hall). simpl in Hnd. rewrite app_nil_r in Hnd.
  split.
  - simpl. apply NoDup_app. split; [done|]. split; [|apply NoDup_singleton].
    intros y Hy Hy'. apply list_elem_of_singleton in Hy' as ->. done.
  - by exists l, (begin_step name now).
Qed.

Lemma ledger_shape_end ns name success err now l :
  ledger_shape ns (Some name) l →
  ledger_shape (ns ++ [name]) None (end_step name success err now l) ∧
  ∃ l0 st,
    l = l0 ++ [st] ∧ Step.Name st = name ∧ Step.EndedAt st = None ∧
    Forall (λ st', Step.Name st' ≠ name ∧ is_Some (Step.EndedAt st')) l0 ∧
    end_step name success err now l = l0 ++ [conclude success err now st].
Proof.
  intros (Hnd & l0 & st & -> & Hnames & Hall & Hname & Hopen).
  simpl in Hnd. apply NoDup_app in Hnd as (Hnd1 & Hnot & _).
  assert (Hfresh : Forall (λ st', Step.Name st' ≠ name) l0).
  { apply Forall_forall. intros st' Hin Heq.
    apply (Hnot name); [|apply list_elem_of_here].
    rewrite <- Hnames, <- Heq.
    change (map Step.Name l0) with (Step.Name <$> l0).
    by apply list_elem_of_fmap_2. }
  rewrite end_step_fresh by done. split.
  - split.
    + simpl. rewrite app_nil_r. apply NoDup_app. split; [done|].
      split; [|apply NoDup_singleton].
      intros y Hy Hy'. apply list_elem_of_singleton in Hy' as ->.
      by apply (Hnot name); [|apply list_elem_of_here].
    + split.
      * rewrite map_app, Hnames. simpl. by destruct success; rewrite <- Hname.
      * apply Forall_app. split; [done|]. apply Forall_cons.
        split; [by destruct success; eexists|by apply Forall_nil].
  - exists l0, st. split_and!; try done.
    apply Forall_forall. intros st' Hin. rewrite Forall_forall in Hfresh, Hall.
    split; auto.
Qed.

Lemma enter_step_ledger owners s g now :
  Inv owners s → Inv_ledger owners s →
  Inv_ledger owners (sys_step growslice Errorf s (Enter g now)).
Proof.
  intros HI HL.
  destruct (pool s !! g) as [[a|f k|url body k]|] eqn:Hpg;
    try (unfold sys_step; by rewrite Hpg).
  destruct (lookup_lt_is_Some_2 owners g) as [tid Hog].
  { rewrite (inv_owners_length _ _ HI). by eapply lookup_lt_Some. }
  destruct (enter_owner_same owners s g now tid f k HI Hog Hpg)
    as (Hoth & x & Hx & Hok).
  unfold sys_step in *. rewrite Hpg in *.
  intros g2 tid2 p Hog2 Hp. cbn [pool mem] in *.
  destruct (decide (g2 = g)) as [->|Hneg].
  - assert (tid2 = tid) as -> by congruence.
    rewrite list_lookup_insert_eq in Hp by (by eapply lookup_lt_Some).
    injection Hp as <-.
    destruct (HL g tid _ Hog Hpg) as (ns & cur & y & Hlp & Hy & Hsh).
    assert (y = x) as -> by congruence.
    inversion Hlp as [|ns' name k' Hn Hk|ns' name success err k' Hk
                     |ns' oid k' Hk|ns' status reason k' Hk|]; subst.
    + destruct (addStep_spec growslice (mem s) tid name now x Hx Hok)
        as (s' & (Htr & _) & Hel).
      exists ns, (Some name), (Transaction.set_Steps s' x).
      split; [done|]. split; [by rewrite Htr, lookup_insert_eq|].
      rewrite Steps_set_Steps, Hel. by apply ledger_shape_add.
    + destruct (updateStepStatus_spec (mem s) tid name success err now x Hx Hok)
        as ((Htr & _) & Hel).
      exists (ns ++ [name]), None, x.
      split; [done|]. split; [by rewrite Htr, lookup_insert_eq|].
      rewrite Hel. by apply ledger_shape_end.
    + destruct (setOrderID_spec (mem s) tid oid now x Hx Hok)
        as ((Htr & _) & Hh).
      exists ns, None, (Transaction.set_OrderID oid x).
      split; [done|]. split; [by rewrite Htr, lookup_insert_eq|].
      by rewrite Hh.
    + destruct (updateTransactionStatus_spec (mem s) tid status reason now x
                  Hx Hok) as (x' & (Htr & _) & Hh & Hs & _).
      exists ns, None, x'.
      split; [done|]. split; [by rewrite Htr, lookup_insert_eq|].
      by rewrite Hh, Hs.
  - rewrite list_lookup_insert_ne in Hp by done.
    destruct (HL g2 tid2 p Hog2 Hp) as (ns & cur & x2 & Hlp & Hx2 & Hsh).
    assert (Hne : tid2 ≠ tid).
    { intros ->. apply Hneg.
      by eapply (NoDup_lookup owners); [apply (inv_owners_nodup _ _ HI)| |]. }
    destruct (Hoth tid2 x2 Hne Hx2) as [Hx2' Hel]. cbn [mem] in Hx2', Hel.
    exists ns, cur, x2. split; [done|]. split; [done|]. by rewrite Hel.
Qed.

Lemma receive_step_ledger owners s g res :
  Inv_ledger owners s →
  Inv_ledger owners (sys_step growslice Errorf s (Receive g res)).
Proof.
  intros HL. unfold sys_step.
  destruct (pool s !! g) as [[a|f k|url body k]|] eqn:Hpg; try done.
  intros g2 tid2 p Hog2 Hp. cbn [pool mem] in *.
  destruct (decide (g2 = g)) as [->|Hneg].
  - rewrite list_lookup_insert_eq in Hp by (by eapply lookup_lt_Some).
    injection Hp as <-.
    destruct (HL g tid2 _ Hog2 Hpg) as (ns & cur & x & Hlp & Hx & Hsh).
    exists ns, cur, x. split; [|done].
    inversion Hlp; subst. auto.
  - rewrite list_lookup_insert_ne in Hp by done. by apply HL with g2.
Qed.

Lemma create_step_ledger owners s r now req :
  Inv owners s → Inv_ledger owners s → (nextID (mem s) < max_int)%Z →
  Method r = MethodPost → Body r = Some req → valid req →
  Inv_ledger (owners ++ [next_transaction_id (mem s)])
    (sys_step growslice Errorf s (ServeCreate r now)).
Proof.
  intros HI HL Hmax Hm Hb Hv.
  destruct (create_step_inv growslice Errorf owners s r now req HI Hmax Hm Hb Hv)
    as (_ & _ & Hoth & Hnew).
  unfold sys_step in *.
  rewrite (handler_accepts _ _ r now (mem s) req) in * by done.
  intros g tid p Hog Hp. cbn [pool mem transactions heap] in *.
  pose proof (inv_owners_length _ _ HI) as Hlen.
  destruct (decide (g < length owners)) as [Hlt|Hge].
  - rewrite lookup_app_l in Hog by done.
    rewrite lookup_app_l in Hp by lia.
    destruct (HL g tid p Hog Hp) as (ns & cur & x & Hlp & Hx & Hsh).
    assert (Hne : tid ≠ next_transaction_id (mem s)) by congruence.
    destruct (Hoth tid x Hne Hx) as [Hx' Hel].
    exists ns, cur, x. by split_and!.
  - assert (g = length owners) as ->.
    { apply lookup_lt_Some in Hog. rewrite length_app in Hog.
      simpl in Hog. lia. }
    rewrite list_lookup_middle in Hog by done. injection Hog as <-.
    rewrite list_lookup_middle in Hp by done. injection Hp as <-.
    exists [], None, (new_transaction (next_transaction_id (mem s)) req now).
    split; [apply ledger_executeSaga|].
    split; [by rewrite lookup_insert_eq|].
    split; [apply NoDup_nil_2|]. split; [done|]. by apply Forall_nil.
Qed.

Lemma sys_step_ledger owners s e :
  Inv owners s → Inv_ledger owners s → (nextID (mem s) < max_int)%Z →
  ∃ owners',
    Inv owners' (sys_step growslice Errorf s e) ∧
    Inv_ledger owners' (sys_step growslice Errorf s e) ∧
    (nextID (mem (sys_step growslice Errorf s e)) ≤ nextID (mem s) + 1)%Z.
Proof.
  intros HI HL Hmax. destruct e as [r now|r|g now|g res].
  - destruct (handler_cases growslice Errorf r now (mem s))
      as [(req & Hm & Hb & Hv)|(msg & cd & Hrej)].
    + destruct (create_step_inv growslice Errorf owners s r now req HI Hmax
                  Hm Hb Hv) as (HI' & Hn & _).
      eexists. split; [exact HI'|]. split; [by apply (create_step_ledger owners s r now req)|lia].
    + exists owners. unfold sys_step. rewrite Hrej, app_nil_r.
      destruct s as [σ p]. split; [done|]. split; [done|]. cbn [mem]. lia.
  - exists owners. split; [done|]. split; [done|]. simpl. lia.
  - destruct (enter_step_inv growslice Errorf owners s g now HI)
      as (HI' & Hn & _).
    exists owners. split; [done|]. split; [by apply enter_step_ledger|lia].
  - exists owners. split; [by apply receive_step_inv|].
    split; [by apply receive_step_ledger|].
    assert (Hmem : mem (sys_step growslice Errorf s (Receive g res)) = mem s).
    { unfold sys_step. by destruct (pool s !! g) as [[?|?|?]|]. }
    rewrite Hmem. lia.
Qed.

Lemma sys_run_ledger owners s events :
  Inv owners s → Inv_ledger owners s →
  (nextID (mem s) + Z.of_nat (length events) ≤ max_int)%Z →
  ∃ owners',
    Inv owners' (sys_run growslice Errorf s events) ∧
    Inv_ledger owners' (sys_run growslice Errorf s events).
Proof.
  revert owners s.
  induction events as [|e events IH]; intros owners s HI HL Hmax.
  - by exists owners.
  - cbn [length] in Hmax. unfold sys_run. cbn [foldl].
    destruct (sys_step_ledger owners s e HI HL) as (owners1 & HI1 & HL1 & Hn1);
      [lia|].
    destruct (IH owners1 _ HI1 HL1) as (owners2 & HI2 & HL2); [lia|].
    by exists owners2.
Qed.

Lemma Inv_ledger_boot : Inv_ledger [] boot.
Proof. intros g tid p Hg. by rewrite lookup_nil in Hg. Qed.

End CallSites.

(** ** Ending a step, as the executor does it *)

Lemma end_step_spec_last name success err now l0 st :
  Step.Name st = name → Step.EndedAt st = None →
  end_step_spec name success err now (l0 ++ [st])
  = l0 ++ [conclude success err now st].
Proof.
  intros Hname Hopen. unfold end_step_spec.
  rewrite reverse_app. simpl. rewrite decide_True by done. simpl.
  rewrite length_app. simpl.
  rewrite alter_app_r_alt by lia.
  by replace (length l0 + 1 - 1 - length l0) with 0 by lia.
Qed.

Lemma updateStepStatus_absent tid name success err now σ :
  (∀ x, transactions σ !! tid = Some x →
        Forall (λ st, Step.Name st ≠ name)
          (elems (heap σ) (Transaction.Steps x))) →
  updateStepStatus tid name success err now σ = σ.
Proof.
  intros Hno. unfold updateStepStatus.
  destruct (transactions σ !! tid) as [x|] eqn:Hx; [|done].
  specialize (Hno x eq_refl). cbn zeta.
  destruct (list_find _ _) as [[i st]|] eqn:Hfind.
  - apply list_find_Some in Hfind as (Hi & Hname & _).
    rewrite Forall_forall in Hno. exfalso. eapply Hno; [|done].
    by eapply list_elem_of_lookup_2.
  - rewrite insert_id by done. by destruct σ.
Qed.

Section EndStep.
Variable growslice : nat → nat → nat.
Variable Errorf : string → string.

(** C4. Whenever a goroutine of the running server is about to execute
    [updateStepStatus(tid, name, success, err)], in any interleaving of
    requests and goroutines (within the range of the [int] counter), the
    transaction is in the map and the last step of its ledger is the one with
    that name that lacks an end timestamp: every other step has another name
    and is concluded. The call updates exactly that step: status COMPLETED or
    FAILED, end timestamp set, and on failure the error text; name, start
    time and the steps before it are kept, the map and the counter are
    unchanged, the ledgers of the other transactions read as before. This is
    the result of the specified operation [end_step_spec], which ends the
    most recent step of that name without end timestamp. The other case of
    the operation never arises at a call; on any memory whose ledger for
    [tid] holds no step of that name, or that holds no such transaction, the
    call changes nothing. The transition [Enter g now] is this call. *)
Theorem updateStepStatus_ends_open_step events g tid name success err k now :
  (Z.of_nat (length events) < max_int)%Z →
  let s := sys_run growslice Errorf boot events in
  pool s !! g = Some (Atomic (updateStepStatus tid name success err) k) →
  let σ' := updateStepStatus tid name success err now (mem s) in
  mem (sys_step growslice Errorf s (Enter g now)) = σ' ∧
  (∃ x l0 st st',
     transactions (mem s) !! tid = Some x ∧
     elems (heap (mem s)) (Transaction.Steps x) = l0 ++ [st] ∧
     Step.Name st = name ∧ Step.EndedAt st = None ∧
     Forall (λ st0, Step.Name st0 ≠ name ∧ is_Some (Step.EndedAt st0)) l0 ∧
     transactions σ' = transactions (mem s) ∧
     nextID σ' = nextID (mem s) ∧
     elems (heap σ') (Transaction.Steps x) = l0 ++ [st'] ∧
     Step.Name st' = name ∧
     Step.StartedAt st' = Step.StartedAt st ∧
     Step.EndedAt st' = Some now ∧
     Step.Status st'
     = (if success then TransactionStatusCompleted
        else TransactionStatusFailed) ∧
     Step.Error st' = (if success then Step.Error st else err) ∧
     l0 ++ [st'] = end_step_spec name success err now (l0 ++ [st]) ∧
     (∀ tid2 x2,
        tid2 ≠ tid → transactions (mem s) !! tid2 = Some x2 →
        elems (heap σ') (Transaction.Steps x2)
        = elems (heap (mem s)) (Transaction.Steps x2))) ∧
  (∀ σ,
     (∀ x, transactions σ !! tid = Some x →
           Forall (λ st, Step.Name st ≠ name)
             (elems (heap σ) (Transaction.Steps x))) →
     updateStepStatus tid name success err now σ = σ).
Proof.
  intros Hlen s Hpg σ'.
  split; [unfold sys_step; by rewrite Hpg|].
  split; [|apply updateStepStatus_absent].
  destruct (sys_run_ledger growslice Errorf [] boot events Inv_boot
              (Inv_ledger_boot growslice))
    as (owners & HI & HL); [simpl; lia|].
  fold s in HI, HL.
  destruct (lookup_lt_is_Some_2 owners g) as [tid0 Hog].
  { rewrite (inv_owners_length _ _ HI). by eapply lookup_lt_Some. }
  destruct (HL g tid0 _ Hog Hpg) as (ns & cur & x & Hlp & Hx & Hsh).
  assert (Hcall : tid0 = tid ∧ cur = Some name).
  { inversion Hlp as [|ns' name' k' Hn Hk Hns Hcur [Hf Hk']
                     |ns' name' success' err' k' Hk Hns Hcur [Hf Hk']
                     |ns' oid k' Hk Hns Hcur [Hf Hk']
                     |ns' status reason k' Hk Hns Hcur [Hf Hk']|].
    - by apply addStep_is_not_updateStepStatus in Hf.
    - apply updateStepStatus_determines in Hf as [-> ->]. done.
    - by apply setOrderID_is_not_updateStepStatus in Hf.
    - by apply updateTransactionStatus_is_not_updateStepStatus in Hf. }
  destruct Hcall as [-> ->].
  destruct (enter_owner_same growslice Errorf owners s g now tid _ k HI Hog Hpg)
    as (Hoth & y & Hy & Hok).
  assert (y = x) as -> by congruence.
  unfold sys_step in Hoth. rewrite Hpg in Hoth.
  destruct (updateStepStatus_spec (mem s) tid name success err now x Hx Hok)
    as ((Htr & Hn & _) & Hel).
  destruct (ledger_shape_end _ name success err now _ Hsh)
    as (_ & l0 & st & Hl & Hname & Hopen & Hrest & Hend).
  exists x, l0, st, (conclude success err now st).
  fold σ' in Hel, Htr, Hn. rewrite Hend in Hel.
  split_and!; try done.
  all: try (by destruct success).
  - rewrite Htr. by apply insert_id.
  - by rewrite end_step_spec_last.
  - intros tid2 x2 Hne Hx2. by destruct (Hoth tid2 x2 Hne Hx2).
Qed.

End EndStep.

(** The order service is unreachable: the goroutine of the first transaction
    is about to conclude CREATE_ORDER as failed. *)
Lemma updateStepStatus_ends_open_step_witness :
  let σ := mem (sys_run doubling plain_Errorf boot
                  [ServeCreate sample_request 0; Enter 0 1;
                   Receive 0 (PostError "connection refused")]) in
  let σ' := updateStepStatus "TRX-1" "CREATE_ORDER" false
              "connection refused" 2 σ in
  ∃ x l0 st st',
    transactions σ !! "TRX-1" = Some x ∧
    elems (heap σ) (Transaction.Steps x) = l0 ++ [st] ∧
    Step.Name st = "CREATE_ORDER" ∧ Step.EndedAt st = None ∧
    elems (heap σ') (Transaction.Steps x) = l0 ++ [st'] ∧
    Step.Status st' = "FAILED" ∧ Step.EndedAt st' = Some 2%Z ∧
    Step.Error st' = "connection refused".
Proof.
  intros σ σ'.
  destruct (updateStepStatus_ends_open_step doubling plain_Errorf
              [ServeCreate sample_request 0; Enter 0 1;
               Receive 0 (PostError "connection refused")]
              0 "TRX-1" "CREATE_ORDER" false "connection refused"
              (locked (updateTransactionStatus "TRX-1" TransactionStatusFailed
                         "Failed to create order: connection refused")) 2%Z)
    as (_ & (x & l0 & st & st' & Hx & Hl & Hn & Ho & _ & _ & _ & Hl' & _ & _ & He
         & Hs & Herr & _) & _).
  - vm_compute. reflexivity.
  - reflexivity.
  - exists x, l0, st, st'. split; [exact Hx|]. split; [exact Hl|].
    split; [exact Hn|]. split; [exact Ho|]. split; [exact Hl'|].
    split; [exact Hs|]. split; [exact He|exact Herr].
Defined.
